(** * LZW encoder (lzwencode.c): shallow embedding and verification

    The development embeds the encoding half of the LZW library:
    [MakeKey], [MakeNode], [FindDictionaryEntry], [PutCodeWord], [FreeTree]
    and the driver [LZWEncodeFile].

    Modelling choices.
    - [unsigned int] is a 32-bit value carried in [Z]; every operation that
      can wrap in C is written with an explicit [mod 2^32]
      ([unsigned char] with [mod 2^8]).
    - The dictionary is a binary tree of [malloc]'d nodes that the driver
      mutates through the pointer returned by the search
      ([node->left = tmp]).  It is modelled as a store: [heap] is the list
      of all nodes in allocation order, a pointer is an index into it and
      [NULL] is [None].  [MakeNode] appends a node; an assignment through a
      pointer is an in-place update of the store.  Allocation is assumed to
      succeed (the [exit(EXIT_FAILURE)] branch of [MakeNode] is outside the
      model).
    - The input file is the list of its bytes; [fgetc] takes the head and
      reports [EOF] on the empty list.  [LZWEncodeFile] is the driver from
      the point where both files are open to the last code word;
      [LZWEncodeFile_named] is the whole function: it adds the calls that
      open and close the files, recorded in order with their outcome, and
      the teardown of the dictionary.
    - [free] works on the set of the nodes that are live: [FreeTree] fails
      with [WildPointer] when it reads or frees a node that is not.
    - The bit file is the list of the calls [PutCodeWord(code, codeLen)] in
      order: the bit-level writer [BitFilePutBitsNum] belongs to another
      library.  [stderr] is the list of the lines printed to it.
    - C loops whose termination is not structural take a fuel argument and
      fail with [OutOfFuel] when it runs out; the theorems show that the
      fuel handed over by the driver is always enough.

    Layout: the model; the vocabulary of the properties; the lemmas (the
    key, the search on a well-formed store, insertion, the width
    controller, the invariant of the main loop, whole runs, a long run of
    one byte); then the claims C1 to C10, each with its statement; then
    further properties of the code: the strings that the codes stand for
    and the code stream, the teardown of the tree, the exit paths. *)

From Stdlib Require Import ZArith Lia Bool Wellfounded.
From Stdlib Require Import Strings.Byte.
From stdpp Require Import base list strings gmap.

Local Open Scope Z_scope.

(** ** Outcomes of a run *)

Inductive fault : Type :=
  | NullDeref      (* a field of a NULL pointer is read or written *)
  | WildPointer    (* a pointer that designates no allocated node *)
  | OutOfFuel.     (* a loop did not finish within its fuel *)

Inductive result (A : Type) : Type :=
  | Ok (a : A)
  | Fault (f : fault).

Arguments Ok {A} a.
Arguments Fault {A} f.

Definition rbind {A B : Type} (r : result A) (k : A -> result B) : result B :=
  match r with
  | Ok a => k a
  | Fault f => Fault f
  end.

Notation "x <-- r ;; k" := (rbind r (fun x => k))
  (at level 100, r at next level, right associativity).

(** ** Constants and macros *)

Definition CHAR_BIT : Z := 8.
Definition UINT_MOD : Z := 2 ^ 32.
Definition UCHAR_MOD : Z := 2 ^ 8.
Definition EOF : Z := -1.

Definition MIN_CODE_LEN : Z := 9.
Definition MAX_CODE_LEN : Z := 20.
Definition FIRST_CODE : Z := Z.shiftl 1 CHAR_BIT.
Definition MAX_CODES : Z := Z.shiftl 1 MAX_CODE_LEN.

(* #define CURRENT_MAX_CODES(BITS) ((unsigned int)(1 << (BITS))) *)
Definition CURRENT_MAX_CODES (BITS : Z) : Z := Z.shiftl 1 BITS mod UINT_MOD.

(** ** The dictionary tree *)

(* A pointer to a dictionary node: an index into the store, or NULL. *)
Abbreviation ptr := (option nat) (only parsing).

Record dict_node_t : Type := mk_dict_node {
  codeWord : Z;        (* code word for this entry *)
  suffixChar : Z;      (* last char in encoded string *)
  prefixCode : Z;      (* code for remaining chars in string *)
  left : ptr;          (* child with < key *)
  right : ptr          (* child with >= key *)
}.

Definition set_left (n : dict_node_t) (p : ptr) : dict_node_t :=
  mk_dict_node (codeWord n) (suffixChar n) (prefixCode n) p (right n).

Definition set_right (n : dict_node_t) (p : ptr) : dict_node_t :=
  mk_dict_node (codeWord n) (suffixChar n) (prefixCode n) (left n) p.

(* unsigned int MakeKey(unsigned int prefixCode, unsigned char suffixChar) *)
Definition MakeKey (prefixCode suffixChar : Z) : Z :=
  let key := Z.land suffixChar 0xF0 in
  let key := Z.shiftl key MAX_CODE_LEN mod UINT_MOD in
  let key := Z.lor key (Z.shiftl prefixCode 4 mod UINT_MOD) in
  let key := Z.lor key (Z.land suffixChar 0x0F) in
  key.

(* dict_node_t *MakeNode(codeWord, prefixCode, suffixChar): the new node is
   the next cell of the store, both children NULL. *)
Definition MakeNode (heap : list dict_node_t) (codeWord prefixCode suffixChar : Z)
  : list dict_node_t * nat :=
  (heap ++ [mk_dict_node codeWord (suffixChar mod UCHAR_MOD) prefixCode None None],
   length heap).

(* The [while (1)] loop of FindDictionaryEntry, started at a non-NULL root. *)
Fixpoint find_loop (fuel : nat) (heap : list dict_node_t) (root : nat)
  (searchKey : Z) : result nat :=
  match heap !! root with
  | None => Fault WildPointer
  | Some n =>
      let key := MakeKey (prefixCode n) (suffixChar n) in
      if key =? searchKey then Ok root
      else if searchKey <? key then
        match left n with
        | Some l =>
            match fuel with
            | O => Fault OutOfFuel
            | S fuel' => find_loop fuel' heap l searchKey
            end
        | None => Ok root
        end
      else
        match right n with
        | Some r =>
            match fuel with
            | O => Fault OutOfFuel
            | S fuel' => find_loop fuel' heap r searchKey
            end
        | None => Ok root
        end
  end.

(* dict_node_t *FindDictionaryEntry(dict_node_t *root, int prefixCode,
   unsigned char c).  The loop is given one unit of fuel per allocated node. *)
Definition FindDictionaryEntry (heap : list dict_node_t) (root : ptr)
  (prefixCode c : Z) : result ptr :=
  match root with
  | None => Ok None
  | Some r =>
      let searchKey := MakeKey (prefixCode mod UINT_MOD) (c mod UCHAR_MOD) in
      node <-- find_loop (length heap) heap r searchKey ;;
      Ok (Some node)
  end.

(** ** The driver *)

(* A code word handed to the bit file: (code, codeLen). *)
Abbreviation code_word := (Z * Z)%type (only parsing).

Record encoder : Type := mk_encoder {
  code : Z;                     (* code for current string *)
  currentCodeLen : Z;           (* length of the current code *)
  nextCode : Z;                 (* next available code index *)
  dictRoot : ptr;               (* root of dictionary tree *)
  heap : list dict_node_t;      (* the allocated dictionary nodes *)
  bfpOut : list code_word;      (* encoded output, oldest first *)
  stderr : list string          (* diagnostics, oldest first *)
}.

Definition set_code (st : encoder) (v : Z) : encoder :=
  mk_encoder v (currentCodeLen st) (nextCode st) (dictRoot st) (heap st)
    (bfpOut st) (stderr st).

Definition set_currentCodeLen (st : encoder) (v : Z) : encoder :=
  mk_encoder (code st) v (nextCode st) (dictRoot st) (heap st)
    (bfpOut st) (stderr st).

Definition set_nextCode (st : encoder) (v : Z) : encoder :=
  mk_encoder (code st) (currentCodeLen st) v (dictRoot st) (heap st)
    (bfpOut st) (stderr st).

Definition set_dictRoot (st : encoder) (p : ptr) : encoder :=
  mk_encoder (code st) (currentCodeLen st) (nextCode st) p (heap st)
    (bfpOut st) (stderr st).

Definition set_heap (st : encoder) (h : list dict_node_t) : encoder :=
  mk_encoder (code st) (currentCodeLen st) (nextCode st) (dictRoot st) h
    (bfpOut st) (stderr st).

Definition fprintf_stderr (st : encoder) (msg : string) : encoder :=
  mk_encoder (code st) (currentCodeLen st) (nextCode st) (dictRoot st) (heap st)
    (bfpOut st) (stderr st ++ [msg]).

(* void PutCodeWord(bit_file_t *bfpOut, int code, unsigned char codeLen) *)
Definition PutCodeWord (st : encoder) (cw : Z) (codeLen : Z) : encoder :=
  mk_encoder (code st) (currentCodeLen st) (nextCode st) (dictRoot st)
    (heap st) (bfpOut st ++ [(cw, codeLen)]) (stderr st).

(* int fgetc(FILE* stream): the next byte as a non-negative int, or EOF. *)
Definition fgetc (fpIn : list Byte.byte) : Z * list Byte.byte :=
  match fpIn with
  | [] => (EOF, [])
  | b :: rest => (Z.of_N (Byte.to_N b), rest)
  end.

(* The state after the declarations and initialisations of lines 155-161.
   [code] is not yet assigned in C; 0 stands for its unspecified value. *)
Definition init_encoder : encoder :=
  mk_encoder 0 9 FIRST_CODE None [] [] [].

(* Lines 227-235: while ((code >= CURRENT_MAX_CODES(currentCodeLen) - 1) &&
   (currentCodeLen < MAX_CODE_LEN)) { PutCodeWord(all ones); currentCodeLen++; } *)
Fixpoint width_loop (fuel : nat) (st : encoder) : result encoder :=
  if (code st >=? (CURRENT_MAX_CODES (currentCodeLen st) - 1) mod UINT_MOD)
     && (currentCodeLen st <? MAX_CODE_LEN)
  then
    match fuel with
    | O => Fault OutOfFuel
    | S fuel' =>
        let st1 := PutCodeWord st ((CURRENT_MAX_CODES (currentCodeLen st) - 1) mod UINT_MOD)
                     (currentCodeLen st) in
        width_loop fuel' (set_currentCodeLen st1 ((currentCodeLen st1 + 1) mod UCHAR_MOD))
    end
  else Ok st.

(* The line printed when the dictionary is full, with its newline. *)
Definition dictionary_full_msg : string :=
  String.append "Error: Dictionary Full" (String (Ascii.ascii_of_nat 10) EmptyString).

(* Lines 204-225: add code + c to the dictionary if there is room.  [node] is
   the pointer returned by the search and [n] the node it designates. *)
Definition add_entry (st : encoder) (node : nat) (n : dict_node_t) (c : Z) : encoder :=
  if nextCode st <? MAX_CODES then
    let '(h1, tmp) := MakeNode (heap st) (nextCode st) (code st) c in
    let st1 := set_nextCode (set_heap st h1) ((nextCode st + 1) mod UINT_MOD) in
    if MakeKey (code st) (c mod UCHAR_MOD) <? MakeKey (prefixCode n) (suffixChar n) then
      set_heap st1 (<[node := set_left n (Some tmp)]> h1)
    else
      set_heap st1 (<[node := set_right n (Some tmp)]> h1)
  else
    fprintf_stderr st dictionary_full_msg.

(* Lines 193-242: one turn of the main loop, for the character [c] just read. *)
Definition loop_body (st : encoder) (c : Z) : result encoder :=
  node <-- FindDictionaryEntry (heap st) (dictRoot st) (code st) c ;;
  match node with
  | None => Fault NullDeref
  | Some node =>
      match heap st !! node with
      | None => Fault WildPointer
      | Some n =>
          if (prefixCode n =? code st) && (suffixChar n =? c) then
            (* code + c is in the dictionary, make its code the new code *)
            Ok (set_code st (codeWord n))
          else
            let st1 := add_entry st node n c in
            st2 <-- width_loop (Z.to_nat (MAX_CODE_LEN - currentCodeLen st1)) st1 ;;
            (* write out code for the string before c was added *)
            let st3 := PutCodeWord st2 (code st2) (currentCodeLen st2) in
            (* new code is just c *)
            Ok (set_code st3 c)
      end
  end.

(* Line 191: while ((c = fgetc(fpIn)) != EOF) { ... }.  [fgetc] hands over
   the bytes of the file one by one, none of which is EOF, then EOF. *)
Fixpoint encode_loop (fpIn : list Byte.byte) (st : encoder) : result encoder :=
  match fpIn with
  | [] => Ok st
  | b :: rest =>
      st' <-- loop_body st (Z.of_N (Byte.to_N b)) ;;
      encode_loop rest st'
  end.

(* Lines 176-188: create a tree root from 1st 2 character string. *)
Definition seed (st : encoder) (c : Z) : encoder :=
  let '(h1, root) := MakeNode (heap st) (nextCode st) (code st) c in
  let st1 := set_dictRoot (set_heap st h1) (Some root) in
  let st2 := set_nextCode st1 ((nextCode st1 + 1) mod UINT_MOD) in
  let st3 := PutCodeWord st2 (code st2) (currentCodeLen st2) in
  set_code st3 c.

(* The state in which the main loop is entered and the input left for it,
   or [None] for an empty file. *)
Definition prologue (fpIn : list Byte.byte) : option (encoder * list Byte.byte) :=
  let st := init_encoder in
  let '(c, fpIn) := fgetc fpIn in
  if c =? EOF then None
  else
    let st := set_code st c in
    let '(c, fpIn) := fgetc fpIn in
    if negb (c =? EOF) then Some (seed st c, fpIn) else Some (st, fpIn).

(* int LZWEncodeFile(...), from line 155 to the point where the dictionary
   is about to be freed.  The boolean is the value returned. *)
Definition LZWEncodeFile (fpIn : list Byte.byte) : result (bool * encoder) :=
  match prologue fpIn with
  | None => Ok (false, init_encoder)     (* empty file *)
  | Some (st, fpIn) =>
      st <-- encode_loop fpIn st ;;
      (* no more input.  write out last of the code. *)
      Ok (true, PutCodeWord st (code st) (currentCodeLen st))
  end.

(** ** Teardown and file handling *)

(* The nodes handed out by [malloc] and not yet freed. *)
Definition allocated (h : list dict_node_t) : gset nat :=
  list_to_set (seq 0 (length h)).

(* free(node): the node must be live. *)
Definition free (live : gset nat) (node : nat) : result (gset nat) :=
  if decide (node ∈ live) then Ok (live ∖ {[node]}) else Fault WildPointer.

(* void FreeTree(dict_node_t *node).  [live] is the set of nodes not yet
   freed; a field of a node can be read only while the node is live.  The
   fuel bounds the depth of the recursion. *)
Fixpoint FreeTree (fuel : nat) (heap : list dict_node_t) (live : gset nat)
  (node : nat) : result (gset nat) :=
  match fuel with
  | O => Fault OutOfFuel
  | S fuel' =>
      if decide (node ∈ live) then
        match heap !! node with
        | None => Fault WildPointer
        | Some n =>
            (* free left branch *)
            live <-- match left n with
                     | Some l => FreeTree fuel' heap live l
                     | None => Ok live
                     end ;;
            (* free right branch *)
            if decide (node ∈ live) then
              live <-- match right n with
                       | Some r => FreeTree fuel' heap live r
                       | None => Ok live
                       end ;;
              (* free root *)
              free live node
            else Fault WildPointer
        end
      else Fault WildPointer
  end.

(* Lines 251-255: if (dictRoot != NULL) FreeTree(dictRoot).  The result is
   the set of nodes still allocated when the function returns. *)
Definition free_dictionary (st : encoder) : result (gset nat) :=
  match dictRoot st with
  | Some root => FreeTree (length (heap st)) (heap st) (allocated (heap st)) root
  | None => Ok (allocated (heap st))
  end.

(* The calls that open, close and report on files, in the order made.
   A call that opens a file carries its outcome. *)
Inductive file_call : Type :=
  | call_fopen (name : string) (opened : bool)        (* fopen(inFile, "rb") *)
  | call_MakeBitFile                                  (* MakeBitFile(stdout, BF_WRITE) *)
  | call_BitFileOpen (name : string) (opened : bool)  (* BitFileOpen(outFile, BF_WRITE) *)
  | call_fclose                                       (* fclose(fpIn) *)
  | call_BitFileClose                                 (* BitFileClose(bfpOut) *)
  | call_perror (name : string).

(* The files as the run finds them: the bytes of each file that can be
   opened for reading, and whether a file can be opened for writing. *)
Record file_system : Type := mk_file_system {
  fopen : string -> option (list Byte.byte);
  BitFileOpen : string -> bool
}.

(* What a whole call returns: the value returned, the encoder state, the
   file calls made and the dictionary nodes still allocated. *)
Abbreviation outcome := (bool * encoder * list file_call * gset nat)%type (only parsing).

(* Lines 155-257, once both files are open: [calls] are the calls made to
   open them. *)
Definition encode_opened (fpIn : list Byte.byte) (calls : list file_call)
  : result outcome :=
  r <-- LZWEncodeFile fpIn ;;
  if r.1 then
    (* fclose(fpIn); BitFileClose(bfpOut); free the dictionary; return TRUE *)
    live <-- free_dictionary r.2 ;;
    Ok (true, r.2, calls ++ [call_fclose; call_BitFileClose], live)
  else
    (* empty file: return FALSE *)
    Ok (false, r.2, calls, allocated (heap r.2)).

(* int LZWEncodeFile(char *inFile, char *outFile), lines 121-258.
   [outFile] is [None] for a NULL pointer. *)
Definition LZWEncodeFile_named (fs : file_system) (inFile : string)
  (outFile : option string) : result outcome :=
  match fopen fs inFile with
  | None =>
      Ok (false, init_encoder, [call_fopen inFile false; call_perror inFile], ∅)
  | Some fpIn =>
      match outFile with
      | None => encode_opened fpIn [call_fopen inFile true; call_MakeBitFile]
      | Some name =>
          if BitFileOpen fs name then
            encode_opened fpIn [call_fopen inFile true; call_BitFileOpen name true]
          else
            Ok (false, init_encoder,
                [call_fopen inFile true; call_BitFileOpen name false;
                 call_fclose; call_perror name], ∅)
      end
  end.

(** * Vocabulary of the properties *)

Definition key_of (n : dict_node_t) : Z := MakeKey (prefixCode n) (suffixChar n).

(* The pairs the driver builds keys from: a prefix code below the maximum
   code count and a byte. *)
Definition key_domain (x : Z * Z) : Prop :=
  0 <= x.1 < MAX_CODES /\ 0 <= x.2 < UCHAR_MOD.

Definition key_lt (x y : Z * Z) : Prop := MakeKey x.1 x.2 < MakeKey y.1 y.2.

(* Child pointers lead to nodes allocated later than their parent. *)
Definition child_ok (h : list dict_node_t) (i : nat) (p : ptr) : Prop :=
  forall j, p = Some j -> (i < j < length h)%nat.

Definition ptrs_ok (h : list dict_node_t) : Prop :=
  forall i n, h !! i = Some n -> child_ok h i (left n) /\ child_ok h i (right n).

(* Where the search can stop: on the key itself, or on a node that lacks
   the child on the side of the key. *)
Definition stops_at (n : dict_node_t) (k : Z) : Prop :=
  key_of n = k \/ (k < key_of n /\ left n = None) \/ (key_of n < k /\ right n = None).

(* The store after [tmp = MakeNode(...)] and [node->left = tmp] or
   [node->right = tmp], [m] being the node returned by the search. *)
Definition attach (h : list dict_node_t) (m : nat) (nm tmp : dict_node_t)
  : list dict_node_t :=
  if key_of tmp <? key_of nm
  then <[m := set_left nm (Some (length h))]> (h ++ [tmp])
  else <[m := set_right nm (Some (length h))]> (h ++ [tmp]).

(* [width_trace w out w']: an encoder whose current width is [w] writes the
   words [out] and is left with width [w'].  Every word is written at the
   width current at that time; the width moves only from [w] to [w + 1],
   only below the maximum, and only right after the all-ones word of
   width [w]. *)
Inductive width_trace : Z -> list code_word -> Z -> Prop :=
  | wt_done (w : Z) : width_trace w [] w
  | wt_keep (w v : Z) (out : list code_word) (w' : Z) :
      width_trace w out w' -> width_trace w ((v, w) :: out) w'
  | wt_grow (w : Z) (out : list code_word) (w' : Z) :
      w < MAX_CODE_LEN ->
      width_trace (w + 1) out w' -> width_trace w ((2 ^ w - 1, w) :: out) w'.

(* The escape words written while the width goes from [w] to [w + k]. *)
Fixpoint escapes (w : Z) (k : nat) : list code_word :=
  match k with
  | O => []
  | S k' => (2 ^ w - 1, w) :: escapes (w + 1) k'
  end.

Definition entry_ok (i : nat) (n : dict_node_t) : Prop :=
  codeWord n = FIRST_CODE + Z.of_nat i /\
  0 <= prefixCode n < codeWord n /\
  0 <= suffixChar n < 256.

Record dict_inv (h : list dict_node_t) : Prop := mk_dict_inv {
  di_ptrs : ptrs_ok h;
  di_entry : forall i n, h !! i = Some n -> entry_ok i n;
  di_size : FIRST_CODE + Z.of_nat (length h) <= MAX_CODES;
  (* searching for the key of a stored node from the root ends on that node *)
  di_find : forall j n, h !! j = Some n -> find_loop (length h) h 0 (key_of n) = Ok j
}.

(* The entries of the dictionary in creation order, without the links. *)
Definition entry_of (n : dict_node_t) : Z * Z * Z :=
  (codeWord n, prefixCode n, suffixChar n).

Definition dictionary (h : list dict_node_t) : list (Z * Z * Z) := map entry_of h.

Record inv (st : encoder) : Prop := mk_inv {
  inv_dict : dict_inv (heap st);
  inv_root : dictRoot st = match heap st with [] => None | _ :: _ => Some 0%nat end;
  inv_next : nextCode st = FIRST_CODE + Z.of_nat (length (heap st));
  inv_code : 0 <= code st < nextCode st;
  inv_widths : width_trace 9 (bfpOut st) (currentCodeLen st);
  inv_len : 9 <= currentCodeLen st <= MAX_CODE_LEN;
  inv_out : forall i v w, bfpOut st !! i = Some (v, w) ->
            0 <= v < FIRST_CODE + Z.of_nat i;
  inv_out_len : (length (heap st) <= length (bfpOut st))%nat;
  inv_assigned : Forall (fun e : code_word => e.1 < nextCode st) (bfpOut st)
}.

(* What one turn of the main loop does, for the character [c]. *)
Inductive body_spec (st : encoder) (c : Z) (st' : encoder) : Prop :=
  | body_match (n : dict_node_t) :
      n ∈ heap st -> prefixCode n = code st -> suffixChar n = c ->
      st' = set_code st (codeWord n) ->
      body_spec st c st'
  | body_novel (k : nat) :
      (forall n, n ∈ heap st -> ~ (prefixCode n = code st /\ suffixChar n = c)) ->
      (if nextCode st <? MAX_CODES
       then dictionary (heap st') = dictionary (heap st) ++ [(nextCode st, code st, c)] /\
            nextCode st' = nextCode st + 1 /\ stderr st' = stderr st
       else heap st' = heap st /\ nextCode st' = nextCode st /\
            stderr st' = stderr st ++ [dictionary_full_msg]) ->
      dictRoot st' = dictRoot st ->
      currentCodeLen st' = currentCodeLen st + Z.of_nat k ->
      bfpOut st' =
        bfpOut st ++ escapes (currentCodeLen st) k ++ [(code st, currentCodeLen st')] ->
      Forall (fun e : code_word => 0 <= e.1 <= code st) (escapes (currentCodeLen st) k) ->
      (code st < 2 ^ currentCodeLen st' - 1 \/ currentCodeLen st' = MAX_CODE_LEN) ->
      code st' = c ->
      body_spec st c st'.

(* The states in which the main loop calls the search, each with the
   character just read, in order. *)
Fixpoint loop_calls (fpIn : list Byte.byte) (st : encoder) : list (encoder * Z) :=
  match fpIn with
  | [] => []
  | b :: rest =>
      (st, Z.of_N (Byte.to_N b)) ::
      match loop_body st (Z.of_N (Byte.to_N b)) with
      | Ok st' => loop_calls rest st'
      | Fault _ => []
      end
  end.

Definition lookups (fpIn : list Byte.byte) : list (encoder * Z) :=
  match prologue fpIn with
  | None => []
  | Some (st, rest) => loop_calls rest st
  end.

(* A list that counts up from [start]: start, start + 1, start + 2, ... *)
Definition counts_up_from (start : Z) (l : list Z) : Prop :=
  forall i v, l !! i = Some v -> v = start + Z.of_nat i.

(* The code words written by a run. *)
Definition output_of (r : result (bool * encoder)) : list code_word :=
  match r with
  | Ok (_, st) => bfpOut st
  | Fault _ => []
  end.

(* The values of 256 and above in an output stream, in order. *)
Definition emitted_dictionary_codes (out : list code_word) : list Z :=
  List.filter (fun v => FIRST_CODE <=? v) (map fst out).

(* All 256 byte values in increasing order, then the bytes 0, 1, 255, 0. *)
Definition ramp_input : list Byte.byte :=
  omap Byte.of_nat (seq 0 256) ++ [x00; x01; xff; x00].

(* The bytes A A A A. *)
Definition input_AAAA : list Byte.byte := [x41; x41; x41; x41].

(* The bytes A B A B A B C. *)
Definition input_ABABABC : list Byte.byte := [x41; x42; x41; x42; x41; x42; x43].

(* What a turn of the main loop does to the width: it grows by [k] steps,
   and the [k] escape words come first in what the turn writes; anything
   written after them is at the new width. *)
Definition width_step (st st' : encoder) : Prop :=
  exists (k : nat) (tail : list code_word),
    currentCodeLen st' = currentCodeLen st + Z.of_nat k /\
    currentCodeLen st' <= MAX_CODE_LEN /\
    bfpOut st' = bfpOut st ++ escapes (currentCodeLen st) k ++ tail /\
    Forall (fun e : code_word => e.2 = currentCodeLen st') tail.

(* What a turn of the main loop does to the dictionary. *)
Definition assigns (st : encoder) (c : Z) (st' : encoder) : Prop :=
  ((exists n, n ∈ heap st /\ prefixCode n = code st /\ suffixChar n = c) ->
   dictionary (heap st') = dictionary (heap st) /\ nextCode st' = nextCode st) /\
  ((forall n, n ∈ heap st -> ~ (prefixCode n = code st /\ suffixChar n = c)) ->
   nextCode st < MAX_CODES ->
   dictionary (heap st') = dictionary (heap st) ++ [(nextCode st, code st, c)] /\
   nextCode st' = nextCode st + 1).

(* The same with the cap: a pair that is not in the dictionary gets no code
   once the counter has reached [MAX_CODES], and the dictionary is left as
   it is. *)
Definition assigns_capped (st : encoder) (c : Z) (st' : encoder) : Prop :=
  assigns st c st' /\
  ((forall n, n ∈ heap st -> ~ (prefixCode n = code st /\ suffixChar n = c)) ->
   MAX_CODES <= nextCode st ->
   dictionary (heap st') = dictionary (heap st) /\ nextCode st' = nextCode st).

(* A turn of the main loop that leaves the dictionary as it is; when the
   string is not in the dictionary it prints the diagnostic, writes the
   code of the string read so far after the width check, and goes on with
   the character as the new string. *)
Definition frozen_turn (st : encoder) (c : Z) (st' : encoder) : Prop :=
  heap st' = heap st /\ dictRoot st' = dictRoot st /\ nextCode st' = nextCode st /\
  ((forall n, n ∈ heap st -> ~ (prefixCode n = code st /\ suffixChar n = c)) ->
   stderr st' = stderr st ++ [dictionary_full_msg] /\
   code st' = c /\
   exists k : nat,
     bfpOut st' =
       bfpOut st ++ escapes (currentCodeLen st) k ++ [(code st, currentCodeLen st')]).

(* A state with a full code counter, and a character whose string is not
   in its one-entry dictionary. *)
Definition full_state : encoder :=
  mk_encoder 65 9 MAX_CODES (Some 0%nat) [mk_dict_node 256 66 65 None None] [] [].

(* One link of a prefix chain: [a] is the prefix code of the entry that
   carries the code [b]. *)
Definition prefix_step (h : list dict_node_t) (a b : Z) : Prop :=
  exists n, n ∈ h /\ prefixCode n = a /\ codeWord n = b.

(* On a file that repeats the byte A, the dictionary after [k] entries is
   A A, A A A, ...: entry [j] extends entry [j - 1] by one more A. *)
Definition chain_prefix (j : nat) : Z :=
  match j with
  | O => 65
  | S j' => FIRST_CODE + Z.of_nat j'
  end.

Definition chain (k : nat) : list (Z * Z * Z) :=
  map (fun j => (FIRST_CODE + Z.of_nat j, chain_prefix j, 65)) (seq 0 k).

(* The encoder has [k] entries and the string read so far is [j + 1] A's. *)
Definition in_round (k j : nat) (st : encoder) : Prop :=
  inv st /\ heap st <> [] /\ dictionary (heap st) = chain k /\
  code st = chain_prefix j.

(* The bytes read while the dictionary grows from 1 to [k + 1] entries. *)
Fixpoint rounds (k : nat) : nat :=
  match k with
  | O => O
  | S k' => (rounds k' + (k' + 2))%nat
  end.

(* The number of entries the dictionary has room for. *)
Definition dictionary_room : nat := Z.to_nat (MAX_CODES - FIRST_CODE).

(* A file of A's, long enough to fill the dictionary, to read the longest
   entry once more and to meet one more A after it. *)
Definition run_of_As : list Byte.byte :=
  repeat x41 (2 + (rounds (dictionary_room - 1) + (dictionary_room + 1))).

(* What a turn of the main loop writes: nothing, or the code [v] of the
   string read so far after the width check.  One escape is written for
   each width [w] at which the loop condition held ([v >= 2^w - 1] below the
   maximum width), and the code follows at a width that it fits, or at the
   maximum width. *)
Definition checked_emission (st st' : encoder) : Prop :=
  bfpOut st' = bfpOut st \/
  exists k : nat,
    currentCodeLen st' = currentCodeLen st + Z.of_nat k /\
    bfpOut st' =
      bfpOut st ++ escapes (currentCodeLen st) k ++ [(code st, currentCodeLen st')] /\
    (forall w, currentCodeLen st <= w < currentCodeLen st' ->
       2 ^ w - 1 <= code st /\ w < MAX_CODE_LEN) /\
    (code st < 2 ^ currentCodeLen st' - 1 \/
     (currentCodeLen st' = MAX_CODE_LEN /\ code st < 2 ^ MAX_CODE_LEN)).

(** ** Vocabulary of the further properties *)

(* What one turn of the main loop does to the store. *)
Inductive heap_step (h h' : list dict_node_t) : Prop :=
  | hs_same : h' = h -> heap_step h h'
  | hs_attach (m : nat) (nm tmp : dict_node_t) :
      h !! m = Some nm ->
      left tmp = None /\ right tmp = None ->
      (key_of tmp < key_of nm /\ left nm = None) \/
      (key_of nm < key_of tmp /\ right nm = None) ->
      h' = attach h m nm tmp ->
      heap_step h h'.

Definition byte_val (b : Byte.byte) : Z := Z.of_N (Byte.to_N b).

(* How the stream is read back: at a width [w] below the maximum the
   all-ones word is the escape that announces width [w + 1]; every other
   word is a code. *)
Definition is_escape (w v : Z) : bool := (v =? 2 ^ w - 1) && (w <? MAX_CODE_LEN).

(* The codes of a stream read from width [w] on, escapes dropped. *)
Fixpoint data_words (w : Z) (out : list code_word) : list Z :=
  match out with
  | [] => []
  | e :: out' =>
      if is_escape w e.1 then data_words (w + 1) out'
      else e.1 :: data_words w out'
  end.

(* The width the reader is left with. *)
Fixpoint width_after (w : Z) (out : list code_word) : Z :=
  match out with
  | [] => w
  | e :: out' =>
      if is_escape w e.1 then width_after (w + 1) out'
      else width_after w out'
  end.

(* The string a code stands for.  [ss] lists the strings of the entries
   256, 257, ... in order; a code below 256 stands for that byte. *)
Definition str_of (ss : list (list Z)) (c : Z) : list Z :=
  if c <? FIRST_CODE then [c]
  else default [] (ss !! Z.to_nat (c - FIRST_CODE)).

(* The string of an entry (codeWord, prefixCode, suffixChar): the string
   of its prefix code followed by its suffix character. *)
Definition add_string (ss : list (list Z)) (e : Z * Z * Z) : list (list Z) :=
  ss ++ [str_of ss e.1.2 ++ [e.2]].

Definition entry_strings (d : list (Z * Z * Z)) : list (list Z) :=
  fold_left add_string d [].

Definition expand (d : list (Z * Z * Z)) (c : Z) : list Z := str_of (entry_strings d) c.

(* Entry [i] carries the code [256 + i] and extends an older code. *)
Definition dict_wf (d : list (Z * Z * Z)) : Prop :=
  forall i e, d !! i = Some e ->
    e.1.1 = FIRST_CODE + Z.of_nat i /\ 0 <= e.1.2 < e.1.1.

(* Distinct codes below [next] stand for distinct strings. *)
Definition codes_distinct (d : list (Z * Z * Z)) (next : Z) : Prop :=
  forall a b, 0 <= a < next -> 0 <= b < next -> expand d a = expand d b -> a = b.

(* What links the stream written so far, the string being matched and the
   unread input [rest] of the file [fpIn]. *)
Record stream_inv (fpIn rest : list Byte.byte) (st : encoder) : Prop := mk_stream_inv {
  si_width : width_after 9 (bfpOut st) = currentCodeLen st;
  si_text :
    concat (map (expand (dictionary (heap st))) (data_words 9 (bfpOut st))) ++
    expand (dictionary (heap st)) (code st) ++ map byte_val rest = map byte_val fpIn;
  si_prefix : forall i e, dictionary (heap st) !! i = Some e ->
    data_words 9 (bfpOut st) !! i = Some e.1.2;
  si_suffix : forall i e d, dictionary (heap st) !! i = Some e ->
    (data_words 9 (bfpOut st) ++ [code st]) !! S i = Some d ->
    head (expand (dictionary (heap st)) d) = Some e.2;
  si_sync : nextCode st < MAX_CODES ->
    length (data_words 9 (bfpOut st)) = length (heap st);
  si_inj : codes_distinct (dictionary (heap st)) (nextCode st);
  si_count : (length (data_words 9 (bfpOut st)) + length rest + 1 <= length fpIn)%nat;
  si_quiet : stderr st <> [] -> MAX_CODES - FIRST_CODE + 2 <= Z.of_nat (length fpIn);
  si_known : forall j v, data_words 9 (bfpOut st) !! j = Some v ->
    0 <= v < FIRST_CODE + Z.of_nat j
}.

(* FreeTree on a branch that may be NULL. *)
Definition free_branch (fuel : nat) (h : list dict_node_t) (live : gset nat)
  (p : option nat) : result (gset nat) :=
  match p with
  | Some c => FreeTree fuel h live c
  | None => Ok live
  end.

(* What one turn of the main loop does, in terms of strings: [s] is the
   string read so far followed by the character just read. *)
Definition greedy_turn (st : encoder) (c : Z) (st' : encoder) : Prop :=
  let d := dictionary (heap st) in
  let s := expand d (code st) ++ [c] in
  (exists e, e ∈ d /\ expand d e.1.1 = s /\
             code st' = e.1.1 /\ bfpOut st' = bfpOut st /\ heap st' = heap st) \/
  ((forall e, e ∈ d -> expand d e.1.1 <> s) /\
   code st' = c /\
   exists k : nat,
     bfpOut st' =
       bfpOut st ++ escapes (currentCodeLen st) k ++ [(code st, currentCodeLen st')]).

(* The number of files a sequence of calls leaves open. *)
Fixpoint left_open (calls : list file_call) (n : nat) : nat :=
  match calls with
  | [] => n
  | call_fopen _ true :: calls' => left_open calls' (S n)
  | call_MakeBitFile :: calls' => left_open calls' (S n)
  | call_BitFileOpen _ true :: calls' => left_open calls' (S n)
  | call_fclose :: calls' => left_open calls' (n - 1)
  | call_BitFileClose :: calls' => left_open calls' (n - 1)
  | _ :: calls' => left_open calls' n
  end.

(* The output can be opened: it is [stdout], or a file that
   [BitFileOpen] opens. *)
Definition output_opens (fs : file_system) (outFile : option string) : bool :=
  match outFile with
  | None => true
  | Some name => BitFileOpen fs name
  end.

(** * Properties *)

(** ** The composite key *)

Lemma lor_disjoint (a b : Z) : Z.land a b = 0 -> Z.lor a b = a + b.
Proof. intros H. generalize (Z.add_lor_land a b). rewrite H. lia. Qed.

Lemma land_above_below (h a n : Z) :
  0 <= n -> 0 <= a < 2 ^ n -> Z.land (h * 2 ^ n) a = 0.
Proof.
  intros Hn Ha. apply Z.bits_inj'. intros m Hm.
  rewrite Z.land_spec, Z.bits_0.
  destruct (Z_lt_le_dec m n) as [Hlt | Hge].
  - rewrite Z.mul_pow2_bits_low by assumption. reflexivity.
  - rewrite <- (Z.mod_small a (2 ^ n)) by assumption.
    rewrite Z.mod_pow2_bits_high by lia. apply andb_false_r.
Qed.

Lemma land_nibbles (s : Z) : Z.land (Z.land s 0xF0) (Z.land s 0x0F) = 0.
Proof.
  apply Z.bits_inj'. intros m Hm.
  rewrite !Z.land_spec, Z.bits_0.
  assert (Hc : Z.testbit 0xF0 m && Z.testbit 0x0F m = false).
  { rewrite <- Z.land_spec. change (Z.land 0xF0 0x0F) with 0. apply Z.bits_0. }
  destruct (Z.testbit s m), (Z.testbit 0xF0 m), (Z.testbit 0x0F m);
    simpl in *; congruence.
Qed.

Lemma land_high_nibble (s : Z) :
  0 <= s < 256 -> Z.land s 0xF0 = 16 * (s / 16).
Proof.
  intros Hs.
  assert (Hsum : Z.land s 0xF0 + Z.land s 0x0F = s).
  { rewrite <- lor_disjoint by apply land_nibbles.
    rewrite <- Z.land_lor_distr_r. change (Z.lor 0xF0 0x0F) with (Z.ones 8).
    rewrite Z.land_ones by lia. apply Z.mod_small. change (2 ^ 8) with 256. lia. }
  assert (Hlow : Z.land s 0x0F = s mod 16).
  { change 0x0F with (Z.ones 4). rewrite Z.land_ones by lia. reflexivity. }
  rewrite Hlow in Hsum. pose proof (Z.div_mod s 16). lia.
Qed.

(* The key as a number: high nibble, then the prefix code, then the low
   nibble. *)
Lemma MakeKey_value (p s : Z) :
  0 <= p < MAX_CODES -> 0 <= s < 256 ->
  MakeKey p s = (s / 16) * 2 ^ 24 + p * 16 + s mod 16.
Proof.
  intros Hp Hs. unfold MakeKey, MAX_CODE_LEN, UINT_MOD.
  change MAX_CODES with (2 ^ 20) in Hp.
  assert (Hh : 0 <= s / 16 < 16) by (split; [apply Z.div_pos | apply Z.div_lt_upper_bound]; lia).
  assert (Hl : 0 <= s mod 16 < 16) by (apply Z.mod_pos_bound; lia).
  rewrite land_high_nibble by assumption.
  change 0x0F with (Z.ones 4). rewrite Z.land_ones by lia.
  rewrite !Z.shiftl_mul_pow2 by lia.
  change (2 ^ 4) with 16 in *. change (2 ^ 20) with 1048576 in *.
  change (2 ^ 32) with 4294967296. change (2 ^ 24) with 16777216.
  rewrite (Z.mod_small (16 * (s / 16) * 1048576)) by lia.
  rewrite (Z.mod_small (p * 16)) by lia.
  replace (16 * (s / 16) * 1048576) with ((s / 16) * 2 ^ 24) by lia.
  rewrite (lor_disjoint (s / 16 * 2 ^ 24)) by (apply land_above_below; lia).
  replace (s / 16 * 2 ^ 24 + p * 16) with ((s / 16 * 1048576 + p) * 2 ^ 4) by lia.
  rewrite lor_disjoint by (apply land_above_below; lia).
  lia.
Qed.

Lemma MakeKey_inj (p1 s1 p2 s2 : Z) :
  0 <= p1 < MAX_CODES -> 0 <= s1 < 256 ->
  0 <= p2 < MAX_CODES -> 0 <= s2 < 256 ->
  MakeKey p1 s1 = MakeKey p2 s2 -> p1 = p2 /\ s1 = s2.
Proof.
  intros Hp1 Hs1 Hp2 Hs2.
  rewrite !MakeKey_value by assumption.
  change MAX_CODES with 1048576 in *. change (2 ^ 24) with 16777216.
  pose proof (Z.div_mod s1 16). pose proof (Z.div_mod s2 16).
  pose proof (Z.mod_pos_bound s1 16). pose proof (Z.mod_pos_bound s2 16).
  assert (0 <= s1 / 16 < 16) by (split; [apply Z.div_pos | apply Z.div_lt_upper_bound]; lia).
  assert (0 <= s2 / 16 < 16) by (split; [apply Z.div_pos | apply Z.div_lt_upper_bound]; lia).
  intros Heq. lia.
Qed.

(** ** The search loop on a well-formed store *)

Lemma find_loop_unfold (fuel : nat) (h : list dict_node_t) (root : nat) (k : Z) :
  find_loop fuel h root k =
  match h !! root with
  | None => Fault WildPointer
  | Some n =>
      if key_of n =? k then Ok root
      else if k <? key_of n then
        match left n with
        | Some l => match fuel with
                    | O => Fault OutOfFuel
                    | S fuel' => find_loop fuel' h l k
                    end
        | None => Ok root
        end
      else
        match right n with
        | Some r => match fuel with
                    | O => Fault OutOfFuel
                    | S fuel' => find_loop fuel' h r k
                    end
        | None => Ok root
        end
  end.
Proof. destruct fuel; reflexivity. Qed.

Ltac find_step H :=
  rewrite find_loop_unfold in H;
  match type of H with
  | context [?h !! ?r] => destruct (h !! r) as [?n|] eqn:?Hlk; [|discriminate H]
  end;
  match type of H with
  | context [key_of ?n =? ?k] =>
      destruct (Z.eqb_spec (key_of n) k) as [?Heq|?Hne];
      [| destruct (Z.ltb_spec k (key_of n)) as [?Hlt|?Hge]]
  end.

Lemma find_loop_root_lt (fuel : nat) (h : list dict_node_t) (r m : nat) (k : Z) :
  find_loop fuel h r k = Ok m -> (r < length h)%nat.
Proof.
  rewrite find_loop_unfold. destruct (h !! r) eqn:E; [| discriminate].
  intros _. eapply lookup_lt_Some; eassumption.
Qed.

Lemma find_loop_stops (fuel : nat) (h : list dict_node_t) (r m : nat) (k : Z) :
  find_loop fuel h r k = Ok m ->
  exists nm, h !! m = Some nm /\ stops_at nm k.
Proof.
  revert r. induction fuel as [|fuel IH]; intros r H; find_step H.
  all: try (injection H as <-; eexists; split; [eassumption | unfold stops_at; lia]).
  all: try (destruct (left n) eqn:El; [try discriminate H; eauto |
       injection H as <-; eexists; split; [eassumption | unfold stops_at; tauto]]).
  all: try (destruct (right n) eqn:Er; [try discriminate H; eauto |
       injection H as <-; eexists; split; [eassumption | unfold stops_at; right; right; split; [lia | assumption]]]).
Qed.

Lemma find_loop_fuel_mono (fuel fuel' : nat) (h : list dict_node_t) (r m : nat) (k : Z) :
  find_loop fuel h r k = Ok m -> (fuel <= fuel')%nat -> find_loop fuel' h r k = Ok m.
Proof.
  revert fuel' r. induction fuel as [|fuel IH]; intros fuel' r H Hle;
    rewrite find_loop_unfold; find_step H.
  all: try assumption.
  all: try (destruct (left n); [| assumption]).
  all: try (destruct (right n); [| assumption]).
  all: try discriminate H.
  all: destruct fuel' as [|fuel']; [lia | apply IH; [assumption | lia]].
Qed.

(* With one unit of fuel per node still ahead of [r] the search returns. *)
Lemma find_loop_total (fuel : nat) (h : list dict_node_t) (r : nat) (k : Z) :
  ptrs_ok h -> (r < length h)%nat -> (length h <= fuel + r + 1)%nat ->
  exists m, find_loop fuel h r k = Ok m.
Proof.
  intros Hp. revert r. induction fuel as [|fuel IH]; intros r Hr Hf;
    rewrite find_loop_unfold;
    destruct (lookup_lt_is_Some_2 h r Hr) as [n Hn]; rewrite Hn;
    destruct (Hp _ _ Hn) as [Hl Hrr];
    destruct (key_of n =? k); eauto;
    destruct (k <? key_of n).
  all: try (destruct (left n) as [l|]; eauto; specialize (Hl l eq_refl); try lia;
            apply IH; lia).
  all: try (destruct (right n) as [l|]; eauto; specialize (Hrr l eq_refl); try lia;
            apply IH; lia).
Qed.

(** ** Hanging a new node under the node returned by the search *)

Section Attach.

Variables (h : list dict_node_t) (m : nat) (nm tmp : dict_node_t).
Hypothesis Hptrs : ptrs_ok h.
Hypothesis Hm : h !! m = Some nm.
Hypothesis Hfresh : left tmp = None /\ right tmp = None.
Hypothesis Hstop :
  (key_of tmp < key_of nm /\ left nm = None) \/
  (key_of nm < key_of tmp /\ right nm = None).

Lemma attach_length : length (attach h m nm tmp) = S (length h).
Proof.
  unfold attach. destruct (key_of tmp <? key_of nm);
    rewrite length_insert, length_app; simpl; lia.
Qed.

Lemma attach_lookup_new : attach h m nm tmp !! length h = Some tmp.
Proof.
  pose proof (lookup_lt_Some _ _ _ Hm) as Hlt.
  unfold attach. destruct (key_of tmp <? key_of nm);
    (rewrite list_lookup_insert_ne by lia);
    rewrite lookup_app_r by lia;
    replace (length h - length h)%nat with 0%nat by lia; reflexivity.
Qed.

Lemma attach_lookup_other (j : nat) :
  j <> m -> (j < length h)%nat -> attach h m nm tmp !! j = h !! j.
Proof.
  intros Hne Hlt. unfold attach. destruct (key_of tmp <? key_of nm);
    (rewrite list_lookup_insert_ne by lia); apply lookup_app_l; lia.
Qed.

Lemma attach_lookup_parent :
  attach h m nm tmp !! m = Some (if key_of tmp <? key_of nm
                  then set_left nm (Some (length h))
                  else set_right nm (Some (length h))).
Proof.
  pose proof (lookup_lt_Some _ _ _ Hm) as Hlt.
  unfold attach. destruct (key_of tmp <? key_of nm);
    apply list_lookup_insert_eq; rewrite length_app; simpl; lia.
Qed.

(* Apart from one child pointer of the parent, old nodes are unchanged. *)
Lemma attach_lookup_old (j : nat) (nj : dict_node_t) :
  h !! j = Some nj ->
  exists nj', attach h m nm tmp !! j = Some nj' /\
    codeWord nj' = codeWord nj /\ prefixCode nj' = prefixCode nj /\
    suffixChar nj' = suffixChar nj.
Proof.
  intros Hj. pose proof (lookup_lt_Some _ _ _ Hj) as Hlt.
  destruct (decide (j = m)) as [-> | Hne].
  - rewrite Hm in Hj. injection Hj as <-.
    eexists. split; [apply attach_lookup_parent |].
    destruct (key_of tmp <? key_of nm); auto.
  - exists nj. rewrite attach_lookup_other by assumption. auto.
Qed.

Lemma attach_ptrs_ok : ptrs_ok (attach h m nm tmp).
Proof.
  pose proof (lookup_lt_Some _ _ _ Hm) as Hmlt.
  intros i n Hi. unfold child_ok. rewrite attach_length.
  pose proof (lookup_lt_Some _ _ _ Hi) as Hilt. rewrite attach_length in Hilt.
  destruct (decide (i = length h)) as [-> | Hnew].
  { rewrite attach_lookup_new in Hi. injection Hi as <-.
    destruct Hfresh as [-> ->]. split; intros j Hj; discriminate. }
  destruct (decide (i = m)) as [-> | Hne].
  - rewrite attach_lookup_parent in Hi. injection Hi as <-.
    destruct (Hptrs _ _ Hm) as [Hl Hr].
    destruct (key_of tmp <? key_of nm); simpl; split; intros j Hj.
    + injection Hj as <-. lia.
    + specialize (Hr j Hj). lia.
    + specialize (Hl j Hj). lia.
    + injection Hj as <-. lia.
  - rewrite attach_lookup_other in Hi by lia.
    destruct (Hptrs _ _ Hi) as [Hl Hr].
    split; intros j Hj; [specialize (Hl j Hj) | specialize (Hr j Hj)]; lia.
Qed.

(* A key that the old search found on a node is still found there. *)
Lemma attach_find_old (fuel r j : nat) (nj : dict_node_t) :
  find_loop fuel h r (key_of nj) = Ok j -> h !! j = Some nj ->
  find_loop fuel (attach h m nm tmp) r (key_of nj) = Ok j.
Proof.
  revert r. induction fuel as [|fuel IH]; intros r H Hj;
    rewrite find_loop_unfold; find_step H.
  all: pose proof (lookup_lt_Some _ _ _ Hlk) as Hrlt.
  all: destruct (decide (r = m)) as [-> | Hrm];
    [ rewrite attach_lookup_parent; rewrite Hm in Hlk; injection Hlk as <-
    | rewrite attach_lookup_other by assumption; rewrite Hlk ].
  all: try (replace (key_of (if key_of tmp <? key_of nm
                             then set_left nm (Some (length h))
                             else set_right nm (Some (length h))))
              with (key_of nm) by (destruct (key_of tmp <? key_of nm); reflexivity)).
  all: try (rewrite (proj2 (Z.eqb_eq _ _)) by assumption; assumption).
  all: rewrite (proj2 (Z.eqb_neq _ _)) by assumption.
  all: try rewrite (proj2 (Z.ltb_lt _ _)) by assumption.
  all: try rewrite (proj2 (Z.ltb_ge _ _)) by assumption.
  (* the node is not the parent: same step *)
  all: try (destruct (left n) eqn:El; [try discriminate H; eauto | assumption]).
  all: try (destruct (right n) eqn:Er; [try discriminate H; eauto | assumption]).
  (* the node is the parent *)
  all: destruct Hstop as [[Hk Hnull] | [Hk Hnull]].
  all: try rewrite (proj2 (Z.ltb_lt _ _) Hk).
  all: try rewrite (proj2 (Z.ltb_ge _ _)) by lia.
  all: simpl.
  all: try rewrite Hnull in H.
  all: try (injection H as <-; rewrite Hm in Hj; injection Hj as <-; lia).
  all: try (destruct (left nm) eqn:El; [try discriminate H; eauto | assumption]).
  all: try (destruct (right nm) eqn:Er; [try discriminate H; eauto | assumption]).
Qed.

Lemma key_of_parent :
  key_of (if key_of tmp <? key_of nm
          then set_left nm (Some (length h))
          else set_right nm (Some (length h))) = key_of nm.
Proof. destruct (key_of tmp <? key_of nm); reflexivity. Qed.

(* The key of the new node is found on the new node. *)
Lemma attach_find_new (fuel r : nat) :
  find_loop fuel h r (key_of tmp) = Ok m ->
  find_loop (S fuel) (attach h m nm tmp) r (key_of tmp) = Ok (length h).
Proof.
  assert (Hnew : forall f, find_loop f (attach h m nm tmp) (length h) (key_of tmp) = Ok (length h)).
  { intros f. rewrite find_loop_unfold, attach_lookup_new, Z.eqb_refl. reflexivity. }
  revert r. induction fuel as [|fuel IH]; intros r H;
    pose proof (find_loop_root_lt _ _ _ _ _ H) as Hrlt;
    rewrite find_loop_unfold;
    (destruct (decide (r = m)) as [-> | Hrm];
     [ rewrite attach_lookup_parent, key_of_parent;
       destruct Hstop as [[Hk Hnull] | [Hk Hnull]];
       [ rewrite (proj2 (Z.eqb_neq _ _)) by lia;
         rewrite (proj2 (Z.ltb_lt _ _) Hk); cbn [left right set_left set_right];
         apply Hnew
       | rewrite (proj2 (Z.eqb_neq _ _)) by lia;
         rewrite (proj2 (Z.ltb_ge _ _)) by lia; cbn [left right set_left set_right];
         apply Hnew ]
     | rewrite attach_lookup_other by assumption; find_step H ]).
  all: try (injection H as ->; contradiction).
  all: try (destruct (left n) eqn:El; [try discriminate H; eauto | injection H as ->; contradiction]).
  all: try (destruct (right n) eqn:Er; [try discriminate H; eauto | injection H as ->; contradiction]).
Qed.

End Attach.

(** ** The code-width controller *)

Lemma width_trace_app (w0 w1 w2 : Z) (out1 out2 : list code_word) :
  width_trace w0 out1 w1 -> width_trace w1 out2 w2 ->
  width_trace w0 (out1 ++ out2) w2.
Proof.
  induction 1; intros H2; simpl; [assumption | apply wt_keep; auto | apply wt_grow; auto].
Qed.

Lemma width_trace_escapes (w : Z) (k : nat) :
  w + Z.of_nat k <= MAX_CODE_LEN -> width_trace w (escapes w k) (w + Z.of_nat k).
Proof.
  revert w. induction k as [|k IH]; intros w Hle; simpl.
  - replace (w + Z.of_nat 0) with w by lia. constructor.
  - apply wt_grow; [lia |].
    replace (w + Z.of_nat (S k)) with (w + 1 + Z.of_nat k) by lia. apply IH. lia.
Qed.

Lemma width_trace_mono (w : Z) (out : list code_word) (w' : Z) :
  width_trace w out w' -> w <= w'.
Proof. induction 1; lia. Qed.

(* Consequences for the words of a trace, by position. *)
Lemma width_trace_first (w : Z) (out : list code_word) (w' v u : Z) :
  width_trace w out w' -> out !! 0%nat = Some (v, u) -> u = w.
Proof. intros H; inversion H; subst; simpl; intros E; congruence. Qed.

Lemma width_trace_range (w : Z) (out : list code_word) (w' : Z) :
  width_trace w out w' ->
  forall i v u, out !! i = Some (v, u) -> w <= u <= w'.
Proof.
  induction 1 as [w | w v out w' H IH | w out w' Hlt H IH]; intros i x u Hi.
  - discriminate.
  - pose proof (width_trace_mono _ _ _ H).
    destruct i as [|i]; simpl in Hi; [injection Hi as <- <-; lia | eauto].
  - pose proof (width_trace_mono _ _ _ H).
    destruct i as [|i]; simpl in Hi; [injection Hi as <- <-; lia |].
    specialize (IH _ _ _ Hi). lia.
Qed.

Lemma width_trace_adjacent (w : Z) (out : list code_word) (w' : Z) :
  width_trace w out w' ->
  forall i v u v' u', out !! i = Some (v, u) -> out !! S i = Some (v', u') ->
    u' = u \/ (u' = u + 1 /\ v = 2 ^ u - 1 /\ u < MAX_CODE_LEN).
Proof.
  induction 1 as [w | w v out w' H IH | w out w' Hlt H IH]; intros i x u x' u' Hi Hsi.
  - discriminate.
  - destruct i as [|i]; simpl in Hi, Hsi; [| eauto].
    injection Hi as <- <-. left. eapply width_trace_first; eassumption.
  - destruct i as [|i]; simpl in Hi, Hsi; [| eauto].
    injection Hi as <- <-. right. split; [| split; [reflexivity | assumption]].
    eapply width_trace_first; eassumption.
Qed.

Lemma CURRENT_MAX_CODES_pow (w : Z) :
  0 <= w <= MAX_CODE_LEN ->
  CURRENT_MAX_CODES w = 2 ^ w /\ (CURRENT_MAX_CODES w - 1) mod UINT_MOD = 2 ^ w - 1.
Proof.
  intros Hw. unfold CURRENT_MAX_CODES, UINT_MOD, MAX_CODE_LEN in *.
  rewrite Z.shiftl_mul_pow2, Z.mul_1_l by lia.
  assert (H1 : 0 < 2 ^ w) by (apply Z.pow_pos_nonneg; lia).
  assert (H2 : 2 ^ w <= 2 ^ 20) by (apply Z.pow_le_mono_r; lia).
  change (2 ^ 20) with 1048576 in H2. change (2 ^ 32) with 4294967296.
  rewrite (Z.mod_small (2 ^ w)) by lia. split; [reflexivity |].
  apply Z.mod_small. lia.
Qed.

(* The escalation loop: it returns within the fuel [MAX_CODE_LEN - width],
   writes only escape words, changes nothing but the width, and leaves a
   width that fits the code unless the maximum is reached. *)
Lemma width_loop_spec (fuel : nat) (st : encoder) :
  0 <= currentCodeLen st <= MAX_CODE_LEN ->
  (Z.to_nat (MAX_CODE_LEN - currentCodeLen st) <= fuel)%nat ->
  exists k : nat,
    width_loop fuel st =
      Ok (mk_encoder (code st) (currentCodeLen st + Z.of_nat k) (nextCode st)
            (dictRoot st) (heap st)
            (bfpOut st ++ escapes (currentCodeLen st) k) (stderr st)) /\
    currentCodeLen st + Z.of_nat k <= MAX_CODE_LEN /\
    (code st < 2 ^ (currentCodeLen st + Z.of_nat k) - 1 \/
     currentCodeLen st + Z.of_nat k = MAX_CODE_LEN) /\
    Forall (fun e : code_word => 0 <= e.1 <= code st) (escapes (currentCodeLen st) k).
Proof.
  revert st. induction fuel as [|fuel IH]; intros st Hlen Hfuel.
  - exists 0%nat. unfold MAX_CODE_LEN in *.
    assert (currentCodeLen st = 20) as E by lia.
    simpl. rewrite E. change (20 <? MAX_CODE_LEN) with false. rewrite andb_false_r.
    destruct st; simpl in *. subst. rewrite app_nil_r.
    repeat split; auto; lia.
  - destruct (CURRENT_MAX_CODES_pow _ Hlen) as [_ Hmax].
    simpl. rewrite Hmax.
    destruct (Z.geb_spec (code st) (2 ^ currentCodeLen st - 1)) as [Hge | Hlt];
      [destruct (Z.ltb_spec (currentCodeLen st) MAX_CODE_LEN) as [Hw | Hw] |]; simpl.
    + (* one more escape *)
      unfold UCHAR_MOD. change (2 ^ 8) with 256. unfold MAX_CODE_LEN in *.
      rewrite (Z.mod_small (currentCodeLen st + 1)) by lia.
      set (st1 := set_currentCodeLen _ _).
      destruct (IH st1) as (k & Hrun & Hle & Hfit & Hesc);
        [subst st1; simpl; lia | subst st1; simpl; lia |].
      exists (S k). subst st1. simpl in *. rewrite Hrun.
      replace (currentCodeLen st + 1 + Z.of_nat k)
        with (currentCodeLen st + Z.of_nat (S k)) in * by lia.
      rewrite <- app_assoc. simpl.
      repeat split; auto.
      constructor; [| assumption]. simpl.
      assert (0 < 2 ^ currentCodeLen st) by (apply Z.pow_pos_nonneg; lia). lia.
    + exists 0%nat. simpl. rewrite Z.add_0_r, app_nil_r. destruct st; simpl in *.
      repeat split; auto; lia.
    + exists 0%nat. simpl. rewrite Z.add_0_r, app_nil_r. destruct st; simpl in *.
      repeat split; auto; lia.
Qed.

(** ** The dictionary invariant *)

Lemma dict_inv_nil : dict_inv [].
Proof.
  split; try (intros ? ? H; discriminate H).
  simpl. vm_compute. discriminate.
Qed.

Lemma dict_inv_seed (p c : Z) :
  0 <= p < 256 -> 0 <= c < 256 ->
  dict_inv [mk_dict_node FIRST_CODE c p None None].
Proof.
  intros Hp Hc. split.
  - intros [|i] n Hi; [| destruct i; discriminate Hi].
    injection Hi as <-. split; intros j Hj; discriminate.
  - intros [|i] n Hi; [| destruct i; discriminate Hi].
    injection Hi as <-. unfold entry_ok. cbn [codeWord prefixCode suffixChar].
    change FIRST_CODE with 256. lia.
  - vm_compute. discriminate.
  - intros [|i] n Hi; [| destruct i; discriminate Hi].
    injection Hi as <-. rewrite find_loop_unfold. simpl.
    unfold key_of; simpl. rewrite Z.eqb_refl. reflexivity.
Qed.

Lemma dict_inv_key_inj (h : list dict_node_t) (i j : nat) (ni nj : dict_node_t) :
  dict_inv h -> h !! i = Some ni -> h !! j = Some nj ->
  prefixCode ni = prefixCode nj -> suffixChar ni = suffixChar nj -> i = j.
Proof.
  intros Hd Hi Hj Hp Hs.
  pose proof (di_find h Hd _ _ Hi) as Fi. pose proof (di_find h Hd _ _ Hj) as Fj.
  unfold key_of in Fi, Fj. rewrite Hp, Hs in Fi. congruence.
Qed.

Lemma dict_inv_prefix_bound (h : list dict_node_t) (i : nat) (n : dict_node_t) :
  dict_inv h -> h !! i = Some n ->
  0 <= prefixCode n < MAX_CODES /\ 0 <= suffixChar n < 256 /\
  codeWord n < FIRST_CODE + Z.of_nat (length h).
Proof.
  intros Hd Hi. destruct (di_entry h Hd _ _ Hi) as (Hc & Hp & Hs).
  pose proof (lookup_lt_Some _ _ _ Hi). pose proof (di_size h Hd). lia.
Qed.

(* Adding the entry for a pair that the search did not find. *)
Lemma dict_inv_attach (h : list dict_node_t) (m : nat) (nm : dict_node_t) (p c : Z) :
  dict_inv h ->
  0 <= p < FIRST_CODE + Z.of_nat (length h) -> 0 <= c < 256 ->
  FIRST_CODE + Z.of_nat (length h) < MAX_CODES ->
  find_loop (length h) h 0 (MakeKey p c) = Ok m ->
  h !! m = Some nm ->
  ~ (prefixCode nm = p /\ suffixChar nm = c) ->
  dict_inv (attach h m nm
              (mk_dict_node (FIRST_CODE + Z.of_nat (length h)) c p None None)).
Proof.
  intros Hd Hp Hc Hroom Hfind Hm Hnovel.
  set (tmp := mk_dict_node _ c p None None).
  assert (Hk : key_of tmp = MakeKey p c) by reflexivity.
  destruct (dict_inv_prefix_bound _ _ _ Hd Hm) as (Hpm & Hsm & _).
  assert (Hstop : (key_of tmp < key_of nm /\ left nm = None) \/
                  (key_of nm < key_of tmp /\ right nm = None)).
  { destruct (find_loop_stops _ _ _ _ _ Hfind) as (nm' & Hm' & Hst).
    rewrite Hm in Hm'. injection Hm' as <-. rewrite Hk.
    destruct Hst as [Heq | Hst]; [| exact Hst].
    exfalso. apply Hnovel. unfold key_of in Heq.
    apply MakeKey_inj in Heq; [tauto | | | |]; lia. }
  assert (Hfresh : left tmp = None /\ right tmp = None) by (split; reflexivity).
  pose proof (attach_length h m nm tmp) as Hlen.
  split.
  - apply attach_ptrs_ok; [apply (di_ptrs h Hd) | assumption | assumption].
  - intros i n Hi. pose proof (lookup_lt_Some _ _ _ Hi) as Hilt. rewrite Hlen in Hilt.
    destruct (decide (i = length h)) as [-> | Hne].
    + rewrite attach_lookup_new in Hi by assumption. injection Hi as <-.
      unfold entry_ok, tmp. simpl. lia.
    + destruct (lookup_lt_is_Some_2 h i) as [ni Hni]; [lia |].
      destruct (attach_lookup_old h m nm tmp Hm i ni Hni) as (n' & Hn' & E1 & E2 & E3).
      rewrite Hi in Hn'. injection Hn' as <-.
      destruct (di_entry h Hd _ _ Hni) as (? & ? & ?).
      unfold entry_ok. rewrite E1, E2, E3. auto.
  - rewrite Hlen. lia.
  - intros j n Hj. pose proof (lookup_lt_Some _ _ _ Hj) as Hjlt. rewrite Hlen in Hjlt.
    rewrite Hlen.
    destruct (decide (j = length h)) as [-> | Hne].
    + rewrite attach_lookup_new in Hj by assumption. injection Hj as <-.
      apply attach_find_new; assumption.
    + destruct (lookup_lt_is_Some_2 h j) as [nj Hnj]; [lia |].
      destruct (attach_lookup_old h m nm tmp Hm j nj Hnj) as (n' & Hn' & E1 & E2 & E3).
      rewrite Hj in Hn'. injection Hn' as <-.
      assert (Ekey : key_of n = key_of nj) by (unfold key_of; rewrite E2, E3; reflexivity).
      rewrite Ekey.
      apply find_loop_fuel_mono with (fuel := length h); [| lia].
      apply attach_find_old; try assumption.
      apply (di_find h Hd). exact Hnj.
Qed.

Lemma dictionary_attach (h : list dict_node_t) (m : nat) (nm tmp : dict_node_t) :
  h !! m = Some nm ->
  dictionary (attach h m nm tmp) = dictionary h ++ [entry_of tmp].
Proof.
  intros Hm. unfold dictionary.
  assert (E : forall x, entry_of x = entry_of nm ->
              map entry_of (<[m := x]> (h ++ [tmp])) = map entry_of h ++ [entry_of tmp]).
  { intros x Hx. rewrite list_fmap_insert, Hx, map_app. simpl.
    apply list_insert_id. apply lookup_app_l_Some.
    change (map entry_of h !! m = Some (entry_of nm)).
    rewrite list_lookup_fmap, Hm. reflexivity. }
  unfold attach. destruct (key_of tmp <? key_of nm); apply E; reflexivity.
Qed.

(** ** The invariant of the main loop *)

Lemma FIRST_CODE_val : FIRST_CODE = 256.
Proof. reflexivity. Qed.

Lemma MAX_CODES_val : MAX_CODES = 1048576.
Proof. reflexivity. Qed.

Lemma UINT_MOD_val : UINT_MOD = 4294967296.
Proof. reflexivity. Qed.

Lemma UCHAR_MOD_val : UCHAR_MOD = 256.
Proof. reflexivity. Qed.

Lemma add_entry_room (st : encoder) (m : nat) (nm : dict_node_t) (c : Z) :
  nextCode st < MAX_CODES -> 0 <= c < 256 ->
  add_entry st m nm c =
    mk_encoder (code st) (currentCodeLen st) ((nextCode st + 1) mod UINT_MOD)
      (dictRoot st)
      (attach (heap st) m nm (mk_dict_node (nextCode st) c (code st) None None))
      (bfpOut st) (stderr st).
Proof.
  intros Hroom Hc. unfold add_entry, MakeNode, attach, key_of.
  rewrite (proj2 (Z.ltb_lt _ _) Hroom).
  rewrite UCHAR_MOD_val, (Z.mod_small c) by lia.
  cbn [prefixCode suffixChar].
  destruct (MakeKey (code st) c <? MakeKey (prefixCode nm) (suffixChar nm)); reflexivity.
Qed.

Lemma add_entry_full (st : encoder) (m : nat) (nm : dict_node_t) (c : Z) :
  MAX_CODES <= nextCode st ->
  add_entry st m nm c = fprintf_stderr st dictionary_full_msg.
Proof.
  intros Hfull. unfold add_entry. rewrite (proj2 (Z.ltb_ge _ _) Hfull). reflexivity.
Qed.

(* The search of the main loop on an invariant state with a root. *)
Lemma loop_lookup (st : encoder) (c : Z) :
  inv st -> heap st <> [] -> 0 <= c < 256 ->
  exists m nm,
    FindDictionaryEntry (heap st) (dictRoot st) (code st) c = Ok (Some m) /\
    find_loop (length (heap st)) (heap st) 0 (MakeKey (code st) c) = Ok m /\
    heap st !! m = Some nm.
Proof.
  intros Hinv Hne Hc.
  pose proof (inv_dict st Hinv) as Hd.
  pose proof (inv_code st Hinv) as Hcode. pose proof (inv_next st Hinv) as Hnext.
  pose proof (di_size _ Hd) as Hsize.
  rewrite MAX_CODES_val in Hsize.
  unfold FindDictionaryEntry. rewrite (inv_root st Hinv).
  destruct (heap st) as [|n0 h0] eqn:Eh; [contradiction |]. rewrite <- Eh in *.
  rewrite UINT_MOD_val, UCHAR_MOD_val.
  rewrite (Z.mod_small (code st)), (Z.mod_small c) by lia.
  destruct (find_loop_total (length (heap st)) (heap st) 0 (MakeKey (code st) c))
    as [m Hm]; [apply (di_ptrs _ Hd) | rewrite Eh; simpl; lia | lia |].
  destruct (find_loop_stops _ _ _ _ _ Hm) as (nm & Hnm & _).
  exists m, nm. rewrite Hm. auto.
Qed.

Lemma elem_of_lookup_node (h : list dict_node_t) (i : nat) (n : dict_node_t) :
  h !! i = Some n -> n ∈ h.
Proof. intros H. apply list_elem_of_lookup. eauto. Qed.

(* No other node carries the pair when the node found does not. *)
Lemma not_found_novel (h : list dict_node_t) (m : nat) (nm : dict_node_t) (p c : Z) :
  dict_inv h ->
  find_loop (length h) h 0 (MakeKey p c) = Ok m -> h !! m = Some nm ->
  ~ (prefixCode nm = p /\ suffixChar nm = c) ->
  forall n, n ∈ h -> ~ (prefixCode n = p /\ suffixChar n = c).
Proof.
  intros Hd Hfind Hm Hno n Hin [Hp Hs].
  apply list_elem_of_lookup in Hin. destruct Hin as [j Hj].
  pose proof (di_find h Hd _ _ Hj) as Fj. unfold key_of in Fj.
  rewrite Hp, Hs, Hfind in Fj. injection Fj as ->.
  rewrite Hm in Hj. injection Hj as ->. tauto.
Qed.

Lemma out_bound_snoc (out esc : list code_word) (v w : Z) :
  (forall i x u, out !! i = Some (x, u) -> 0 <= x < FIRST_CODE + Z.of_nat i) ->
  Forall (fun e : code_word => 0 <= e.1 <= v) esc ->
  0 <= v < FIRST_CODE + Z.of_nat (length out) ->
  forall i x u, (out ++ esc ++ [(v, w)]) !! i = Some (x, u) ->
    0 <= x < FIRST_CODE + Z.of_nat i.
Proof.
  intros Hold Hesc Hv i x u Hi.
  destruct (decide (i < length out)%nat) as [Hlt | Hge].
  - rewrite lookup_app_l in Hi by assumption. eauto.
  - rewrite lookup_app_r in Hi by lia.
    assert (Hx : 0 <= x <= v).
    { destruct (decide (i - length out < length esc)%nat) as [Hlt | Hge2].
      - rewrite lookup_app_l in Hi by assumption.
        apply (Forall_lookup_1 _ _ _ _ Hesc Hi).
      - rewrite lookup_app_r in Hi by lia.
        destruct (i - length out - length esc)%nat; simpl in Hi; [| discriminate].
        injection Hi as <- <-. lia. }
    lia.
Qed.

Lemma assigned_snoc (out esc : list code_word) (v w next next' : Z) :
  Forall (fun e : code_word => e.1 < next) out ->
  Forall (fun e : code_word => 0 <= e.1 <= v) esc ->
  v < next -> next <= next' ->
  Forall (fun e : code_word => e.1 < next') ((out ++ esc) ++ [(v, w)]).
Proof.
  intros Hout Hesc Hv Hle. rewrite !Forall_app. repeat split.
  - eapply Forall_impl; [exact Hout |]. simpl. intros; lia.
  - eapply Forall_impl; [exact Hesc |]. simpl. intros; lia.
  - repeat constructor. simpl. lia.
Qed.

Lemma attach_not_nil (h : list dict_node_t) (m : nat) (nm tmp : dict_node_t) :
  match attach h m nm tmp with [] => None | _ :: _ => Some 0%nat end = Some 0%nat.
Proof.
  pose proof (attach_length h m nm tmp) as Hlen.
  destruct (attach h m nm tmp); [discriminate Hlen | reflexivity].
Qed.

(* One turn of the main loop keeps the invariant, returns without fault,
   and does what [body_spec] says. *)
Lemma loop_body_spec (st : encoder) (c : Z) :
  inv st -> heap st <> [] -> 0 <= c < 256 ->
  exists st', loop_body st c = Ok st' /\ inv st' /\ heap st' <> [] /\
              body_spec st c st'.
Proof.
  intros Hinv Hne Hc.
  destruct (loop_lookup st c Hinv Hne Hc) as (m & nm & Hfde & Hfind & Hm).
  pose proof (inv_dict st Hinv) as Hd.
  pose proof (inv_code st Hinv) as Hcode. pose proof (inv_next st Hinv) as Hnext.
  pose proof (inv_len st Hinv) as Hlen. pose proof (inv_out_len st Hinv) as Holen.
  pose proof (inv_root st Hinv) as Hroot.
  pose proof (di_size _ Hd) as Hsize.
  destruct (dict_inv_prefix_bound _ _ _ Hd Hm) as (Hpm & Hsm & Hcm).
  destruct (di_entry _ Hd _ _ Hm) as (Hcw & _ & _).
  pose proof FIRST_CODE_val as HFC. pose proof MAX_CODES_val as HMC.
  pose proof UINT_MOD_val as HUM.
  unfold loop_body. rewrite Hfde. cbn [rbind]. rewrite Hm.
  destruct ((prefixCode nm =? code st) && (suffixChar nm =? c)) eqn:Ematch.
  - (* the string is in the dictionary *)
    apply andb_true_iff in Ematch. destruct Ematch as [Ep Es].
    apply Z.eqb_eq in Ep, Es.
    eexists. split; [reflexivity |]. split; [| split; [exact Hne |]].
    + destruct Hinv. unfold set_code.
      split; cbn [code currentCodeLen nextCode dictRoot heap bfpOut]; auto.
      lia.
    + eapply body_match; eauto using elem_of_lookup_node.
  - (* a new string *)
    assert (Hnovel : ~ (prefixCode nm = code st /\ suffixChar nm = c)).
    { intros [Ep Es]. rewrite Ep, Es, !Z.eqb_refl in Ematch. discriminate. }
    pose proof (not_found_novel _ _ _ _ _ Hd Hfind Hm Hnovel) as Hnone.
    destruct (Z.ltb_spec (nextCode st) MAX_CODES) as [Hroom | Hfull].
    + (* room in the dictionary *)
      rewrite add_entry_room by assumption.
      set (tmp := mk_dict_node (nextCode st) c (code st) None None).
      set (st1 := mk_encoder _ _ _ _ _ _ _).
      destruct (width_loop_spec (Z.to_nat (MAX_CODE_LEN - currentCodeLen st1)) st1)
        as (k & Hrun & Hk & Hfit & Hesc); [subst st1; simpl; lia | lia |].
      rewrite Hrun. cbn [rbind]. subst st1.
      cbn [code currentCodeLen nextCode dictRoot heap bfpOut stderr] in *.
      unfold set_code, PutCodeWord.
      cbn [code currentCodeLen nextCode dictRoot heap bfpOut stderr].
      rewrite (Z.mod_small (nextCode st + 1)) by lia.
      eexists. split; [reflexivity |].
      assert (Hd' : dict_inv (attach (heap st) m nm tmp)).
      { subst tmp. rewrite Hnext. apply dict_inv_attach; auto; lia. }
      split; [| split].
      * split; cbn [code currentCodeLen nextCode dictRoot heap bfpOut stderr].
        -- exact Hd'.
        -- rewrite attach_not_nil, Hroot. destruct (heap st); [contradiction | reflexivity].
        -- rewrite attach_length. lia.
        -- lia.
        -- rewrite <- app_assoc.
           eapply width_trace_app; [apply (inv_widths st Hinv) |].
           eapply width_trace_app; [apply width_trace_escapes; exact Hk |].
           apply wt_keep, wt_done.
        -- pose proof (Nat2Z.is_nonneg k). lia.
        -- rewrite <- app_assoc. apply out_bound_snoc;
             [apply (inv_out st Hinv) | exact Hesc | lia].
        -- rewrite attach_length, !length_app. simpl. lia.
        -- apply assigned_snoc with (next := nextCode st);
             [apply (inv_assigned st Hinv) | exact Hesc | lia | lia].
      * cbn [heap]. intros E. pose proof (attach_length (heap st) m nm tmp) as L.
        rewrite E in L. discriminate L.
      * apply body_novel with (k := k);
          cbn [code currentCodeLen nextCode dictRoot heap bfpOut stderr]; auto.
        -- rewrite (proj2 (Z.ltb_lt _ _)) by lia.
           split; [| auto]. apply dictionary_attach. exact Hm.
        -- rewrite <- app_assoc. reflexivity.
    + (* dictionary full *)
      rewrite add_entry_full by assumption.
      set (st1 := fprintf_stderr st _).
      destruct (width_loop_spec (Z.to_nat (MAX_CODE_LEN - currentCodeLen st1)) st1)
        as (k & Hrun & Hk & Hfit & Hesc); [subst st1; simpl; lia | lia |].
      rewrite Hrun. cbn [rbind]. subst st1.
      unfold fprintf_stderr in *.
      cbn [code currentCodeLen nextCode dictRoot heap bfpOut stderr] in *.
      unfold set_code, PutCodeWord.
      cbn [code currentCodeLen nextCode dictRoot heap bfpOut stderr].
      eexists. split; [reflexivity |].
      split; [| split].
      * split; cbn [code currentCodeLen nextCode dictRoot heap bfpOut stderr]; auto.
        -- lia.
        -- rewrite <- app_assoc.
           eapply width_trace_app; [apply (inv_widths st Hinv) |].
           eapply width_trace_app; [apply width_trace_escapes; exact Hk |].
           apply wt_keep, wt_done.
        -- pose proof (Nat2Z.is_nonneg k). lia.
        -- rewrite <- app_assoc. apply out_bound_snoc;
             [apply (inv_out st Hinv) | exact Hesc | lia].
        -- rewrite !length_app. simpl. lia.
        -- apply assigned_snoc with (next := nextCode st);
             [apply (inv_assigned st Hinv) | exact Hesc | lia | lia].
      * exact Hne.
      * apply body_novel with (k := k);
          cbn [code currentCodeLen nextCode dictRoot heap bfpOut stderr]; auto.
        -- rewrite (proj2 (Z.ltb_ge _ _)) by assumption. auto.
        -- rewrite <- app_assoc. reflexivity.
Qed.

(** ** Whole runs *)

Lemma byte_range (b : Byte.byte) : 0 <= Z.of_N (Byte.to_N b) < 256.
Proof. pose proof (Byte.to_N_bounded b). lia. Qed.

Lemma inv_init : inv init_encoder.
Proof.
  split; simpl; try (intros ? ? ? H; discriminate H); auto.
  - apply dict_inv_nil.
  - rewrite FIRST_CODE_val. lia.
  - constructor.
  - unfold MAX_CODE_LEN. lia.
Qed.

Lemma inv_first_byte (c : Z) : 0 <= c < 256 -> inv (set_code init_encoder c).
Proof.
  intros Hc. destruct inv_init. split; simpl in *; auto.
Qed.

Lemma seed_first_two (c1 c2 : Z) :
  0 <= c2 < 256 ->
  seed (set_code init_encoder c1) c2 =
    mk_encoder c2 9 257 (Some 0%nat) [mk_dict_node 256 c2 c1 None None] [(c1, 9)] [].
Proof.
  intros H2. unfold seed, MakeNode. rewrite UCHAR_MOD_val, (Z.mod_small c2) by lia.
  reflexivity.
Qed.

Lemma inv_seed (c1 c2 : Z) :
  0 <= c1 < 256 -> 0 <= c2 < 256 ->
  inv (seed (set_code init_encoder c1) c2) /\
  heap (seed (set_code init_encoder c1) c2) <> [] /\
  dictionary (heap (seed (set_code init_encoder c1) c2)) = [(FIRST_CODE, c1, c2)] /\
  bfpOut (seed (set_code init_encoder c1) c2) = [(c1, 9)].
Proof.
  intros H1 H2. rewrite seed_first_two by assumption.
  cbn [code currentCodeLen nextCode dictRoot heap bfpOut stderr].
  split; [| split; [discriminate | split; reflexivity]].
  split; cbn [code currentCodeLen nextCode dictRoot heap bfpOut stderr length].
  - apply (dict_inv_seed c1 c2); assumption.
  - reflexivity.
  - reflexivity.
  - lia.
  - apply wt_keep, wt_done.
  - unfold MAX_CODE_LEN. lia.
  - intros [|i] v w Hi; [| destruct i; discriminate Hi].
    injection Hi as <- <-. rewrite FIRST_CODE_val. lia.
  - simpl. lia.
  - repeat constructor. simpl. lia.
Qed.

(* The three shapes of the prologue: no byte, one byte, two bytes or more. *)
Lemma prologue_one (b : Byte.byte) :
  prologue [b] = Some (set_code init_encoder (Z.of_N (Byte.to_N b)), []).
Proof.
  pose proof (byte_range b) as H. unfold prologue, fgetc.
  destruct (Z.eqb_spec (Z.of_N (Byte.to_N b)) EOF) as [E | _];
    [unfold EOF in E; lia | reflexivity].
Qed.

Lemma prologue_two_more (b1 b2 : Byte.byte) (rest : list Byte.byte) :
  prologue (b1 :: b2 :: rest) =
    Some (seed (set_code init_encoder (Z.of_N (Byte.to_N b1))) (Z.of_N (Byte.to_N b2)),
          rest).
Proof.
  pose proof (byte_range b1) as H1. pose proof (byte_range b2) as H2.
  unfold prologue, fgetc.
  destruct (Z.eqb_spec (Z.of_N (Byte.to_N b1)) EOF) as [E | _]; [unfold EOF in E; lia |].
  destruct (Z.eqb_spec (Z.of_N (Byte.to_N b2)) EOF) as [E | _]; [unfold EOF in E; lia |].
  reflexivity.
Qed.

(* The state in which the main loop starts. *)
Lemma prologue_spec (fpIn : list Byte.byte) :
  match prologue fpIn with
  | None => fpIn = []
  | Some (st, rest) =>
      inv st /\ (rest = [] \/ heap st <> []) /\ (length fpIn <= length rest + 2)%nat /\
      fpIn <> []
  end.
Proof.
  destruct fpIn as [|b1 [|b2 rest]]; [reflexivity | |].
  - rewrite prologue_one.
    split; [apply inv_first_byte, byte_range |]. split; [left; reflexivity |].
    split; [simpl; lia | discriminate].
  - rewrite prologue_two_more.
    destruct (inv_seed _ _ (byte_range b1) (byte_range b2)) as (Hi & Hne & _).
    split; [exact Hi |]. split; [right; exact Hne |]. split; [simpl; lia | discriminate].
Qed.

(* The main loop returns, keeps the invariant, and every call of the
   search happens in an invariant state whose dictionary has a root. *)
Lemma encode_loop_spec (rest : list Byte.byte) (st : encoder) :
  inv st -> rest = [] \/ heap st <> [] ->
  exists st', encode_loop rest st = Ok st' /\ inv st' /\
    Forall (fun sc : encoder * Z =>
              inv sc.1 /\ heap sc.1 <> [] /\ 0 <= sc.2 < 256 /\
              exists s', loop_body sc.1 sc.2 = Ok s' /\ body_spec sc.1 sc.2 s')
           (loop_calls rest st) /\
    length (loop_calls rest st) = length rest.
Proof.
  revert st. induction rest as [|b rest IH]; intros st Hinv Hne.
  - exists st. simpl. auto.
  - destruct Hne as [Hne | Hne]; [discriminate |].
    destruct (loop_body_spec st _ Hinv Hne (byte_range b)) as (st1 & Hrun & Hinv1 & Hne1 & Hspec).
    destruct (IH st1 Hinv1 (or_intror Hne1)) as (st' & Hloop & Hinv' & Hall & Hlen).
    exists st'. simpl. rewrite Hrun. cbn [rbind].
    split; [exact Hloop |]. split; [exact Hinv' |]. split.
    + constructor; [| exact Hall]. simpl.
      split; [exact Hinv |]. split; [exact Hne |]. split; [apply byte_range |].
      exists st1. auto.
    + simpl. rewrite Hlen. reflexivity.
Qed.

(* The trailing emission keeps the invariant. *)
Lemma inv_final (st : encoder) :
  inv st -> inv (PutCodeWord st (code st) (currentCodeLen st)).
Proof.
  intros Hinv. pose proof (inv_code st Hinv). pose proof (inv_next st Hinv).
  pose proof (inv_out_len st Hinv).
  destruct Hinv. unfold PutCodeWord.
  split; cbn [code currentCodeLen nextCode dictRoot heap bfpOut stderr]; auto.
  - eapply width_trace_app; [eassumption |]. apply wt_keep, wt_done.
  - rewrite <- (app_nil_l [(code st, currentCodeLen st)]).
    apply out_bound_snoc; [assumption | constructor | lia].
  - rewrite length_app. simpl. lia.
  - rewrite Forall_app. split; [assumption |]. repeat constructor. simpl. lia.
Qed.

(* Every run returns: [FALSE] on an empty file and [TRUE] otherwise, in a
   state that satisfies the invariant. *)
Lemma LZWEncodeFile_spec (fpIn : list Byte.byte) :
  exists r st, LZWEncodeFile fpIn = Ok (r, st) /\ inv st /\
    (r = false <-> fpIn = []) /\
    (r = false -> st = init_encoder) /\
    Forall (fun sc : encoder * Z =>
              inv sc.1 /\ heap sc.1 <> [] /\ 0 <= sc.2 < 256 /\
              exists s', loop_body sc.1 sc.2 = Ok s' /\ body_spec sc.1 sc.2 s')
           (lookups fpIn) /\
    (length fpIn <= length (lookups fpIn) + 2)%nat.
Proof.
  pose proof (prologue_spec fpIn) as Hpro. unfold LZWEncodeFile, lookups.
  destruct (prologue fpIn) as [[st0 rest] |].
  - destruct Hpro as (Hinv & Hne & Hlen & Hnn).
    destruct (encode_loop_spec rest st0 Hinv Hne) as (st' & Hloop & Hinv' & Hall & Hl).
    rewrite Hloop. cbn [rbind]. eexists _, _. split; [reflexivity |].
    split; [apply inv_final; exact Hinv' |].
    split; [split; [discriminate | intros ->; contradiction] |].
    split; [discriminate |]. split; [exact Hall | lia].
  - subst fpIn. exists false, init_encoder.
    split; [reflexivity |]. split; [apply inv_init |].
    split; [tauto |]. split; [reflexivity |]. split; [constructor | simpl; lia].
Qed.

Lemma body_spec_width_step (st : encoder) (c : Z) (st' : encoder) :
  inv st' -> body_spec st c st' -> width_step st st'.
Proof.
  intros Hinv' [n _ _ _ -> | k _ _ _ Hlen Hout _ _ _].
  - exists 0%nat, []. simpl. pose proof (inv_len _ Hinv') as H. simpl in H.
    repeat split; [lia | lia | rewrite app_nil_r; reflexivity | constructor].
  - exists k, [(code st, currentCodeLen st')].
    pose proof (inv_len _ Hinv'). repeat split; [assumption | lia | assumption |].
    repeat constructor.
Qed.

Lemma body_spec_assigns (st : encoder) (c : Z) (st' : encoder) :
  body_spec st c st' -> assigns st c st'.
Proof.
  intros [n Hin Hp Hs -> | k Hnone Hdict _ _ _ _ _ _]; split.
  - intros _. split; reflexivity.
  - intros Hnone _. exfalso. apply (Hnone n Hin). auto.
  - intros (n & Hin & Hp & Hs). exfalso. apply (Hnone n Hin). auto.
  - intros _ Hroom. rewrite (proj2 (Z.ltb_lt _ _) Hroom) in Hdict. tauto.
Qed.

Lemma inv_codes_count_up (st : encoder) :
  inv st -> counts_up_from FIRST_CODE (map codeWord (heap st)).
Proof.
  intros Hinv i v Hi. rewrite list_lookup_fmap in Hi.
  destruct (heap st !! i) as [n|] eqn:En; [| discriminate].
  injection Hi as <-.
  destruct (di_entry _ (inv_dict st Hinv) _ _ En) as (E & _). exact E.
Qed.

(* A turn of the main loop with a full dictionary, for a string that the
   search did not find: nothing is added, the diagnostic is printed, the
   code of the string read so far is written and the loop goes on with the
   character as the new string. *)
Lemma loop_body_full (st : encoder) (c : Z) (m : nat) (nm : dict_node_t) :
  MAX_CODES <= nextCode st ->
  0 <= currentCodeLen st <= MAX_CODE_LEN ->
  FindDictionaryEntry (heap st) (dictRoot st) (code st) c = Ok (Some m) ->
  heap st !! m = Some nm ->
  ~ (prefixCode nm = code st /\ suffixChar nm = c) ->
  exists st' k,
    loop_body st c = Ok st' /\
    heap st' = heap st /\ dictRoot st' = dictRoot st /\ nextCode st' = nextCode st /\
    stderr st' = stderr st ++ [dictionary_full_msg] /\
    bfpOut st' =
      bfpOut st ++ escapes (currentCodeLen st) k ++ [(code st, currentCodeLen st')] /\
    code st' = c.
Proof.
  intros Hfull Hlen Hfde Hm Hnovel.
  unfold loop_body. rewrite Hfde. cbn [rbind]. rewrite Hm.
  destruct ((prefixCode nm =? code st) && (suffixChar nm =? c)) eqn:Ematch.
  { apply andb_true_iff in Ematch. destruct Ematch as [Ep Es].
    apply Z.eqb_eq in Ep, Es. tauto. }
  rewrite add_entry_full by assumption.
  set (st1 := fprintf_stderr st _).
  destruct (width_loop_spec (Z.to_nat (MAX_CODE_LEN - currentCodeLen st1)) st1)
    as (k & Hrun & Hk & Hfit & Hesc); [exact Hlen | lia |].
  rewrite Hrun. cbn [rbind]. subst st1. unfold fprintf_stderr, set_code, PutCodeWord.
  cbn [code currentCodeLen nextCode dictRoot heap bfpOut stderr].
  eexists _, k. split; [reflexivity |].
  cbn [code currentCodeLen nextCode dictRoot heap bfpOut stderr].
  rewrite <- app_assoc. repeat split.
Qed.

(** ** A long run of one byte *)

Lemma chain_S (k : nat) :
  chain (S k) = chain k ++ [(FIRST_CODE + Z.of_nat k, chain_prefix k, 65)].
Proof. unfold chain. rewrite seq_S, map_app. reflexivity. Qed.

Lemma chain_lookup (k j : nat) :
  (j < k)%nat ->
  chain k !! j = Some (FIRST_CODE + Z.of_nat j, chain_prefix j, 65).
Proof.
  intros Hlt. unfold chain. rewrite list_lookup_fmap, lookup_seq_lt by assumption.
  reflexivity.
Qed.

Lemma chain_length (k : nat) : length (chain k) = k.
Proof. unfold chain. rewrite length_map, length_seq. reflexivity. Qed.

Lemma chain_prefix_inj (i j : nat) : chain_prefix i = chain_prefix j -> i = j.
Proof.
  pose proof FIRST_CODE_val. destruct i, j; unfold chain_prefix; intros E; lia.
Qed.

Lemma chain_node (st : encoder) (k : nat) (n : dict_node_t) :
  dictionary (heap st) = chain k -> n ∈ heap st ->
  exists j, (j < k)%nat /\ codeWord n = FIRST_CODE + Z.of_nat j /\
            prefixCode n = chain_prefix j /\ suffixChar n = 65.
Proof.
  intros Hd Hin. apply list_elem_of_lookup in Hin. destruct Hin as [j Hj].
  assert (Hlk : dictionary (heap st) !! j = Some (entry_of n)).
  { unfold dictionary. change (map entry_of (heap st)) with (entry_of <$> heap st).
    rewrite list_lookup_fmap, Hj. reflexivity. }
  rewrite Hd in Hlk. pose proof (lookup_lt_Some _ _ _ Hlk) as Hlt.
  rewrite chain_length in Hlt. rewrite chain_lookup in Hlk by assumption.
  injection Hlk as E1 E2 E3. exists j. auto.
Qed.

Lemma chain_has (st : encoder) (k j : nat) :
  dictionary (heap st) = chain k -> (j < k)%nat ->
  exists n, n ∈ heap st /\ codeWord n = FIRST_CODE + Z.of_nat j /\
            prefixCode n = chain_prefix j /\ suffixChar n = 65.
Proof.
  intros Hd Hlt.
  assert (Hlen : length (heap st) = k).
  { rewrite <- (chain_length k), <- Hd. unfold dictionary. rewrite length_map. reflexivity. }
  destruct (lookup_lt_is_Some_2 (heap st) j) as [n Hn]; [lia |].
  exists n. split; [eapply elem_of_lookup_node; eassumption |].
  assert (Hlk : dictionary (heap st) !! j = Some (entry_of n)).
  { unfold dictionary. change (map entry_of (heap st)) with (entry_of <$> heap st).
    rewrite list_lookup_fmap, Hn. reflexivity. }
  rewrite Hd, chain_lookup in Hlk by assumption. injection Hlk as E1 E2 E3. auto.
Qed.

(* One more A extends the string read so far when the longer string is
   in the dictionary. *)
Lemma turn_match (k j : nat) (st : encoder) :
  in_round k j st -> (j < k)%nat ->
  exists st', loop_body st 65 = Ok st' /\ in_round k (S j) st'.
Proof.
  intros (Hinv & Hne & Hd & Hcode) Hlt.
  destruct (loop_body_spec st 65 Hinv Hne) as (st' & Hrun & Hinv' & Hne' & Hspec); [lia |].
  exists st'. split; [exact Hrun |].
  destruct Hspec as [n Hin Hp Hs -> | kk Hnone _ _ _ _ _ _ _].
  - destruct (chain_node st k n Hd Hin) as (i & Hi & Hcw & Hpi & _).
    assert (i = j) as -> by (apply chain_prefix_inj; congruence).
    split; [exact Hinv' |]. split; [exact Hne |]. split; [exact Hd |].
    simpl. exact Hcw.
  - exfalso. destruct (chain_has st k j Hd Hlt) as (n & Hin & _ & Hp & Hs).
    apply (Hnone n Hin). split; congruence.
Qed.

(* When the string read so far is the longest one known, one more A makes
   a new entry, as long as there is room. *)
Lemma turn_new (k : nat) (st : encoder) :
  in_round k k st -> FIRST_CODE + Z.of_nat k < MAX_CODES ->
  exists st', loop_body st 65 = Ok st' /\ in_round (S k) 0 st'.
Proof.
  intros (Hinv & Hne & Hd & Hcode) Hroom.
  destruct (loop_body_spec st 65 Hinv Hne) as (st' & Hrun & Hinv' & Hne' & Hspec); [lia |].
  exists st'. split; [exact Hrun |].
  assert (Hlen : length (heap st) = k).
  { rewrite <- (chain_length k), <- Hd. unfold dictionary. rewrite length_map. reflexivity. }
  pose proof (inv_next st Hinv) as Hnext. rewrite Hlen in Hnext.
  destruct Hspec as [n Hin Hp Hs -> | kk Hnone Hdict _ _ _ _ _ Hc].
  - exfalso. destruct (chain_node st k n Hd Hin) as (i & Hi & _ & Hpi & _).
    assert (i = k) by (apply chain_prefix_inj; congruence). lia.
  - rewrite (proj2 (Z.ltb_lt _ _)) in Hdict by lia. destruct Hdict as (Hd' & _).
    split; [exact Hinv' |]. split; [exact Hne' |]. split; [| exact Hc].
    rewrite Hd', Hd, chain_S, Hnext, Hcode. reflexivity.
Qed.

(* With the dictionary full, the same turn writes the last code of the
   dictionary, the all-ones value of the maximum width. *)
Lemma turn_full (k : nat) (st : encoder) :
  in_round k k st -> FIRST_CODE + Z.of_nat k = MAX_CODES ->
  exists st' out, loop_body st 65 = Ok st' /\
    code st = 2 ^ MAX_CODE_LEN - 1 /\
    bfpOut st' = out ++ [(code st, MAX_CODE_LEN)] /\
    code st' = 65 /\ currentCodeLen st' = MAX_CODE_LEN /\
    nextCode st = MAX_CODES /\ heap st' = heap st /\
    stderr st' = stderr st ++ [dictionary_full_msg].
Proof.
  intros (Hinv & Hne & Hd & Hcode) Hfull.
  destruct (loop_body_spec st 65 Hinv Hne) as (st' & Hrun & Hinv' & Hne' & Hspec); [lia |].
  assert (Hk : code st = 2 ^ MAX_CODE_LEN - 1).
  { rewrite Hcode. rewrite FIRST_CODE_val, MAX_CODES_val in Hfull.
    destruct k as [|k']; simpl; [lia |].
    rewrite FIRST_CODE_val. change (2 ^ MAX_CODE_LEN) with 1048576. lia. }
  assert (Hnext : nextCode st = MAX_CODES).
  { rewrite (inv_next st Hinv), <- Hfull. do 2 f_equal.
    rewrite <- (chain_length k), <- Hd. unfold dictionary. rewrite length_map.
    reflexivity. }
  destruct Hspec as [n Hin Hp Hs -> | kk Hnone Hdict _ Hlen Hout _ Hfit Hc].
  - exfalso. destruct (chain_node st k n Hd Hin) as (i & Hi & _ & Hpi & _).
    assert (i = k) by (apply chain_prefix_inj; congruence). lia.
  - assert (Hw : currentCodeLen st' = MAX_CODE_LEN).
    { destruct Hfit as [Hfit | Hfit]; [| exact Hfit].
      exfalso. pose proof (inv_len st' Hinv') as Hl.
      assert (2 ^ currentCodeLen st' <= 2 ^ MAX_CODE_LEN)
        by (apply Z.pow_le_mono_r; lia).
      lia. }
    rewrite (proj2 (Z.ltb_ge _ _)) in Hdict by lia. destruct Hdict as (Eh & _ & Ee).
    exists st', (bfpOut st ++ escapes (currentCodeLen st) kk).
    split; [exact Hrun |]. split; [exact Hk |].
    split; [rewrite Hout, Hw, app_assoc; reflexivity |].
    split; [exact Hc |]. split; [exact Hw |]. split; [exact Hnext |].
    split; [exact Eh | exact Ee].
Qed.

Lemma encode_loop_app (l1 l2 : list Byte.byte) (st st1 : encoder) :
  encode_loop l1 st = Ok st1 -> encode_loop (l1 ++ l2) st = encode_loop l2 st1.
Proof.
  revert st. induction l1 as [|b l1 IH]; intros st H; simpl in *.
  - injection H as ->. reflexivity.
  - destruct (loop_body st (Z.of_N (Byte.to_N b))) as [s|f]; [| discriminate H].
    cbn [rbind] in *. apply IH. exact H.
Qed.

Lemma loop_calls_app (l1 l2 : list Byte.byte) (st st1 : encoder) :
  encode_loop l1 st = Ok st1 ->
  loop_calls (l1 ++ l2) st = loop_calls l1 st ++ loop_calls l2 st1.
Proof.
  revert st. induction l1 as [|b l1 IH]; intros st H; simpl in *.
  - injection H as ->. reflexivity.
  - destruct (loop_body st (Z.of_N (Byte.to_N b))) as [s|f]; [| discriminate H].
    cbn [rbind] in *. f_equal. apply IH. exact H.
Qed.

Lemma repeat_snoc (b : Byte.byte) (d : nat) : repeat b (d + 1) = repeat b d ++ [b].
Proof. rewrite repeat_app. reflexivity. Qed.

(* The A's that are matched until the longest known string is reached. *)
Lemma run_matches (d k j : nat) (st : encoder) :
  in_round k j st -> (j + d = k)%nat ->
  exists st', encode_loop (repeat x41 d) st = Ok st' /\ in_round k k st'.
Proof.
  revert j st. induction d as [|d IH]; intros j st Hr Hjd.
  - exists st. assert (j = k) as -> by lia. split; [reflexivity | exact Hr].
  - destruct (turn_match k j st Hr) as (st1 & Hrun & Hr1); [lia |].
    destruct (IH (S j) st1 Hr1) as (st' & Hloop & Hr'); [lia |].
    exists st'. split; [| exact Hr'].
    simpl. change (Z.of_N (Byte.to_N x41)) with 65. rewrite Hrun. exact Hloop.
Qed.

(* One round: the [k] matches and the A that makes entry [k + 1]. *)
Lemma run_round (k : nat) (st : encoder) :
  in_round k 0 st -> FIRST_CODE + Z.of_nat k < MAX_CODES ->
  exists st', encode_loop (repeat x41 (k + 1)) st = Ok st' /\ in_round (S k) 0 st'.
Proof.
  intros Hr Hroom.
  destruct (run_matches k k 0 st Hr) as (st1 & Hloop & Hr1); [lia |].
  destruct (turn_new k st1 Hr1 Hroom) as (st' & Hrun & Hr').
  exists st'. split; [| exact Hr'].
  rewrite repeat_snoc, (encode_loop_app _ _ _ _ Hloop). simpl.
  change (Z.of_N (Byte.to_N x41)) with 65. rewrite Hrun. reflexivity.
Qed.

Lemma run_rounds (k : nat) (st : encoder) :
  in_round 1 0 st -> FIRST_CODE + Z.of_nat (S k) <= MAX_CODES ->
  exists st', encode_loop (repeat x41 (rounds k)) st = Ok st' /\ in_round (S k) 0 st'.
Proof.
  intros Hr. induction k as [|k IH]; intros Hroom.
  - exists st. split; [reflexivity | exact Hr].
  - destruct IH as (st1 & Hloop & Hr1); [lia |].
    destruct (run_round (S k) st1 Hr1) as (st' & Hloop' & Hr'); [lia |].
    exists st'. split; [| exact Hr'].
    cbn [rounds]. rewrite repeat_app, (encode_loop_app _ _ _ _ Hloop).
    replace (k + 2)%nat with (S k + 1)%nat by lia. exact Hloop'.
Qed.

Lemma lookups_two_more (b1 b2 : Byte.byte) (rest : list Byte.byte) :
  lookups (b1 :: b2 :: rest) =
  loop_calls rest (seed (set_code init_encoder (Z.of_N (Byte.to_N b1)))
                     (Z.of_N (Byte.to_N b2))).
Proof. unfold lookups. rewrite prologue_two_more. reflexivity. Qed.

Lemma LZWEncodeFile_two_more (b1 b2 : Byte.byte) (rest : list Byte.byte) (st : encoder) :
  encode_loop rest (seed (set_code init_encoder (Z.of_N (Byte.to_N b1)))
                      (Z.of_N (Byte.to_N b2))) = Ok st ->
  LZWEncodeFile (b1 :: b2 :: rest) =
    Ok (true, PutCodeWord st (code st) (currentCodeLen st)).
Proof.
  intros Hloop. unfold LZWEncodeFile. rewrite prologue_two_more, Hloop. reflexivity.
Qed.

(* A file of A's long enough to fill a dictionary with room for [n]
   entries: the last turn of the main loop writes the code [2^20 - 1] at
   width 20, and the trailing emission follows it. *)
Lemma run_of_As_fills (n : nat) :
  (1 <= n)%nat -> FIRST_CODE + Z.of_nat n = MAX_CODES ->
  exists st st' final out,
    (st, 65) ∈ lookups (repeat x41 (2 + (rounds (n - 1) + (n + 1)))) /\
    loop_body st 65 = Ok st' /\
    code st = 2 ^ MAX_CODE_LEN - 1 /\
    bfpOut st' = out ++ [(code st, MAX_CODE_LEN)] /\
    LZWEncodeFile (repeat x41 (2 + (rounds (n - 1) + (n + 1)))) = Ok (true, final) /\
    bfpOut final = out ++ [(code st, MAX_CODE_LEN); (65, MAX_CODE_LEN)] /\
    nextCode st = MAX_CODES /\ heap st' = heap st /\
    stderr st' = stderr st ++ [dictionary_full_msg].
Proof.
  intros Hn Hfull.
  remember (rounds (n - 1) + (n + 1))%nat as m eqn:Hm.
  cbn [Nat.add repeat]. rewrite lookups_two_more.
  change (Z.of_N (Byte.to_N x41)) with 65.
  set (st0 := seed (set_code init_encoder 65) 65).
  assert (H0 : in_round 1 0 st0).
  { destruct (inv_seed 65 65) as (Hi & Hne & Hd & _); [lia | lia |].
    split; [exact Hi |]. split; [exact Hne |]. split; [exact Hd |].
    subst st0. rewrite seed_first_two by lia. reflexivity. }
  destruct (run_rounds (n - 1) st0 H0) as (st1 & Hloop1 & Hr1); [lia |].
  replace (S (n - 1)) with n in Hr1 by lia.
  destruct (run_matches n n 0 st1 Hr1) as (st2 & Hloop2 & Hr2); [lia |].
  destruct (turn_full n st2 Hr2 Hfull)
    as (st' & out & Hrun & Hcode & Hout & Hc' & Hw' & Hnext & Hheap & Herr).
  assert (Hlast : encode_loop [x41] st2 = Ok st').
  { simpl. change (Z.of_N (Byte.to_N x41)) with 65. rewrite Hrun. reflexivity. }
  assert (Hwhole : encode_loop (repeat x41 m) st0 = Ok st').
  { subst m. rewrite repeat_app, (encode_loop_app _ _ _ _ Hloop1).
    rewrite repeat_snoc, (encode_loop_app _ _ _ _ Hloop2). exact Hlast. }
  exists st2, st', (PutCodeWord st' (code st') (currentCodeLen st')), out.
  split; [| split; [exact Hrun | split; [exact Hcode | split; [exact Hout | split;
    [| split; [| split; [exact Hnext | split; [exact Hheap | exact Herr]]]]]]]].
  - subst m. rewrite repeat_app, (loop_calls_app _ _ _ _ Hloop1).
    rewrite repeat_snoc, (loop_calls_app _ _ _ _ Hloop2).
    rewrite !elem_of_app. right. right. simpl.
    change (Z.of_N (Byte.to_N x41)) with 65. apply list_elem_of_here.
  - apply (LZWEncodeFile_two_more x41 x41). exact Hwhole.
  - unfold PutCodeWord. cbn [bfpOut]. rewrite Hout, Hc', Hw', <- app_assoc. reflexivity.
Qed.

Lemma dictionary_room_full :
  (1 <= dictionary_room)%nat /\ FIRST_CODE + Z.of_nat dictionary_room = MAX_CODES.
Proof.
  unfold dictionary_room. rewrite Z2Nat.id; rewrite MAX_CODES_val, FIRST_CODE_val; lia.
Qed.

Lemma escapes_lookup (w : Z) (k i : nat) :
  (i < k)%nat -> escapes w k !! i = Some (2 ^ (w + Z.of_nat i) - 1, w + Z.of_nat i).
Proof.
  revert w i. induction k as [|k IH]; intros w i Hlt; [lia |].
  destruct i as [|i].
  - simpl. rewrite Z.add_0_r. reflexivity.
  - rewrite Nat2Z.inj_succ. cbn [escapes]. rewrite lookup_cons_ne_0 by discriminate.
    cbn [Nat.pred]. rewrite IH by lia.
    replace (w + 1 + Z.of_nat i) with (w + Z.succ (Z.of_nat i)) by lia. reflexivity.
Qed.

Lemma body_spec_checked (st : encoder) (c : Z) (st' : encoder) :
  inv st -> inv st' -> body_spec st c st' -> checked_emission st st'.
Proof.
  intros Hinv Hinv' [n _ _ _ -> | k _ _ _ Hlen Hout Hesc Hfit _]; [left; reflexivity |].
  right. exists k. split; [exact Hlen |]. split; [exact Hout |]. split.
  - intros w Hw.
    pose proof (escapes_lookup (currentCodeLen st) k (Z.to_nat (w - currentCodeLen st))) as E.
    rewrite Z2Nat.id in E by lia.
    replace (currentCodeLen st + (w - currentCodeLen st)) with w in E by lia.
    pose proof (Forall_lookup_1 _ _ _ _ Hesc (E ltac:(lia))) as Hb. simpl in Hb.
    pose proof (inv_len st' Hinv'). split; lia.
  - destruct Hfit as [Hfit | Hfit]; [left; exact Hfit | right].
    split; [exact Hfit |].
    pose proof (inv_code st Hinv). pose proof (inv_next st Hinv) as Hn.
    pose proof (di_size _ (inv_dict st Hinv)). rewrite MAX_CODES_val in *.
    change (2 ^ MAX_CODE_LEN) with 1048576. lia.
Qed.

Lemma body_spec_assigns_capped (st : encoder) (c : Z) (st' : encoder) :
  body_spec st c st' -> assigns_capped st c st'.
Proof.
  intros H. split; [apply body_spec_assigns; exact H |].
  destruct H as [n Hin Hp Hs -> | k Hnone Hdict _ _ _ _ _ _].
  - intros Hnone _. exfalso. apply (Hnone n Hin). auto.
  - intros _ Hfull. rewrite (proj2 (Z.ltb_ge _ _) Hfull) in Hdict.
    destruct Hdict as (-> & -> & _). auto.
Qed.

(* The calls of the search follow the main loop: call [i] is made for byte
   [i] of the input of the loop, in the state left by the turn before, and
   the loop ends in the state left by the last turn. *)
Lemma loop_calls_chain (rest : list Byte.byte) (st st_end : encoder) :
  encode_loop rest st = Ok st_end ->
  (forall s c, loop_calls rest st !! 0%nat = Some (s, c) -> s = st) /\
  (loop_calls rest st = [] -> st_end = st) /\
  forall i s c, loop_calls rest st !! i = Some (s, c) ->
    (exists b, rest !! i = Some b /\ c = Z.of_N (Byte.to_N b)) /\
    exists s', loop_body s c = Ok s' /\
      match loop_calls rest st !! S i with
      | Some (s2, _) => s2 = s'
      | None => st_end = s'
      end.
Proof.
  revert st. induction rest as [|b rest IH]; intros st Hloop.
  - simpl in *. injection Hloop as <-.
    split; [intros s c H; discriminate H |]. split; [reflexivity |].
    intros i s c H. discriminate H.
  - simpl in Hloop.
    destruct (loop_body st (Z.of_N (Byte.to_N b))) as [st1|] eqn:Hrun; [| discriminate Hloop].
    cbn [rbind] in Hloop. destruct (IH st1 Hloop) as (Hfirst & Hnil & Hstep).
    cbn [loop_calls]. rewrite Hrun.
    split; [intros s c H; injection H as <- _; reflexivity |].
    split; [intros H; discriminate H |].
    intros [|i] s c Hi.
    + injection Hi as <- <-. split; [exists b; auto |].
      exists st1. split; [exact Hrun |]. simpl.
      destruct (loop_calls rest st1) as [|[s2 c2] l] eqn:El.
      * simpl. apply Hnil. reflexivity.
      * simpl. apply (Hfirst s2 c2). reflexivity.
    + simpl in Hi. simpl. apply Hstep. exact Hi.
Qed.

(** * The claims *)

(** C1, as stated, fails at the maximum width.  On [run_of_As] the last
    turn of the main loop, with the dictionary full and the string read so
    far equal to the last entry, writes the code [2^20 - 1] at width 20
    after its width check; the run then ends with the trailing emission of
    the byte A.  The word before last of the output is therefore a code
    word that is not an escape and whose value is not below [2^20 - 1].
    The check stops growing the width at [MAX_CODE_LEN] (line 229), and
    codes go up to [MAX_CODES - 1]. *)
Lemma all_ones_code_at_max_width :
  exists st st' final out,
    (st, 65) ∈ lookups run_of_As /\
    loop_body st 65 = Ok st' /\
    code st = 2 ^ 20 - 1 /\
    bfpOut st' = out ++ [(code st, 20)] /\
    LZWEncodeFile run_of_As = Ok (true, final) /\
    bfpOut final = out ++ [(2 ^ 20 - 1, 20); (65, 20)] /\
    ~ (2 ^ 20 - 1 < 2 ^ 20 - 1).
Proof.
  destruct dictionary_room_full as [Hone Hfull].
  destruct (run_of_As_fills dictionary_room Hone Hfull)
    as (st & st' & final & out & Hin & Hrun & Hcode & Hout & Hfinal & Hfout & _).
  exists st, st', final, out. change MAX_CODE_LEN with 20 in *.
  split; [exact Hin |]. split; [exact Hrun |]. split; [exact Hcode |].
  split; [exact Hout |]. split; [exact Hfinal |].
  split; [rewrite Hfout, Hcode; reflexivity | lia].
Qed.

(** C1, amended.  For every input, before the main loop writes a code word
    of value [v] the width check runs: while [v >= 2^width - 1] and the
    width is below 20, the escape word [2^width - 1] is written at the
    current width and the width grows by one.  So a code word written by
    the main loop at a width [w] is below [2^w - 1], or [w] is 20 and the
    word is below [2^20]; the word written by the Seed step is a byte at
    width 9.  The trailing emission is not covered. *)
Theorem loop_emissions_checked (fpIn : list Byte.byte) :
  exists r st, LZWEncodeFile fpIn = Ok (r, st) /\
    match prologue fpIn with
    | None => True
    | Some (st0, _) =>
        Forall (fun e : code_word => e.2 = 9 /\ 0 <= e.1 < 2 ^ 9 - 1) (bfpOut st0)
    end /\
    Forall (fun sc : encoder * Z =>
              exists s', loop_body sc.1 sc.2 = Ok s' /\ checked_emission sc.1 s')
           (lookups fpIn).
Proof.
  destruct (LZWEncodeFile_spec fpIn) as (r & st & Hrun & Hinv & _ & _ & Hall & _).
  exists r, st. split; [exact Hrun |]. split.
  - destruct fpIn as [|b1 [|b2 rest]]; [exact I | |].
    + rewrite prologue_one. constructor.
    + rewrite prologue_two_more. pose proof (byte_range b1) as H1.
      destruct (inv_seed _ _ H1 (byte_range b2)) as (_ & _ & _ & ->).
      repeat constructor; simpl; lia.
  - eapply Forall_impl; [exact Hall |]. simpl.
    intros [s c] (Hi & Hne & Hc & s' & Hs' & Hspec). simpl in *.
    exists s'. split; [exact Hs' |].
    destruct (loop_body_spec s c Hi Hne Hc) as (s'' & Hs'' & Hinv'' & _ & _).
    rewrite Hs' in Hs''. injection Hs'' as <-.
    eapply body_spec_checked; eassumption.
Qed.

(** The trailing emission is not preceded by the width check.  On
    [ramp_input] the run succeeds and its last code word, written after the
    end of the input by line 246, is the dictionary code 511 (the entry for
    prefix 255, suffix 0) at width 9: the all-ones value of that width,
    which stands for an escape.  The main loop would have written the
    escape 511 and then the code at width 10 (lines 227-238). *)
Theorem final_code_word_skips_width_check :
  exists st, LZWEncodeFile ramp_input = Ok (true, st) /\
    last (bfpOut st) = Some (511, 9) /\
    currentCodeLen st = 9 /\
    (511, 255, 0) ∈ dictionary (heap st) /\
    ~ (511 < 2 ^ 9 - 1).
Proof.
  assert (E : exists st, LZWEncodeFile ramp_input = Ok (true, st) /\
            last (bfpOut st) = Some (511, 9) /\ currentCodeLen st = 9 /\
            dictionary (heap st) !! 255%nat = Some (511, 255, 0)).
  { vm_compute. eexists. repeat split. }
  destruct E as (st & H1 & H2 & H3 & H4). exists st.
  split; [exact H1 |]. split; [exact H2 |]. split; [exact H3 |].
  split; [apply list_elem_of_lookup; eauto | lia].
Qed.

(** C2.  Across one encode operation the current width starts at 9, never
    decreases and stays within [9, 20]; it only ever grows by one, right
    after an escape code word of value [2^w - 1] written at the width [w]
    it had before.  Stated on the words written ([width_trace], then by
    position) and on every turn of the main loop ([width_step]). *)
Theorem width_monotone_bounded (fpIn : list Byte.byte) :
  currentCodeLen init_encoder = 9 /\
  exists r st, LZWEncodeFile fpIn = Ok (r, st) /\
    width_trace 9 (bfpOut st) (currentCodeLen st) /\
    9 <= currentCodeLen st <= 20 /\
    (forall i v w, bfpOut st !! i = Some (v, w) -> 9 <= w <= currentCodeLen st) /\
    (forall i v w v' w',
       bfpOut st !! i = Some (v, w) -> bfpOut st !! S i = Some (v', w') ->
       w' = w \/ (w' = w + 1 /\ v = 2 ^ w - 1 /\ w < 20)) /\
    Forall (fun sc : encoder * Z =>
              9 <= currentCodeLen sc.1 <= 20 /\
              exists s', loop_body sc.1 sc.2 = Ok s' /\ width_step sc.1 s')
           (lookups fpIn).
Proof.
  split; [reflexivity |].
  destruct (LZWEncodeFile_spec fpIn) as (r & st & Hrun & Hinv & _ & _ & Hall & _).
  exists r, st. split; [exact Hrun |].
  pose proof (inv_widths st Hinv) as Hw.
  split; [exact Hw |]. split; [apply (inv_len st Hinv) |].
  split; [apply (width_trace_range _ _ _ Hw) |].
  split; [apply (width_trace_adjacent _ _ _ Hw) |].
  eapply Forall_impl; [exact Hall |]. simpl.
  intros [s c] (Hi & Hne & Hc & s' & Hs' & Hspec). simpl in *.
  split; [apply (inv_len s Hi) |]. exists s'. split; [exact Hs' |].
  destruct (loop_body_spec s c Hi Hne Hc) as (s'' & Hs'' & Hinv'' & _ & _).
  rewrite Hs' in Hs''. injection Hs'' as <-.
  eapply body_spec_width_step; eassumption.
Qed.

(** C3, as stated, fails at the cap.  On [run_of_As] the last turn of the
    main loop is entered with the counter at [MAX_CODES]; the pair it looks
    up (the last code, followed by A) is in no node of the dictionary, and
    the turn gives it no code: the dictionary and the counter are left as
    they are (lines 205 and 222-225). *)
Lemma novel_pair_at_cap_gets_no_code :
  exists st st',
    (st, 65) ∈ lookups run_of_As /\ loop_body st 65 = Ok st' /\
    nextCode st = MAX_CODES /\
    (forall n, n ∈ heap st -> ~ (prefixCode n = code st /\ suffixChar n = 65)) /\
    dictionary (heap st') = dictionary (heap st) /\ nextCode st' = nextCode st.
Proof.
  destruct dictionary_room_full as [Hone Hfull].
  destruct (run_of_As_fills dictionary_room Hone Hfull)
    as (st & st' & final & out & Hin & Hrun & _ & _ & _ & _ & Hnext & Hheap & Herr).
  exists st, st'. split; [exact Hin |]. split; [exact Hrun |]. split; [exact Hnext |].
  destruct (LZWEncodeFile_spec run_of_As) as (_ & _ & _ & _ & _ & _ & Hall & _).
  pose proof (proj1 (Forall_forall _ _) Hall _ Hin) as (_ & _ & _ & s' & Hs' & Hspec).
  cbn [fst snd] in Hs', Hspec. rewrite Hrun in Hs'. injection Hs' as <-.
  destruct Hspec as [n _ _ _ E | k Hnone Hdict _ _ _ _ _ _].
  - exfalso. rewrite E in Herr. unfold set_code in Herr. cbn [stderr] in Herr.
    apply (f_equal length) in Herr. rewrite length_app in Herr. simpl in Herr. lia.
  - split; [exact Hnone |]. rewrite Hheap. split; [reflexivity |].
    rewrite (proj2 (Z.ltb_ge _ _)) in Hdict by lia. tauto.
Qed.

(** C3, amended.  Within one encode operation the dictionary codes are
    assigned in strictly increasing order from 256, without gaps and
    without reuse: the entries in creation order carry 256, 257, ..., the
    counter is 256 plus their number, and no (prefix, suffix) pair has two
    entries.  The first entry is made from the first two bytes.  After
    that, turn [i] of the main loop handles byte [i + 2] of the input in
    the state left by the turn before (the first in the state left by the
    first two bytes): it adds no entry when the pair is already there;
    exactly one entry, with the next code, when the pair is new and the
    counter is below [MAX_CODES]; and none when the pair is new and the
    counter has reached [MAX_CODES].  The dictionary and the counter with
    which the run ends are those left by the last turn (by the first
    bytes when there is no turn). *)
Theorem codes_assigned_in_order (fpIn : list Byte.byte) :
  exists r st, LZWEncodeFile fpIn = Ok (r, st) /\
    counts_up_from FIRST_CODE (map codeWord (heap st)) /\
    nextCode st = FIRST_CODE + Z.of_nat (length (heap st)) /\
    (forall i j ni nj, heap st !! i = Some ni -> heap st !! j = Some nj ->
       prefixCode ni = prefixCode nj -> suffixChar ni = suffixChar nj -> i = j) /\
    (fun st0 : encoder * list Byte.byte => dictionary (heap st0.1)) <$> prologue fpIn =
      match fpIn with
      | [] => None
      | [_] => Some []
      | b1 :: b2 :: _ =>
          Some [(FIRST_CODE, Z.of_N (Byte.to_N b1), Z.of_N (Byte.to_N b2))]
      end /\
    Forall (fun sc : encoder * Z =>
              exists s', loop_body sc.1 sc.2 = Ok s' /\ assigns sc.1 sc.2 s')
           (lookups fpIn) /\
    (forall s c, lookups fpIn !! 0%nat = Some (s, c) ->
       exists rest, prologue fpIn = Some (s, rest)) /\
    (forall i s c, lookups fpIn !! i = Some (s, c) ->
       (exists b, fpIn !! (i + 2)%nat = Some b /\ c = Z.of_N (Byte.to_N b)) /\
       exists s', loop_body s c = Ok s' /\ assigns_capped s c s' /\
         match lookups fpIn !! S i with
         | Some (s2, _) => s2 = s'
         | None =>
             dictionary (heap st) = dictionary (heap s') /\ nextCode st = nextCode s'
         end) /\
    (lookups fpIn = [] ->
       dictionary (heap st) =
         match prologue fpIn with
         | Some (s0, _) => dictionary (heap s0)
         | None => []
         end).
Proof.
  destruct (LZWEncodeFile_spec fpIn) as (r & st & Hrun & Hinv & _ & _ & Hall & _).
  exists r, st. split; [exact Hrun |].
  split; [apply inv_codes_count_up; exact Hinv |].
  split; [apply (inv_next st Hinv) |].
  split; [intros i j ni nj; apply dict_inv_key_inj, (inv_dict st Hinv) |].
  split.
  { destruct fpIn as [|b1 [|b2 rest]]; [reflexivity | |].
    + rewrite prologue_one. reflexivity.
    + rewrite prologue_two_more. cbn [fmap option_fmap option_map fst].
      destruct (inv_seed _ _ (byte_range b1) (byte_range b2)) as (_ & _ & Hd & _).
      rewrite Hd. reflexivity. }
  split.
  { eapply Forall_impl; [exact Hall |]. simpl.
    intros [s c] (_ & _ & _ & s' & Hs' & Hspec). simpl in *.
    exists s'. split; [exact Hs' | apply body_spec_assigns; exact Hspec]. }
  destruct fpIn as [|b1 [|b2 rest]].
  - injection Hrun as <- <-.
    split; [intros s c H; discriminate H |].
    split; [intros i s c H; discriminate H | reflexivity].
  - unfold LZWEncodeFile in Hrun. unfold lookups. rewrite prologue_one in *.
    simpl in Hrun. injection Hrun as <- <-.
    split; [intros s c H; discriminate H |].
    split; [intros i s c H; discriminate H | reflexivity].
  - destruct (inv_seed _ _ (byte_range b1) (byte_range b2)) as (Hi & Hne & _).
    rewrite lookups_two_more in *. rewrite prologue_two_more.
    set (st0 := seed _ _) in *.
    destruct (encode_loop_spec rest st0 Hi (or_intror Hne)) as (s1 & Hl1 & _ & _ & Hlen).
    rewrite (LZWEncodeFile_two_more _ _ _ _ Hl1) in Hrun. injection Hrun as <- <-.
    destruct (loop_calls_chain rest st0 s1 Hl1) as (Hfirst & Hnil & Hstep).
    split; [intros s c H; rewrite (Hfirst s c H); eauto |].
    split.
    + intros i s c Hisc. destruct (Hstep i s c Hisc) as ((b & Hb & Hc) & s' & Hs' & Hnext).
      split.
      { exists b. split; [| exact Hc].
        replace (i + 2)%nat with (S (S i)) by lia. exact Hb. }
      exists s'. split; [exact Hs' |]. split.
      * pose proof (Forall_lookup_1 _ _ _ _ Hall Hisc) as (_ & _ & _ & s'' & Hs'' & Hspec).
        cbn [fst snd] in Hs'', Hspec. rewrite Hs' in Hs''. injection Hs'' as <-.
        apply body_spec_assigns_capped. exact Hspec.
      * destruct (loop_calls rest st0 !! S i) as [[s2 c2]|]; [exact Hnext |].
        subst s1. unfold PutCodeWord. cbn [heap nextCode]. auto.
    + intros Hno. rewrite (Hnil Hno). reflexivity.
Qed.

(** C4, as stated, fails: on the input A B A B A B C the code words of
    value 256 and above in the output are 256, 256.  The same dictionary
    code is written twice, so they do not count up from 256. *)
Lemma emitted_codes_repeat :
  emitted_dictionary_codes (output_of (LZWEncodeFile input_ABABABC)) = [256; 256] /\
  ~ counts_up_from FIRST_CODE
      (emitted_dictionary_codes (output_of (LZWEncodeFile input_ABABABC))).
Proof.
  assert (E : emitted_dictionary_codes (output_of (LZWEncodeFile input_ABABABC))
              = [256; 256]) by (vm_compute; reflexivity).
  split; [exact E |]. rewrite E. intros H.
  specialize (H 1%nat 256 eq_refl). rewrite FIRST_CODE_val in H. lia.
Qed.

(** C4, amended.  Within one encode operation the codes assigned count up
    from 256 without gaps, and every code word written with a value of 256
    or more carries one of them: the word at position [i] of the output
    (from 0) is below [256 + i], and its value is the code of an entry of
    the dictionary.  Nothing is claimed about the order of the dictionary
    codes written; they can repeat. *)
Theorem emitted_codes_are_assigned (fpIn : list Byte.byte) :
  exists r st, LZWEncodeFile fpIn = Ok (r, st) /\
    counts_up_from FIRST_CODE (map codeWord (heap st)) /\
    forall i v w, bfpOut st !! i = Some (v, w) ->
      0 <= v < FIRST_CODE + Z.of_nat i /\
      (FIRST_CODE <= v -> exists j n, heap st !! j = Some n /\ codeWord n = v).
Proof.
  destruct (LZWEncodeFile_spec fpIn) as (r & st & Hrun & Hinv & _).
  exists r, st. split; [exact Hrun |].
  split; [apply inv_codes_count_up; exact Hinv |].
  intros i v w Hi. pose proof (inv_out st Hinv _ _ _ Hi) as Hb.
  split; [exact Hb |]. intros Hge.
  pose proof (Forall_lookup_1 _ _ _ _ (inv_assigned st Hinv) Hi) as Hlt. simpl in Hlt.
  rewrite (inv_next st Hinv) in Hlt.
  destruct (lookup_lt_is_Some_2 (heap st) (Z.to_nat (v - FIRST_CODE))) as [n Hn]; [lia |].
  exists (Z.to_nat (v - FIRST_CODE)), n. split; [exact Hn |].
  destruct (di_entry _ (inv_dict st Hinv) _ _ Hn) as (E & _). lia.
Qed.

(** C5.  The dictionary never holds more than [2^20] entries: after any
    run, and in every state in which the main loop looks a string up, the
    number of entries and the code counter are within the cap, and every
    run returns without fault.  Once the counter has reached [2^20], a turn
    of the loop leaves the dictionary as it is; for a string that is not in
    the dictionary it prints the diagnostic, writes the code of the string
    read so far and goes on with the next character.  The cap is reached:
    on [run_of_As] the last turn of the loop finds the counter at [2^20],
    prints the diagnostic and leaves the dictionary unchanged.  The
    behaviour at the cap holds more generally in any state whose counter
    is at the cap and whose search returns a node. *)
Theorem dictionary_capacity (fpIn : list Byte.byte) (st : encoder) (c : Z)
    (m : nat) (nm : dict_node_t) :
  MAX_CODES <= nextCode st ->
  0 <= currentCodeLen st <= MAX_CODE_LEN ->
  FindDictionaryEntry (heap st) (dictRoot st) (code st) c = Ok (Some m) ->
  heap st !! m = Some nm ->
  (exists r final, LZWEncodeFile fpIn = Ok (r, final) /\
     Z.of_nat (length (heap final)) <= 2 ^ 20 /\ nextCode final <= MAX_CODES /\
     Forall (fun sc : encoder * Z =>
               Z.of_nat (length (heap sc.1)) <= 2 ^ 20 /\ nextCode sc.1 <= MAX_CODES /\
               exists s', loop_body sc.1 sc.2 = Ok s' /\
                 (MAX_CODES <= nextCode sc.1 -> frozen_turn sc.1 sc.2 s'))
            (lookups fpIn)) /\
  (exists s s', (s, 65) ∈ lookups run_of_As /\ nextCode s = MAX_CODES /\
     loop_body s 65 = Ok s' /\ heap s' = heap s /\
     stderr s' = stderr s ++ [dictionary_full_msg]) /\
  (exists st', loop_body st c = Ok st' /\ frozen_turn st c st').
Proof.
  intros Hfull Hlen Hfde Hm. split; [| split].
  - assert (Hcap : forall s, inv s ->
              Z.of_nat (length (heap s)) <= 2 ^ 20 /\ nextCode s <= MAX_CODES).
    { intros s Hs. pose proof (di_size _ (inv_dict s Hs)) as Hsz.
      pose proof (inv_next s Hs) as Hn. rewrite FIRST_CODE_val, MAX_CODES_val in *.
      change (2 ^ 20) with 1048576. lia. }
    destruct (LZWEncodeFile_spec fpIn) as (r & final & Hrun & Hinv & _ & _ & Hall & _).
    exists r, final. split; [exact Hrun |].
    destruct (Hcap final Hinv) as [H1 H2]. split; [exact H1 |]. split; [exact H2 |].
    eapply Forall_impl; [exact Hall |]. simpl.
    intros [s ch] (Hi & Hne & Hc & s' & Hs' & Hspec). simpl in *.
    destruct (Hcap s Hi) as [H3 H4]. split; [exact H3 |]. split; [exact H4 |].
    exists s'. split; [exact Hs' |]. intros Hf.
    destruct Hspec as [n Hin Hp Hs -> | k Hnone Hdict Hroot _ Hout _ _ Hcode].
    + split; [reflexivity | split; [reflexivity | split; [reflexivity |]]].
      intros Hno. exfalso. apply (Hno n Hin). auto.
    + rewrite (proj2 (Z.ltb_ge _ _) Hf) in Hdict. destruct Hdict as (E1 & E2 & E3).
      split; [exact E1 | split; [exact Hroot | split; [exact E2 |]]].
      intros _. split; [exact E3 | split; [exact Hcode | eauto]].
  - destruct dictionary_room_full as [Hone Hroom].
    destruct (run_of_As_fills dictionary_room Hone Hroom)
      as (s & s' & _ & _ & Hin & Hrun & _ & _ & _ & _ & Hnext & Hheap & Herr).
    exists s, s'. auto.
  - destruct (decide (prefixCode nm = code st /\ suffixChar nm = c)) as [[Ep Es] | Hnovel].
    + exists (set_code st (codeWord nm)). split.
      * unfold loop_body. rewrite Hfde. cbn [rbind]. rewrite Hm, Ep, Es, !Z.eqb_refl.
        reflexivity.
      * split; [reflexivity | split; [reflexivity | split; [reflexivity |]]].
        intros Hno. exfalso.
        apply (Hno nm (elem_of_lookup_node _ _ _ Hm)). auto.
    + destruct (loop_body_full st c m nm Hfull Hlen Hfde Hm Hnovel)
        as (st' & k & Hrun & E1 & E2 & E3 & E4 & E5 & E6).
      exists st'. split; [exact Hrun |].
      split; [exact E1 | split; [exact E2 | split; [exact E3 |]]].
      intros _. split; [exact E4 | split; [exact E6 | eauto]].
Qed.

Lemma dictionary_capacity_witness :
  MAX_CODES <= nextCode full_state /\
  0 <= currentCodeLen full_state <= MAX_CODE_LEN /\
  FindDictionaryEntry (heap full_state) (dictRoot full_state) (code full_state) 67
    = Ok (Some 0%nat) /\
  heap full_state !! 0%nat = Some (mk_dict_node 256 66 65 None None) /\
  exists st', loop_body full_state 67 = Ok st' /\ frozen_turn full_state 67 st'.
Proof.
  assert (H1 : MAX_CODES <= nextCode full_state) by (vm_compute; discriminate).
  assert (H2 : 0 <= currentCodeLen full_state <= MAX_CODE_LEN)
    by (vm_compute; split; discriminate).
  assert (H3 : FindDictionaryEntry (heap full_state) (dictRoot full_state)
                 (code full_state) 67 = Ok (Some 0%nat)) by (vm_compute; reflexivity).
  assert (H4 : heap full_state !! 0%nat = Some (mk_dict_node 256 66 65 None None))
    by reflexivity.
  split; [exact H1 |]. split; [exact H2 |]. split; [exact H3 |]. split; [exact H4 |].
  exact (proj2 (proj2 (dictionary_capacity input_AAAA full_state 67 0%nat
                         (mk_dict_node 256 66 65 None None) H1 H2 H3 H4))).
Defined.

(** C6.  For an empty input the encode operation returns the failure
    indicator ([FALSE]) and no code word is written. *)
Theorem empty_input_fails :
  exists st, LZWEncodeFile [] = Ok (false, st) /\ bfpOut st = [].
Proof. exists init_encoder. split; reflexivity. Qed.

(** C7.  For the four bytes A A A A (65) the encode operation succeeds and
    writes exactly three 9-bit code words, 65, 256, 65; at the end the
    dictionary holds exactly code 256 = (prefix 65, suffix 65) and
    code 257 = (prefix 256, suffix 65), and 257 is never written.  The
    two entries are in the tree: the root is the node of code 256, the node
    of code 257 is its right child and has no child, and the search from
    the root finds each of the two pairs on its node. *)
Theorem four_A_trace :
  exists st, LZWEncodeFile input_AAAA = Ok (true, st) /\
    bfpOut st = [(65, 9); (256, 9); (65, 9)] /\
    dictionary (heap st) = [(256, 65, 65); (257, 256, 65)] /\
    (257 ∉ map fst (bfpOut st)) /\
    dictRoot st = Some 0%nat /\
    heap st = [mk_dict_node 256 65 65 None (Some 1%nat);
               mk_dict_node 257 65 256 None None] /\
    FindDictionaryEntry (heap st) (dictRoot st) 65 65 = Ok (Some 0%nat) /\
    FindDictionaryEntry (heap st) (dictRoot st) 256 65 = Ok (Some 1%nat).
Proof.
  eexists. split; [vm_compute; reflexivity |].
  cbn [bfpOut heap dictRoot]. split; [reflexivity |]. split; [reflexivity |].
  split.
  { simpl. rewrite !elem_of_cons. intros [H | [H | [H | H]]]; try discriminate H.
    inversion H. }
  split; [reflexivity |]. split; [reflexivity |].
  split; vm_compute; reflexivity.
Qed.

(** C8.  The composite key is injective on its domain (prefix codes below
    the maximum code count [2^20], suffixes that are bytes): two distinct
    pairs get different keys.  The order induced by the keys is a strict
    total order there: irreflexive, transitive, and any two distinct pairs
    are comparable. *)
Theorem MakeKey_strict_total_order (x y z : Z * Z) :
  key_domain x -> key_domain y -> key_domain z ->
  (x <> y -> MakeKey x.1 x.2 <> MakeKey y.1 y.2) /\
  ~ key_lt x x /\
  (key_lt x y -> key_lt y z -> key_lt x z) /\
  (x <> y -> key_lt x y \/ key_lt y x).
Proof.
  destruct x as [p1 s1], y as [p2 s2], z as [p3 s3].
  unfold key_domain, key_lt, UCHAR_MOD. simpl. change (2 ^ 8) with 256.
  intros [Hp1 Hs1] [Hp2 Hs2] [Hp3 Hs3].
  assert (Hinj : (p1, s1) <> (p2, s2) -> MakeKey p1 s1 <> MakeKey p2 s2).
  { intros Hne Heq. apply Hne.
    destruct (MakeKey_inj p1 s1 p2 s2) as [-> ->]; auto. }
  repeat split.
  - exact Hinj.
  - lia.
  - lia.
  - intros Hne. specialize (Hinj Hne). lia.
Qed.

Lemma MakeKey_strict_total_order_witness :
  key_domain (65, 65) /\ key_domain (256, 65) /\ key_domain (257, 0) /\
  ((65, 65) <> (256, 65) -> MakeKey 65 65 <> MakeKey 256 65) /\
  ~ key_lt (65, 65) (65, 65) /\
  (key_lt (65, 65) (256, 65) -> key_lt (256, 65) (257, 0) -> key_lt (65, 65) (257, 0)) /\
  ((65, 65) <> (256, 65) -> key_lt (65, 65) (256, 65) \/ key_lt (256, 65) (65, 65)).
Proof.
  assert (D1 : key_domain (65, 65)) by (unfold key_domain; simpl; vm_compute; intuition discriminate).
  assert (D2 : key_domain (256, 65)) by (unfold key_domain; simpl; vm_compute; intuition discriminate).
  assert (D3 : key_domain (257, 0)) by (unfold key_domain; simpl; vm_compute; intuition discriminate).
  split; [exact D1 | split; [exact D2 | split; [exact D3 |]]].
  exact (MakeKey_strict_total_order (65, 65) (256, 65) (257, 0) D1 D2 D3).
Defined.

(** C9.  For every input, whenever the main loop calls the dictionary
    search the dictionary is not empty: its root is the node made from the
    first two bytes, the search returns a pointer to an allocated node, not
    NULL, and the turn of the loop that reads the fields of that node
    returns without fault.  Every byte after the second causes one such
    call, and the whole run returns without fault. *)
Theorem lookup_never_null (fpIn : list Byte.byte) :
  (exists r st, LZWEncodeFile fpIn = Ok (r, st)) /\
  length (lookups fpIn) = (length fpIn - 2)%nat /\
  Forall (fun sc : encoder * Z =>
            heap sc.1 <> [] /\ dictRoot sc.1 = Some 0%nat /\
            (exists m nm,
               FindDictionaryEntry (heap sc.1) (dictRoot sc.1) (code sc.1) sc.2
                 = Ok (Some m) /\
               heap sc.1 !! m = Some nm) /\
            exists s', loop_body sc.1 sc.2 = Ok s')
         (lookups fpIn).
Proof.
  destruct (LZWEncodeFile_spec fpIn) as (r & st & Hrun & Hinv & _ & _ & Hall & Hlen).
  split; [eauto |]. split.
  - clear -Hall. unfold lookups.
    destruct fpIn as [|b1 [|b2 rest]]; [reflexivity | |].
    + rewrite prologue_one. reflexivity.
    + rewrite prologue_two_more.
      destruct (inv_seed _ _ (byte_range b1) (byte_range b2)) as (Hi & Hne & _).
      destruct (encode_loop_spec rest _ Hi (or_intror Hne)) as (_ & _ & _ & _ & ->).
      simpl. lia.
  - eapply Forall_impl; [exact Hall |]. simpl.
    intros [s c] (Hi & Hne & Hc & s' & Hs' & _). simpl in *.
    split; [exact Hne |]. split.
    + rewrite (inv_root s Hi). destruct (heap s); [contradiction | reflexivity].
    + split; [| eauto].
      destruct (loop_lookup s c Hi Hne Hc) as (m & nm & Hf & _ & Hm). eauto.
Qed.

(** C10.  Every dictionary entry created during one encode operation has a
    prefix code below its own code: the prefix is a literal byte value or
    the code of an entry created earlier.  Prefix chains are therefore
    acyclic and finite: the relation that links a code to its prefix is
    well founded. *)
Theorem prefix_chains_acyclic (fpIn : list Byte.byte) :
  exists r st, LZWEncodeFile fpIn = Ok (r, st) /\
    (forall i n, heap st !! i = Some n ->
       0 <= prefixCode n < codeWord n /\
       (prefixCode n < 256 \/
        exists j n', (j < i)%nat /\ heap st !! j = Some n' /\
                     codeWord n' = prefixCode n)) /\
    well_founded (prefix_step (heap st)).
Proof.
  destruct (LZWEncodeFile_spec fpIn) as (r & st & Hrun & Hinv & _).
  pose proof (inv_dict st Hinv) as Hd.
  exists r, st. split; [exact Hrun |]. split.
  - intros i n Hi. destruct (di_entry _ Hd _ _ Hi) as (Hc & Hp & _).
    split; [exact Hp |].
    destruct (Z_lt_le_dec (prefixCode n) 256) as [Hlt | Hge]; [left; exact Hlt | right].
    rewrite FIRST_CODE_val in Hc.
    pose proof (lookup_lt_Some _ _ _ Hi) as Hil.
    destruct (lookup_lt_is_Some_2 (heap st) (Z.to_nat (prefixCode n - 256))) as [n' Hn'];
      [lia |].
    exists (Z.to_nat (prefixCode n - 256)), n'.
    split; [lia |]. split; [exact Hn' |].
    destruct (di_entry _ Hd _ _ Hn') as (Hc' & _). rewrite FIRST_CODE_val in Hc'. lia.
  - apply (wf_incl _ _ (fun x y => 0 <= x < y)); [| apply (Z.lt_wf 0)].
    intros a b (n & Hin & <- & <-).
    apply list_elem_of_lookup in Hin. destruct Hin as [i Hi].
    destruct (di_entry _ Hd _ _ Hi) as (_ & Hp & _). exact Hp.
Qed.

(** * Further properties *)

(** ** Induction along the main loop *)

Lemma loop_body_heap (st : encoder) (c : Z) (st' : encoder) :
  inv st -> heap st <> [] -> 0 <= c < 256 ->
  loop_body st c = Ok st' -> heap_step (heap st) (heap st').
Proof.
  intros Hinv Hne Hc.
  destruct (loop_lookup st c Hinv Hne Hc) as (m & nm & Hfde & Hfind & Hm).
  pose proof (inv_dict st Hinv) as Hd.
  pose proof (inv_code st Hinv) as Hcode. pose proof (inv_next st Hinv) as Hnext.
  pose proof (inv_len st Hinv) as Hlen.
  destruct (dict_inv_prefix_bound _ _ _ Hd Hm) as (Hpm & Hsm & Hcm).
  pose proof FIRST_CODE_val as HFC. pose proof MAX_CODES_val as HMC.
  unfold loop_body. rewrite Hfde. cbn [rbind]. rewrite Hm.
  destruct ((prefixCode nm =? code st) && (suffixChar nm =? c)) eqn:Ematch.
  - intros E. injection E as <-. apply hs_same. reflexivity.
  - assert (Hnovel : ~ (prefixCode nm = code st /\ suffixChar nm = c)).
    { intros [Ep Es]. rewrite Ep, Es, !Z.eqb_refl in Ematch. discriminate. }
    destruct (Z.ltb_spec (nextCode st) MAX_CODES) as [Hroom | Hfull].
    + rewrite add_entry_room by assumption.
      set (tmp := mk_dict_node (nextCode st) c (code st) None None).
      set (st1 := mk_encoder _ _ _ _ _ _ _).
      destruct (width_loop_spec (Z.to_nat (MAX_CODE_LEN - currentCodeLen st1)) st1)
        as (k & Hrun & _); [subst st1; simpl; lia | lia |].
      rewrite Hrun. cbn [rbind]. subst st1. intros E. injection E as <-.
      unfold set_code, PutCodeWord. cbn [heap].
      apply hs_attach with (m := m) (nm := nm) (tmp := tmp);
        [exact Hm | split; reflexivity | | reflexivity].
      destruct (find_loop_stops _ _ _ _ _ Hfind) as (nm' & Hm' & Hst).
      rewrite Hm in Hm'. injection Hm' as <-.
      change (key_of tmp) with (MakeKey (code st) c).
      destruct Hst as [Heq | Hst]; [| exact Hst].
      exfalso. apply Hnovel. unfold key_of in Heq.
      apply MakeKey_inj in Heq; [tauto | | | |]; lia.
    + rewrite add_entry_full by assumption.
      set (st1 := fprintf_stderr st _).
      destruct (width_loop_spec (Z.to_nat (MAX_CODE_LEN - currentCodeLen st1)) st1)
        as (k & Hrun & _); [subst st1; simpl; lia | lia |].
      rewrite Hrun. cbn [rbind]. subst st1. intros E. injection E as <-.
      apply hs_same. reflexivity.
Qed.

(* Induction along the main loop: a property of the unread input and the
   state that every turn carries over holds when the loop ends, and held at
   every call of the search. *)
Lemma run_invariant (P : list Byte.byte -> encoder -> Prop) :
  (forall b rest st st',
     inv st -> heap st <> [] -> inv st' ->
     loop_body st (Z.of_N (Byte.to_N b)) = Ok st' ->
     body_spec st (Z.of_N (Byte.to_N b)) st' ->
     heap_step (heap st) (heap st') ->
     P (b :: rest) st -> P rest st') ->
  forall rest st,
    inv st -> rest = [] \/ heap st <> [] -> P rest st ->
    exists st', encode_loop rest st = Ok st' /\ inv st' /\ P [] st' /\
      (rest = [] \/ heap st' <> []) /\
      Forall (fun sc : encoder * Z =>
                inv sc.1 /\ heap sc.1 <> [] /\
                exists b tl, sc.2 = Z.of_N (Byte.to_N b) /\ P (b :: tl) sc.1)
             (loop_calls rest st).
Proof.
  intros Hstep rest. induction rest as [|b rest IH]; intros st Hinv Hne HP.
  - exists st. simpl. auto.
  - destruct Hne as [Hne | Hne]; [discriminate |].
    destruct (loop_body_spec st _ Hinv Hne (byte_range b))
      as (st1 & Hrun & Hinv1 & Hne1 & Hspec).
    pose proof (loop_body_heap _ _ _ Hinv Hne (byte_range b) Hrun) as Hheap.
    destruct (IH st1 Hinv1 (or_intror Hne1)
                (Hstep b rest st st1 Hinv Hne Hinv1 Hrun Hspec Hheap HP))
      as (st' & Hloop & Hinv' & HP' & Hne' & Hall).
    exists st'. simpl. rewrite Hrun. cbn [rbind].
    split; [exact Hloop |]. split; [exact Hinv' |]. split; [exact HP' |].
    split.
    + right. destruct Hne' as [-> | H]; [| exact H].
      simpl in Hloop. injection Hloop as <-. exact Hne1.
    + constructor; [| exact Hall].
      split; [exact Hinv |]. split; [exact Hne |]. exists b, rest. auto.
Qed.

(* The main loop only appends: to the words written and to the dictionary. *)
Lemma encode_loop_appends (rest : list Byte.byte) (st st' : encoder) :
  inv st -> rest = [] \/ heap st <> [] ->
  encode_loop rest st = Ok st' ->
  bfpOut st `prefix_of` bfpOut st' /\
  dictionary (heap st) `prefix_of` dictionary (heap st').
Proof.
  intros Hinv Hne Hloop.
  destruct (run_invariant
              (fun _ s => bfpOut st `prefix_of` bfpOut s /\
                          dictionary (heap st) `prefix_of` dictionary (heap s)))
    with (rest := rest) (st := st) as (s & Hs & _ & HP & _); try assumption.
  - intros b tl s s' _ _ _ _ Hspec _ [H1 H2].
    destruct Hspec as [n _ _ _ -> | k _ Hdict _ _ Hout _ _ _]; [auto |].
    split.
    + rewrite Hout. etrans; [exact H1 |]. apply prefix_app_r. reflexivity.
    + destruct (nextCode s <? MAX_CODES).
      * destruct Hdict as (-> & _). etrans; [exact H2 |]. apply prefix_app_r. reflexivity.
      * destruct Hdict as (-> & _). exact H2.
  - split; reflexivity.
  - rewrite Hloop in Hs. injection Hs as <-. exact HP.
Qed.

(* The tree is empty at the end of a run exactly when the file has fewer
   than two bytes. *)
Lemma heap_empty_iff (fpIn : list Byte.byte) (r : bool) (st : encoder) :
  LZWEncodeFile fpIn = Ok (r, st) -> heap st = [] <-> (length fpIn <= 1)%nat.
Proof.
  destruct fpIn as [|b1 [|b2 rest]]; intros H.
  - injection H as <- <-. simpl. split; [lia | reflexivity].
  - unfold LZWEncodeFile in H. rewrite prologue_one in H. simpl in H.
    injection H as <- <-. simpl. split; [lia | reflexivity].
  - destruct (inv_seed _ _ (byte_range b1) (byte_range b2)) as (Hi & Hne & _).
    destruct (encode_loop_spec rest _ Hi (or_intror Hne)) as (s1 & Hl1 & _).
    rewrite (LZWEncodeFile_two_more _ _ _ _ Hl1) in H. injection H as <- <-.
    unfold PutCodeWord. cbn [heap]. split; [| simpl; lia].
    intros E. exfalso.
    destruct (encode_loop_appends _ _ _ Hi (or_intror Hne) Hl1) as [_ [k Hk]].
    rewrite E in Hk.
    destruct (heap (seed (set_code init_encoder (Z.of_N (Byte.to_N b1)))
                      (Z.of_N (Byte.to_N b2)))); [contradiction | discriminate Hk].
Qed.

(** ** Reading the stream, and the strings of the codes *)

Lemma data_words_app (w : Z) (o1 o2 : list code_word) :
  data_words w (o1 ++ o2) = data_words w o1 ++ data_words (width_after w o1) o2.
Proof.
  revert w. induction o1 as [|e o1 IH]; intros w; simpl; [reflexivity |].
  destruct (is_escape w e.1); simpl; rewrite IH; reflexivity.
Qed.

Lemma width_after_app (w : Z) (o1 o2 : list code_word) :
  width_after w (o1 ++ o2) = width_after (width_after w o1) o2.
Proof.
  revert w. induction o1 as [|e o1 IH]; intros w; simpl; [reflexivity |].
  destruct (is_escape w e.1); simpl; rewrite IH; reflexivity.
Qed.

Lemma read_escapes (w : Z) (k : nat) :
  w + Z.of_nat k <= MAX_CODE_LEN ->
  data_words w (escapes w k) = [] /\ width_after w (escapes w k) = w + Z.of_nat k.
Proof.
  revert w. induction k as [|k IH]; intros w Hle; simpl.
  - split; [reflexivity | lia].
  - unfold is_escape. simpl. rewrite Z.eqb_refl.
    rewrite (proj2 (Z.ltb_lt _ _)) by lia. simpl.
    destruct (IH (w + 1)) as [E1 E2]; [lia |]. rewrite E1, E2. split; [reflexivity | lia].
Qed.

Lemma read_code (w v u : Z) :
  v < 2 ^ w - 1 \/ w = MAX_CODE_LEN ->
  data_words w [(v, u)] = [v] /\ width_after w [(v, u)] = w.
Proof.
  intros H. simpl. unfold is_escape. simpl.
  destruct H as [H | ->].
  - rewrite (proj2 (Z.eqb_neq _ _)) by lia. auto.
  - rewrite Z.ltb_irrefl, andb_false_r. auto.
Qed.

Lemma data_words_Forall (P : Z -> Prop) (w : Z) (out : list code_word) :
  Forall (fun e : code_word => P e.1) out -> Forall P (data_words w out).
Proof.
  intros H. revert w. induction H as [|e out He H IH]; intros w; simpl; [constructor |].
  destruct (is_escape w e.1); [apply IH | constructor; [exact He | apply IH]].
Qed.

Lemma data_words_length (w : Z) (out : list code_word) :
  width_after w out <= MAX_CODE_LEN -> w <= width_after w out /\
  length out = (length (data_words w out) + Z.to_nat (width_after w out - w))%nat.
Proof.
  revert w. induction out as [|e out IH]; intros w Hle; simpl in *.
  - split; [lia |]. rewrite Z.sub_diag. reflexivity.
  - destruct (is_escape w e.1); simpl.
    + destruct (IH _ Hle) as [H1 H2]. split; [lia |]. rewrite H2.
      replace (width_after (w + 1) out - w) with (Z.succ (width_after (w + 1) out - (w + 1))) by lia.
      rewrite Z2Nat.inj_succ by lia. lia.
    + destruct (IH _ Hle) as [H1 H2]. split; [lia |]. rewrite H2. reflexivity.
Qed.

(** Strings *)

Lemma entry_strings_snoc (d : list (Z * Z * Z)) (e : Z * Z * Z) :
  entry_strings (d ++ [e]) = entry_strings d ++ [str_of (entry_strings d) e.1.2 ++ [e.2]].
Proof. unfold entry_strings. rewrite fold_left_app. reflexivity. Qed.

Lemma entry_strings_length (d : list (Z * Z * Z)) : length (entry_strings d) = length d.
Proof.
  induction d as [|e d IH] using rev_ind; [reflexivity |].
  rewrite entry_strings_snoc, !length_app, IH. reflexivity.
Qed.

Lemma expand_byte (d : list (Z * Z * Z)) (c : Z) : c < FIRST_CODE -> expand d c = [c].
Proof.
  intros H. unfold expand, str_of. rewrite (proj2 (Z.ltb_lt _ _) H). reflexivity.
Qed.

(* A new entry does not change the string of an older code. *)
Lemma expand_snoc_old (d : list (Z * Z * Z)) (e : Z * Z * Z) (c : Z) :
  c < FIRST_CODE + Z.of_nat (length d) -> expand (d ++ [e]) c = expand d c.
Proof.
  intros H. unfold expand, str_of. destruct (c <? FIRST_CODE) eqn:E; [reflexivity |].
  apply Z.ltb_ge in E. rewrite entry_strings_snoc, lookup_app_l; [reflexivity |].
  rewrite entry_strings_length. lia.
Qed.

Lemma expand_snoc_new (d : list (Z * Z * Z)) (e : Z * Z * Z) :
  expand (d ++ [e]) (FIRST_CODE + Z.of_nat (length d)) = expand d e.1.2 ++ [e.2].
Proof.
  unfold expand at 1, str_of. rewrite (proj2 (Z.ltb_ge _ _)) by lia.
  rewrite entry_strings_snoc, lookup_app_r; rewrite entry_strings_length; [| lia].
  replace (Z.to_nat (FIRST_CODE + Z.of_nat (length d) - FIRST_CODE) - length d)%nat
    with 0%nat by lia.
  reflexivity.
Qed.

Lemma expand_snoc_new_at (d : list (Z * Z * Z)) (e : Z * Z * Z) (x : Z) :
  x = FIRST_CODE + Z.of_nat (length d) -> expand (d ++ [e]) x = expand d e.1.2 ++ [e.2].
Proof. intros ->. apply expand_snoc_new. Qed.

Lemma dict_wf_snoc_inv (d : list (Z * Z * Z)) (e : Z * Z * Z) :
  dict_wf (d ++ [e]) ->
  dict_wf d /\ e.1.1 = FIRST_CODE + Z.of_nat (length d) /\ 0 <= e.1.2 < e.1.1.
Proof.
  intros H. split.
  - intros i x Hi. apply (H i x). apply lookup_app_l_Some. exact Hi.
  - apply (H (length d) e). rewrite lookup_app_r by lia.
    replace (length d - length d)%nat with 0%nat by lia. reflexivity.
Qed.

(* The string of an entry is the string of its prefix code followed by its
   suffix character. *)
Lemma expand_entry (d : list (Z * Z * Z)) (i : nat) (e : Z * Z * Z) :
  dict_wf d -> d !! i = Some e -> expand d e.1.1 = expand d e.1.2 ++ [e.2].
Proof.
  revert i e. induction d as [|x d IH] using rev_ind; intros i e Hwf Hi; [discriminate |].
  destruct (dict_wf_snoc_inv _ _ Hwf) as (Hwf' & Hx1 & Hx2).
  destruct (Hwf _ _ Hi) as [Hc Hp].
  destruct (decide (i < length d)%nat) as [Hlt | Hge].
  - rewrite lookup_app_l in Hi by assumption.
    rewrite !expand_snoc_old by lia. eauto.
  - pose proof (lookup_lt_Some _ _ _ Hi) as Hb. rewrite length_app in Hb. simpl in Hb.
    assert (i = length d) as -> by lia.
    rewrite lookup_app_r in Hi by lia.
    replace (length d - length d)%nat with 0%nat in Hi by lia. injection Hi as <-.
    rewrite Hx1, expand_snoc_new, expand_snoc_old by lia. reflexivity.
Qed.

Lemma expand_not_nil (d : list (Z * Z * Z)) (c : Z) :
  dict_wf d -> c < FIRST_CODE + Z.of_nat (length d) -> expand d c <> [].
Proof.
  intros Hwf Hc. destruct (Z.ltb_spec c FIRST_CODE) as [Hlt | Hge].
  - rewrite expand_byte by assumption. discriminate.
  - destruct (lookup_lt_is_Some_2 d (Z.to_nat (c - FIRST_CODE))) as [e He]; [lia |].
    destruct (Hwf _ _ He) as [Hcw _].
    replace c with e.1.1 by lia. rewrite (expand_entry _ _ _ Hwf He).
    intros E. apply app_eq_nil in E. destruct E as [_ E]. discriminate.
Qed.

Lemma head_snoc (l : list Z) (x : Z) : l <> [] -> head (l ++ [x]) = head l.
Proof. destruct l; [contradiction | reflexivity]. Qed.

Lemma dictionary_lookup (h : list dict_node_t) (i : nat) (e : Z * Z * Z) :
  dictionary h !! i = Some e <-> exists n, h !! i = Some n /\ e = entry_of n.
Proof.
  unfold dictionary. change (map entry_of h) with (entry_of <$> h).
  rewrite list_lookup_fmap. destruct (h !! i) as [n|]; simpl; split.
  - intros E. injection E as <-. eauto.
  - intros (n' & E & ->). injection E as <-. reflexivity.
  - discriminate.
  - intros (n' & E & _). discriminate.
Qed.

Lemma dict_inv_wf (h : list dict_node_t) : dict_inv h -> dict_wf (dictionary h).
Proof.
  intros Hd i e Hi. apply dictionary_lookup in Hi. destruct Hi as (n & Hn & ->).
  destruct (di_entry _ Hd _ _ Hn) as (H1 & H2 & _). simpl. auto.
Qed.

Lemma dictionary_length (h : list dict_node_t) : length (dictionary h) = length h.
Proof. apply length_map. Qed.

(** ** The invariant of the stream *)

(* An entry whose string is the string of [p] followed by [c] is the entry
   of the pair (p, c). *)
Lemma pair_of_string (d : list (Z * Z * Z)) (i : nat) (e : Z * Z * Z) (p c : Z) :
  dict_wf d -> codes_distinct d (FIRST_CODE + Z.of_nat (length d)) ->
  d !! i = Some e -> 0 <= p < FIRST_CODE + Z.of_nat (length d) ->
  expand d e.1.1 = expand d p ++ [c] -> e.1.2 = p /\ e.2 = c.
Proof.
  intros Hwf Hinj Hi Hp E.
  rewrite (expand_entry _ _ _ Hwf Hi) in E. apply app_inj_tail in E.
  destruct E as [E1 E2]. split; [| exact E2].
  destruct (Hwf _ _ Hi) as [Hc Hpe]. pose proof (lookup_lt_Some _ _ _ Hi).
  apply Hinj; [lia | lia | exact E1].
Qed.

Lemma entry_in_heap (h : list dict_node_t) (i : nat) (e : Z * Z * Z) :
  dictionary h !! i = Some e ->
  exists n, n ∈ h /\ codeWord n = e.1.1 /\ prefixCode n = e.1.2 /\ suffixChar n = e.2.
Proof.
  intros Hi. apply dictionary_lookup in Hi. destruct Hi as (n & Hn & ->).
  exists n. split; [eapply elem_of_lookup_node; eassumption | auto].
Qed.

Lemma codes_distinct_snoc (h : list dict_node_t) (p c : Z) :
  dict_inv h ->
  codes_distinct (dictionary h) (FIRST_CODE + Z.of_nat (length h)) ->
  0 <= p < FIRST_CODE + Z.of_nat (length h) ->
  (forall n, n ∈ h -> ~ (prefixCode n = p /\ suffixChar n = c)) ->
  codes_distinct (dictionary h ++ [(FIRST_CODE + Z.of_nat (length h), p, c)])
    (FIRST_CODE + Z.of_nat (length h) + 1).
Proof.
  intros Hd Hinj Hp Hnone.
  pose proof (dict_inv_wf _ Hd) as Hwf.
  pose proof (dictionary_length h) as Hlen.
  assert (Hnew : forall b, 0 <= b < FIRST_CODE + Z.of_nat (length h) ->
            expand (dictionary h) b <> expand (dictionary h) p ++ [c]).
  { intros b Hb E. destruct (Z.ltb_spec b FIRST_CODE) as [Hlt | Hge].
    - rewrite (expand_byte _ b) in E by assumption.
      change [b] with ([] ++ [b]) in E. apply app_inj_tail in E. destruct E as [E _].
      symmetry in E. revert E. apply expand_not_nil; [exact Hwf | lia].
    - destruct (lookup_lt_is_Some_2 (dictionary h) (Z.to_nat (b - FIRST_CODE)))
        as [e He]; [lia |].
      destruct (Hwf _ _ He) as [Hc _].
      replace b with e.1.1 in E by lia.
      assert (Hinj' : codes_distinct (dictionary h)
                        (FIRST_CODE + Z.of_nat (length (dictionary h))))
        by (rewrite Hlen; exact Hinj).
      assert (Hp' : 0 <= p < FIRST_CODE + Z.of_nat (length (dictionary h)))
        by (rewrite Hlen; exact Hp).
      destruct (pair_of_string _ _ _ _ _ Hwf Hinj' He Hp' E) as [E1 E2].
      destruct (entry_in_heap _ _ _ He) as (n & Hin & _ & Hn1 & Hn2).
      apply (Hnone n Hin). split; congruence. }
  intros a b Ha Hb E.
  destruct (decide (a = FIRST_CODE + Z.of_nat (length h))) as [-> | Hna];
    destruct (decide (b = FIRST_CODE + Z.of_nat (length h))) as [-> | Hnb];
    [reflexivity | | |].
  - exfalso. rewrite (expand_snoc_new_at (dictionary h) _ (FIRST_CODE + Z.of_nat (length h))) in E by (rewrite Hlen; reflexivity).
    rewrite expand_snoc_old in E by lia. simpl in E.
    apply (Hnew b); [lia | auto].
  - exfalso. rewrite (expand_snoc_new_at (dictionary h) _ (FIRST_CODE + Z.of_nat (length h))) in E by (rewrite Hlen; reflexivity).
    rewrite expand_snoc_old in E by lia. simpl in E.
    apply (Hnew a); [lia | auto].
  - rewrite !expand_snoc_old in E by lia. apply Hinj; [lia | lia | exact E].
Qed.

Lemma concat_expand_stable (d d' : list (Z * Z * Z)) (next : Z) (ds : list Z) :
  (forall x, x < next -> expand d' x = expand d x) ->
  Forall (fun x => x < next) ds ->
  concat (map (expand d') ds) = concat (map (expand d) ds).
Proof.
  intros Hst H. induction H as [|x ds Hx H IH]; simpl; [reflexivity |].
  rewrite IH, Hst by assumption. reflexivity.
Qed.

Lemma inv_data_assigned (st : encoder) :
  inv st -> Forall (fun x => x < nextCode st) (data_words 9 (bfpOut st)).
Proof.
  intros Hinv. apply data_words_Forall. apply (inv_assigned st Hinv).
Qed.

(* The stream after the words of a turn that writes the code [v]. *)
Lemma read_turn (out : list code_word) (w : Z) (k : nat) (v w' : Z) :
  width_after 9 out = w -> w' = w + Z.of_nat k -> w' <= MAX_CODE_LEN ->
  v < 2 ^ w' - 1 \/ w' = MAX_CODE_LEN ->
  data_words 9 (out ++ escapes w k ++ [(v, w')]) = data_words 9 out ++ [v] /\
  width_after 9 (out ++ escapes w k ++ [(v, w')]) = w'.
Proof.
  intros Hw -> Hle Hfit.
  destruct (read_escapes w k Hle) as [E1 E2].
  destruct (read_code _ v (w + Z.of_nat k) Hfit) as [E3 E4].
  rewrite !data_words_app, !width_after_app, Hw, E1, E2, E3, E4. auto.
Qed.

Lemma stream_step (fpIn : list Byte.byte) (b : Byte.byte) (rest : list Byte.byte)
  (st st' : encoder) :
  inv st -> heap st <> [] -> inv st' ->
  body_spec st (Z.of_N (Byte.to_N b)) st' ->
  stream_inv fpIn (b :: rest) st -> stream_inv fpIn rest st'.
Proof.
  intros Hinv Hne Hinv' Hspec Hsi.
  pose proof (inv_dict st Hinv) as Hd. pose proof (dict_inv_wf _ Hd) as Hwf.
  pose proof (inv_code st Hinv) as Hcode. pose proof (inv_next st Hinv) as Hnext.
  pose proof (dictionary_length (heap st)) as HDlen.
  pose proof (byte_range b) as Hb.
  assert (Hcne : expand (dictionary (heap st)) (code st) <> []).
  { apply expand_not_nil; [exact Hwf | rewrite HDlen; lia]. }
  destruct Hsi as [Hw Htext Hpre Hsuf Hsync Hinj Hcount Hquiet Hknown].
  destruct Hspec as [n Hin Hp Hs -> | k Hnone Hdict Hroot Hlen Hout Hesc Hfit Hc'].
  - (* the string goes on *)
    apply list_elem_of_lookup in Hin. destruct Hin as [j Hj].
    assert (He : dictionary (heap st) !! j = Some (entry_of n)).
    { apply dictionary_lookup. eauto. }
    pose proof (expand_entry _ _ _ Hwf He) as Ex. simpl in Ex. rewrite Hp, Hs in Ex.
    unfold set_code. split; cbn [code currentCodeLen nextCode dictRoot heap bfpOut stderr].
    + exact Hw.
    + rewrite Ex, <- Htext. simpl. rewrite <- !app_assoc. reflexivity.
    + exact Hpre.
    + intros i e d Hi Hd'.
      destruct (decide (S i < length (data_words 9 (bfpOut st)))%nat) as [Hlt | Hge].
      * rewrite lookup_app_l in Hd' by assumption.
        apply (Hsuf i e d Hi). rewrite lookup_app_l by assumption. exact Hd'.
      * pose proof (lookup_lt_Some _ _ _ Hd') as Hb'. rewrite length_app in Hb'.
        simpl in Hb'.
        assert (Ei : S i = length (data_words 9 (bfpOut st))) by lia.
        rewrite lookup_app_r in Hd' by lia. rewrite Ei, Nat.sub_diag in Hd'.
        injection Hd' as <-. rewrite Ex, head_snoc by assumption.
        apply (Hsuf i e (code st) Hi). rewrite lookup_app_r by lia.
        rewrite Ei, Nat.sub_diag. reflexivity.
    + exact Hsync.
    + exact Hinj.
    + simpl in Hcount. lia.
    + exact Hquiet.
    + exact Hknown.
  - (* a code is written *)
    pose proof (inv_len st' Hinv') as Hlen'.
    destruct (read_turn (bfpOut st) (currentCodeLen st) k (code st) (currentCodeLen st')
                Hw Hlen ltac:(lia) Hfit) as [Eds Ew].
    rewrite <- Hout in Eds, Ew.
    pose proof (inv_data_assigned st Hinv) as Hass.
    assert (Hle : (length (heap st) <= length (data_words 9 (bfpOut st)))%nat).
    { destruct (decide (length (heap st) <= length (data_words 9 (bfpOut st)))%nat)
        as [H | H]; [exact H | exfalso].
      destruct (lookup_lt_is_Some_2 (dictionary (heap st))
                  (length (data_words 9 (bfpOut st)))) as [e He]; [rewrite HDlen; lia |].
      apply Hpre in He. apply lookup_lt_Some in He. lia. }
    (* old codes keep their strings *)
    assert (Hold : forall x, x < nextCode st ->
              expand (dictionary (heap st')) x = expand (dictionary (heap st)) x).
    { intros x Hx. destruct (nextCode st <? MAX_CODES).
      - destruct Hdict as (-> & _). apply expand_snoc_old. rewrite HDlen. lia.
      - destruct Hdict as (-> & _). reflexivity. }
    split.
    + exact Ew.
    + rewrite Eds, map_app, concat_app. simpl. rewrite app_nil_r.
      rewrite (concat_expand_stable (dictionary (heap st)) _ (nextCode st)) by assumption.
      rewrite Hold by lia.
      rewrite Hc', (expand_byte _ (Z.of_N (Byte.to_N b))) by (rewrite FIRST_CODE_val; lia).
      rewrite <- Htext. simpl. rewrite <- !app_assoc. reflexivity.
    + intros i e Hi. rewrite Eds.
      destruct (Z.ltb_spec (nextCode st) MAX_CODES) as [Hroom | Hfull].
      * destruct Hdict as (ED & _). rewrite ED in Hi.
        destruct (decide (i < length (dictionary (heap st)))%nat) as [Hlt | Hge].
        -- rewrite lookup_app_l in Hi by assumption.
           apply lookup_app_l_Some. eauto.
        -- pose proof (lookup_lt_Some _ _ _ Hi) as Hb'. rewrite length_app in Hb'.
           simpl in Hb'. assert (i = length (dictionary (heap st))) as -> by lia.
           rewrite lookup_app_r, Nat.sub_diag in Hi by lia. injection Hi as <-.
           rewrite HDlen, <- (Hsync Hroom), lookup_app_r, Nat.sub_diag by lia.
           reflexivity.
      * destruct Hdict as (EH & _). rewrite EH in Hi.
        apply lookup_app_l_Some. eauto.
    + intros i e d Hi Hd'. rewrite Eds, Hc' in Hd'.
      pose proof (lookup_lt_Some _ _ _ Hd') as Hb'. rewrite !length_app in Hb'.
      simpl in Hb'.
      destruct (decide (S i <= length (data_words 9 (bfpOut st)))%nat) as [Hlt | Hge].
      * (* the code after entry [i] is in the stream or is the one just written *)
        rewrite lookup_app_l in Hd' by (rewrite length_app; simpl; lia).
        assert (Hdn : d < nextCode st).
        { apply lookup_lt_Some in Hd' as Hx. 
          destruct (decide (S i < length (data_words 9 (bfpOut st)))%nat) as [H1 | H1].
          - rewrite lookup_app_l in Hd' by assumption.
            apply (Forall_lookup_1 _ _ _ _ Hass Hd').
          - rewrite lookup_app_r in Hd' by lia.
            replace (S i - length (data_words 9 (bfpOut st)))%nat with 0%nat in Hd' by lia.
            injection Hd' as <-. lia. }
        rewrite Hold by assumption.
        assert (Hi0 : exists e0, dictionary (heap st) !! i = Some e0 /\ e0.2 = e.2).
        { destruct (Z.ltb_spec (nextCode st) MAX_CODES) as [Hroom | Hfull].
          - destruct Hdict as (ED & _). rewrite ED in Hi.
            rewrite lookup_app_l in Hi by (rewrite HDlen, <- (Hsync Hroom); lia). eauto.
          - destruct Hdict as (EH & _). rewrite EH in Hi. eauto. }
        destruct Hi0 as (e0 & Hi0 & <-).
        apply (Hsuf i e0 d Hi0). exact Hd'.
      * (* entry [i] is the new one and the next code is the character *)
        assert (Ei : i = length (data_words 9 (bfpOut st))) by lia.
        rewrite lookup_app_r in Hd' by (rewrite length_app; simpl; lia).
        rewrite length_app in Hd'. simpl in Hd'.
        replace (S i - (length (data_words 9 (bfpOut st)) + 1))%nat with 0%nat in Hd' by lia.
        injection Hd' as <-.
        rewrite expand_byte by (rewrite FIRST_CODE_val; lia). simpl. f_equal.
        destruct (Z.ltb_spec (nextCode st) MAX_CODES) as [Hroom | Hfull].
        -- destruct Hdict as (ED & _). rewrite ED in Hi.
           rewrite lookup_app_r in Hi by (rewrite HDlen, <- (Hsync Hroom); lia).
           rewrite HDlen, <- (Hsync Hroom), Ei, Nat.sub_diag in Hi.
           injection Hi as <-. reflexivity.
        -- destruct Hdict as (EH & _). rewrite EH in Hi.
           apply lookup_lt_Some in Hi. rewrite HDlen in Hi. lia.
    + intros Hroom'. rewrite Eds, length_app. simpl.
      destruct (Z.ltb_spec (nextCode st) MAX_CODES) as [Hroom | Hfull].
      * destruct Hdict as (ED & _).
        pose proof (dictionary_length (heap st')) as HL. rewrite ED, length_app in HL.
        simpl in HL. rewrite HDlen in HL. rewrite (Hsync Hroom). lia.
      * destruct Hdict as (_ & EN & _). lia.
    + destruct (Z.ltb_spec (nextCode st) MAX_CODES) as [Hroom | Hfull].
      * destruct Hdict as (ED & EN & _). rewrite ED, EN, Hnext.
        apply codes_distinct_snoc; [exact Hd | rewrite <- Hnext; exact Hinj | lia |].
        exact Hnone.
      * destruct Hdict as (EH & EN & _). rewrite EH, EN. exact Hinj.
    + rewrite Eds, length_app. simpl in *. lia.
    + intros Hpr.
      destruct (Z.ltb_spec (nextCode st) MAX_CODES) as [Hroom | Hfull].
      * destruct Hdict as (_ & _ & ES). apply Hquiet. rewrite <- ES. exact Hpr.
      * pose proof MAX_CODES_val. pose proof FIRST_CODE_val.
        pose proof (di_size _ Hd). cbn [length] in Hcount. lia.
    + intros j v Hj. rewrite Eds in Hj.
      destruct (decide (j < length (data_words 9 (bfpOut st)))%nat) as [Hlt | Hge].
      * rewrite lookup_app_l in Hj by assumption. eauto.
      * pose proof (lookup_lt_Some _ _ _ Hj) as Hb'. rewrite length_app in Hb'.
        simpl in Hb'. rewrite lookup_app_r in Hj by lia.
        replace (j - length (data_words 9 (bfpOut st)))%nat with 0%nat in Hj by lia.
        injection Hj as <-. lia.
Qed.

Lemma codes_distinct_bytes : codes_distinct [] FIRST_CODE.
Proof.
  intros a b Ha Hb E. rewrite !expand_byte in E by lia. congruence.
Qed.

Lemma stream_inv_one (b : Byte.byte) :
  stream_inv [b] [] (set_code init_encoder (Z.of_N (Byte.to_N b))).
Proof.
  pose proof (byte_range b) as Hb.
  split; cbn [set_code init_encoder code currentCodeLen nextCode dictRoot heap bfpOut
              stderr dictionary map data_words width_after length app concat].
  - reflexivity.
  - rewrite expand_byte by (rewrite FIRST_CODE_val; lia). reflexivity.
  - intros i e Hi. discriminate Hi.
  - intros i e d Hi. discriminate Hi.
  - reflexivity.
  - exact codes_distinct_bytes.
  - lia.
  - intros H. contradiction.
  - intros j v Hj. discriminate Hj.
Qed.

Lemma stream_inv_seed (b1 b2 : Byte.byte) (rest : list Byte.byte) :
  stream_inv (b1 :: b2 :: rest) rest
    (seed (set_code init_encoder (Z.of_N (Byte.to_N b1))) (Z.of_N (Byte.to_N b2))).
Proof.
  pose proof (byte_range b1) as H1. pose proof (byte_range b2) as H2.
  pose proof FIRST_CODE_val as HFC.
  rewrite seed_first_two by assumption.
  set (c1 := Z.of_N (Byte.to_N b1)) in *. set (c2 := Z.of_N (Byte.to_N b2)) in *.
  assert (Hds : data_words 9 [(c1, 9)] = [c1] /\ width_after 9 [(c1, 9)] = 9).
  { apply read_code. left. change (2 ^ 9 - 1) with 511. lia. }
  destruct Hds as [Eds Ew].
  assert (ED : dictionary [mk_dict_node 256 c2 c1 None None] = [] ++ [(256, c1, c2)])
    by reflexivity.
  split; cbn [code currentCodeLen nextCode dictRoot heap bfpOut stderr]; rewrite ?Eds.
  - exact Ew.
  - rewrite ED. simpl. rewrite !expand_byte by lia. reflexivity.
  - intros [|i] e Hi; [| destruct i; discriminate Hi]. injection Hi as <-. reflexivity.
  - intros [|i] e d Hi Hd; [| destruct i; discriminate Hi]. injection Hi as <-.
    injection Hd as <-. rewrite expand_byte by lia. reflexivity.
  - reflexivity.
  - rewrite ED.
    apply (codes_distinct_snoc [] c1 c2);
      [apply dict_inv_nil | exact codes_distinct_bytes | simpl; lia |].
    intros n Hn. apply elem_of_nil in Hn. contradiction.
  - simpl. lia.
  - intros H. contradiction.
  - intros [|j] v Hj; [| destruct j; discriminate Hj]. injection Hj as <-. lia.
Qed.

Lemma stream_inv_prologue (fpIn : list Byte.byte) :
  match prologue fpIn with
  | None => fpIn = []
  | Some (st, rest) => stream_inv fpIn rest st
  end.
Proof.
  destruct fpIn as [|b1 [|b2 rest]]; [reflexivity | |].
  - rewrite prologue_one. apply stream_inv_one.
  - rewrite prologue_two_more. apply stream_inv_seed.
Qed.

(* Every run on a non-empty file: the state [st] in which the main loop
   ends, and the states of its turns, satisfy the stream invariant. *)
Lemma stream_run (fpIn : list Byte.byte) :
  fpIn <> [] ->
  exists st,
    LZWEncodeFile fpIn = Ok (true, PutCodeWord st (code st) (currentCodeLen st)) /\
    inv st /\ stream_inv fpIn [] st /\
    Forall (fun sc : encoder * Z =>
              inv sc.1 /\ heap sc.1 <> [] /\
              exists b tl, sc.2 = Z.of_N (Byte.to_N b) /\ stream_inv fpIn (b :: tl) sc.1)
           (lookups fpIn).
Proof.
  intros Hne. pose proof (prologue_spec fpIn) as Hpro.
  pose proof (stream_inv_prologue fpIn) as Hsi.
  unfold LZWEncodeFile, lookups.
  destruct (prologue fpIn) as [[st0 rest] |]; [| contradiction].
  destruct Hpro as (Hinv & Hroot & _).
  destruct (run_invariant (stream_inv fpIn)) with (rest := rest) (st := st0)
    as (st & Hloop & Hinv' & HP & _ & Hall); [| assumption | assumption | assumption |].
  { intros b tl s s' Hs Hn Hs' _ Hspec _ Hold.
    exact (stream_step fpIn b tl s s' Hs Hn Hs' Hspec Hold). }
  exists st. rewrite Hloop. cbn [rbind]. auto.
Qed.

(* The words of a run: those of the main loop, then the code of the last
   string at the width in use. *)
Lemma stream_final (fpIn : list Byte.byte) :
  fpIn <> [] ->
  exists st body v,
    LZWEncodeFile fpIn = Ok (true, st) /\ inv st /\
    bfpOut st = body ++ [(v, currentCodeLen st)] /\
    width_after 9 body = currentCodeLen st /\
    concat (map (expand (dictionary (heap st))) (data_words 9 body ++ [v])) =
      map byte_val fpIn /\
    (forall i e, dictionary (heap st) !! i = Some e ->
       (data_words 9 body ++ [v]) !! i = Some e.1.2 /\
       exists d, (data_words 9 body ++ [v]) !! S i = Some d /\
                 head (expand (dictionary (heap st)) d) = Some e.2) /\
    codes_distinct (dictionary (heap st)) (nextCode st) /\
    (length (data_words 9 body ++ [v]) <= length fpIn)%nat /\
    (stderr st <> [] -> MAX_CODES - FIRST_CODE + 2 <= Z.of_nat (length fpIn)) /\
    (forall j d, (data_words 9 body ++ [v]) !! j = Some d ->
       0 <= d < FIRST_CODE + Z.of_nat j).
Proof.
  intros Hne. destruct (stream_run fpIn Hne) as (st & Hrun & Hinv & Hsi & _).
  destruct Hsi as [Hw Htext Hpre Hsuf Hsync Hinj Hcount Hquiet Hknown].
  exists (PutCodeWord st (code st) (currentCodeLen st)), (bfpOut st), (code st).
  unfold PutCodeWord at 2 3 4 5 6 7 8 9 10.
  cbn [code currentCodeLen nextCode dictRoot heap bfpOut stderr].
  split; [exact Hrun |]. split; [apply inv_final; exact Hinv |].
  split; [reflexivity |]. split; [exact Hw |].
  split; [| split; [| split; [| split; [| split]]]].
  - rewrite map_app, concat_app. simpl. rewrite app_nil_r, <- Htext.
    simpl. rewrite app_nil_r. reflexivity.
  - intros i e Hi. pose proof (Hpre i e Hi) as Hp.
    split; [apply lookup_app_l_Some; exact Hp |].
    apply lookup_lt_Some in Hp.
    destruct (lookup_lt_is_Some_2 (data_words 9 (bfpOut st) ++ [code st]) (S i))
      as [d Hd]; [rewrite length_app; simpl; lia |].
    exists d. split; [exact Hd | eapply Hsuf; eassumption].
  - exact Hinj.
  - rewrite length_app. simpl in *. lia.
  - exact Hquiet.
  - intros j d Hj.
    destruct (decide (j < length (data_words 9 (bfpOut st)))%nat) as [Hlt | Hge].
    + rewrite lookup_app_l in Hj by assumption. eauto.
    + pose proof (lookup_lt_Some _ _ _ Hj) as Hb. rewrite length_app in Hb.
      simpl in Hb. rewrite lookup_app_r in Hj by lia.
      replace (j - length (data_words 9 (bfpOut st)))%nat with 0%nat in Hj by lia.
      injection Hj as <-.
      pose proof (inv_code st Hinv). pose proof (inv_next st Hinv).
      assert (length (heap st) <= length (data_words 9 (bfpOut st)))%nat; [| lia].
      destruct (decide (length (heap st) <= length (data_words 9 (bfpOut st)))%nat)
        as [H1 | H1]; [exact H1 | exfalso].
      destruct (lookup_lt_is_Some_2 (dictionary (heap st))
                  (length (data_words 9 (bfpOut st)))) as [e He];
        [rewrite dictionary_length; lia |].
      apply Hpre in He. apply lookup_lt_Some in He. lia.
Qed.

(** ** Freeing the tree *)

(* [set_solver] clears hypotheses that it has cleared before. *)
#[local] Set Warnings "-clear-no-such-hyp".

Lemma FreeTree_S (fuel : nat) (h : list dict_node_t) (live : gset nat) (r : nat) :
  FreeTree (S fuel) h live r =
  if decide (r ∈ live) then
    match h !! r with
    | None => Fault WildPointer
    | Some n =>
        live1 <-- free_branch fuel h live (left n) ;;
        if decide (r ∈ live1) then
          live2 <-- free_branch fuel h live1 (right n) ;;
          free live2 r
        else Fault WildPointer
    end
  else Fault WildPointer.
Proof. reflexivity. Qed.

(* What a successful call has done, step by step. *)
Lemma FreeTree_inv (fuel : nat) (h : list dict_node_t) (live live' : gset nat) (r : nat) :
  FreeTree fuel h live r = Ok live' ->
  exists fuel' n live1 live2,
    fuel = S fuel' /\ r ∈ live /\ h !! r = Some n /\
    free_branch fuel' h live (left n) = Ok live1 /\ r ∈ live1 /\
    free_branch fuel' h live1 (right n) = Ok live2 /\ r ∈ live2 /\
    live' = live2 ∖ {[r]}.
Proof.
  destruct fuel as [|fuel]; [discriminate |]. rewrite FreeTree_S.
  destruct (decide (r ∈ live)) as [Hr |]; [| discriminate].
  destruct (h !! r) as [n|]; [| discriminate].
  destruct (free_branch fuel h live (left n)) as [live1|] eqn:E1; [| discriminate].
  cbn [rbind]. destruct (decide (r ∈ live1)) as [Hr1 |]; [| discriminate].
  destruct (free_branch fuel h live1 (right n)) as [live2|] eqn:E2; [| discriminate].
  cbn [rbind]. unfold free. destruct (decide (r ∈ live2)) as [Hr2 |]; [| discriminate].
  intros E. injection E as <-. exists fuel, n, live1, live2. auto 10.
Qed.

Lemma FreeTree_intro (fuel : nat) (h : list dict_node_t) (live live1 live2 : gset nat)
  (r : nat) (n : dict_node_t) :
  r ∈ live -> h !! r = Some n ->
  free_branch fuel h live (left n) = Ok live1 -> r ∈ live1 ->
  free_branch fuel h live1 (right n) = Ok live2 -> r ∈ live2 ->
  FreeTree (S fuel) h live r = Ok (live2 ∖ {[r]}).
Proof.
  intros Hr Hn E1 Hr1 E2 Hr2. rewrite FreeTree_S, decide_True, Hn, E1 by assumption.
  cbn [rbind]. rewrite decide_True, E2 by assumption. cbn [rbind].
  unfold free. rewrite decide_True by assumption. reflexivity.
Qed.

(* Freeing only shrinks the set of live nodes. *)
Lemma FreeTree_subseteq (fuel : nat) (h : list dict_node_t) (live live' : gset nat)
  (r : nat) :
  FreeTree fuel h live r = Ok live' -> live' ⊆ live.
Proof.
  revert live live' r. induction fuel as [|fuel IH]; intros live live' r H;
    [discriminate |].
  apply FreeTree_inv in H.
  destruct H as (f & n & l1 & l2 & Ef & Hr & Hn & E1 & Hr1 & E2 & Hr2 & ->).
  injection Ef as <-.
  assert (l1 ⊆ live).
  { destruct (left n); simpl in E1; [eauto | injection E1 as <-; set_solver]. }
  assert (l2 ⊆ l1).
  { destruct (right n); simpl in E2; [eauto | injection E2 as <-; set_solver]. }
  set_solver.
Qed.

Lemma free_branch_subseteq (fuel : nat) (h : list dict_node_t) (live live' : gset nat)
  (p : option nat) :
  free_branch fuel h live p = Ok live' -> live' ⊆ live.
Proof.
  destruct p; simpl; [apply FreeTree_subseteq | intros E; injection E as <-; set_solver].
Qed.

Lemma FreeTree_fuel_S (fuel : nat) (h : list dict_node_t) (live live' : gset nat)
  (r : nat) :
  FreeTree fuel h live r = Ok live' -> FreeTree (S fuel) h live r = Ok live'.
Proof.
  revert live live' r. induction fuel as [|fuel IH]; intros live live' r H;
    [discriminate |].
  apply FreeTree_inv in H.
  destruct H as (f & n & l1 & l2 & Ef & Hr & Hn & E1 & Hr1 & E2 & Hr2 & ->).
  injection Ef as <-.
  apply FreeTree_intro with (n := n) (live1 := l1); try assumption.
  - destruct (left n); simpl in *; [apply IH |]; assumption.
  - destruct (right n); simpl in *; [apply IH |]; assumption.
Qed.

Lemma free_branch_fuel_S (fuel : nat) (h : list dict_node_t) (live live' : gset nat)
  (p : option nat) :
  free_branch fuel h live p = Ok live' -> free_branch (S fuel) h live p = Ok live'.
Proof. destruct p; simpl; [apply FreeTree_fuel_S | auto]. Qed.

(* The new node is a leaf. *)
Lemma FreeTree_new (h : list dict_node_t) (m : nat) (nm tmp : dict_node_t)
  (fuel : nat) (live : gset nat) :
  h !! m = Some nm -> left tmp = None /\ right tmp = None ->
  length h ∈ live ->
  FreeTree (S fuel) (attach h m nm tmp) live (length h) = Ok (live ∖ {[length h]}).
Proof.
  intros Hm [Hl Hr] Hin.
  apply FreeTree_intro with (n := tmp) (live1 := live);
    [exact Hin | apply attach_lookup_new; exact Hm | rewrite Hl; reflexivity | exact Hin
    | rewrite Hr; reflexivity | exact Hin].
Qed.

(* A call that does not free the parent runs as before, whether or not the
   new node is live. *)
Lemma FreeTree_attach_away (h : list dict_node_t) (m : nat) (nm tmp : dict_node_t)
  (fuel : nat) (live live' N : gset nat) (r : nat) :
  FreeTree fuel h live r = Ok live' ->
  (m ∈ live -> m ∈ live') ->
  (forall x, x ∈ live -> (x < length h)%nat) ->
  N ⊆ {[length h]} ->
  FreeTree fuel (attach h m nm tmp) (live ∪ N) r = Ok (live' ∪ N).
Proof.
  revert live live' r. induction fuel as [|fuel IH]; intros live live' r H Hkeep Hb HN;
    [discriminate |].
  apply FreeTree_inv in H.
  destruct H as (f & n & l1 & l2 & Ef & Hr & Hn & E1 & Hr1 & E2 & Hr2 & ->).
  injection Ef as <-.
  pose proof (free_branch_subseteq _ _ _ _ _ E1) as S1.
  pose proof (free_branch_subseteq _ _ _ _ _ E2) as S2.
  assert (Hrm : r <> m) by set_solver.
  assert (Hrn : r <> length h) by (specialize (Hb r Hr); lia).
  assert (B1 : free_branch fuel (attach h m nm tmp) (live ∪ N) (left n) = Ok (l1 ∪ N)).
  { destruct (left n); simpl in *; [| injection E1 as <-; reflexivity].
    apply IH; [exact E1 | set_solver | exact Hb | exact HN]. }
  assert (B2 : free_branch fuel (attach h m nm tmp) (l1 ∪ N) (right n) = Ok (l2 ∪ N)).
  { destruct (right n); simpl in *; [| injection E2 as <-; reflexivity].
    apply IH; [exact E2 | set_solver | set_solver | exact HN]. }
  replace ((l2 ∖ {[r]}) ∪ N) with ((l2 ∪ N) ∖ {[r]}) by set_solver.
  apply FreeTree_intro with (n := n) (live1 := l1 ∪ N);
    [set_solver | | exact B1 | set_solver | exact B2 | set_solver].
  rewrite attach_lookup_other; [exact Hn | exact Hrm | apply Hb; exact Hr].
Qed.

Lemma free_branch_attach_away (h : list dict_node_t) (m : nat) (nm tmp : dict_node_t)
  (fuel : nat) (live live' N : gset nat) (p : option nat) :
  free_branch fuel h live p = Ok live' ->
  (m ∈ live -> m ∈ live') ->
  (forall x, x ∈ live -> (x < length h)%nat) ->
  N ⊆ {[length h]} ->
  free_branch (S fuel) (attach h m nm tmp) (live ∪ N) p = Ok (live' ∪ N).
Proof.
  intros E Hkeep Hb HN. apply free_branch_fuel_S.
  destruct p; simpl in *; [| injection E as <-; reflexivity].
  apply FreeTree_attach_away; assumption.
Qed.

(* A call that frees the parent frees the new node as well. *)
Lemma FreeTree_attach_through (h : list dict_node_t) (m : nat) (nm tmp : dict_node_t)
  (fuel : nat) (live live' : gset nat) (r : nat) :
  h !! m = Some nm -> left tmp = None /\ right tmp = None ->
  (key_of tmp < key_of nm /\ left nm = None) \/
  (key_of nm < key_of tmp /\ right nm = None) ->
  FreeTree fuel h live r = Ok live' ->
  m ∈ live -> m ∉ live' ->
  (forall x, x ∈ live -> (x < length h)%nat) ->
  FreeTree (S fuel) (attach h m nm tmp) (live ∪ {[length h]}) r = Ok live'.
Proof.
  intros Hm Hfresh Hstop.
  revert live live' r. induction fuel as [|fuel IH]; intros live live' r H Hin Hout Hb;
    [discriminate |].
  apply FreeTree_inv in H.
  destruct H as (f & n & l1 & l2 & Ef & Hr & Hn & E1 & Hr1 & E2 & Hr2 & ->).
  injection Ef as <-.
  pose proof (free_branch_subseteq _ _ _ _ _ E1) as S1.
  pose proof (free_branch_subseteq _ _ _ _ _ E2) as S2.
  assert (Hrn : r <> length h) by (specialize (Hb r Hr); lia).
  assert (Hfr : length h ∉ live) by (intros Hx; specialize (Hb _ Hx); lia).
  assert (Hb1 : forall x, x ∈ l1 -> (x < length h)%nat) by (intros x Hx; apply Hb; set_solver).
  assert (Hnew : forall X : gset nat, length h ∉ X ->
            FreeTree (S fuel) (attach h m nm tmp) (X ∪ {[length h]}) (length h) = Ok X).
  { intros X HX. rewrite (FreeTree_new h m nm tmp _ _ Hm Hfresh) by set_solver.
    f_equal. set_solver. }
  destruct (decide (r = m)) as [-> | Hrm].
  - (* the parent itself *)
    rewrite Hm in Hn. injection Hn as <-.
    destruct Hstop as [[Hk Hnull] | [Hk Hnull]].
    + (* the new node is the left child *)
      rewrite Hnull in E1. simpl in E1. injection E1 as <-.
      apply FreeTree_intro with (n := set_left nm (Some (length h))) (live1 := live).
      * set_solver.
      * rewrite attach_lookup_parent by exact Hm.
        rewrite (proj2 (Z.ltb_lt _ _) Hk). reflexivity.
      * simpl. apply Hnew. exact Hfr.
      * exact Hr.
      * cbn [right set_left].
        pose proof (free_branch_attach_away h m nm tmp fuel live l2 ∅ (right nm) E2
                      ltac:(intros _; exact Hr2) Hb ltac:(set_solver)) as B.
        rewrite !union_empty_r_L in B. exact B.
      * exact Hr2.
    + (* the new node is the right child *)
      rewrite Hnull in E2. simpl in E2. injection E2 as <-.
      apply FreeTree_intro with (n := set_right nm (Some (length h)))
                                (live1 := l1 ∪ {[length h]}).
      * set_solver.
      * rewrite attach_lookup_parent by exact Hm.
        rewrite (proj2 (Z.ltb_ge _ _)) by lia. reflexivity.
      * cbn [left set_right].
        apply free_branch_attach_away;
          [exact E1 | intros _; exact Hr1 | exact Hb | set_solver].
      * set_solver.
      * simpl. apply Hnew. intros Hx. specialize (Hb1 _ Hx). lia.
      * exact Hr2.
  - (* a node above the parent *)
    assert (Hm2 : m ∉ l2) by set_solver.
    assert (Hlk : attach h m nm tmp !! r = Some n).
    { rewrite attach_lookup_other; [exact Hn | exact Hrm | apply Hb; exact Hr]. }
    destruct (decide (m ∈ l1)) as [Hm1 | Hm1].
    + (* the parent is in the right branch *)
      apply FreeTree_intro with (n := n) (live1 := l1 ∪ {[length h]}).
      * set_solver.
      * exact Hlk.
      * apply free_branch_attach_away;
          [exact E1 | intros _; exact Hm1 | exact Hb | set_solver].
      * set_solver.
      * destruct (right n); simpl in *; [| injection E2 as <-; contradiction].
        apply IH; assumption.
      * exact Hr2.
    + (* the parent is in the left branch *)
      apply FreeTree_intro with (n := n) (live1 := l1).
      * set_solver.
      * exact Hlk.
      * destruct (left n); simpl in *; [| injection E1 as <-; contradiction].
        apply IH; assumption.
      * exact Hr1.
      * pose proof (free_branch_attach_away h m nm tmp fuel l1 l2 ∅ (right n) E2
                      ltac:(intros Hx; contradiction) Hb1 ltac:(set_solver)) as B.
        rewrite !union_empty_r_L in B. exact B.
      * exact Hr2.
Qed.

Lemma allocated_attach (h : list dict_node_t) (m : nat) (nm tmp : dict_node_t) :
  allocated (attach h m nm tmp) = allocated h ∪ {[length h]}.
Proof.
  unfold allocated. rewrite attach_length, seq_S, list_to_set_app_L. simpl.
  set_solver.
Qed.

(* Freeing the whole tree still works, and frees everything, after a node
   is hung under [m]. *)
Lemma FreeTree_attach (h : list dict_node_t) (m : nat) (nm tmp : dict_node_t) :
  h !! m = Some nm -> left tmp = None /\ right tmp = None ->
  (key_of tmp < key_of nm /\ left nm = None) \/
  (key_of nm < key_of tmp /\ right nm = None) ->
  FreeTree (length h) h (allocated h) 0 = Ok ∅ ->
  FreeTree (length (attach h m nm tmp)) (attach h m nm tmp)
    (allocated (attach h m nm tmp)) 0 = Ok ∅.
Proof.
  intros Hm Hfresh Hstop H. rewrite allocated_attach, attach_length.
  apply FreeTree_attach_through; [exact Hm | exact Hfresh | exact Hstop | exact H | | set_solver |].
  - unfold allocated. apply elem_of_list_to_set, elem_of_seq.
    pose proof (lookup_lt_Some _ _ _ Hm). lia.
  - intros x Hx. unfold allocated in Hx.
    apply elem_of_list_to_set, elem_of_seq in Hx. lia.
Qed.

Lemma allocated_nil : allocated [] = ∅.
Proof. reflexivity. Qed.

(* The tree can be freed as a whole: every node exactly once. *)
Lemma heap_step_free (h h' : list dict_node_t) :
  heap_step h h' ->
  FreeTree (length h) h (allocated h) 0 = Ok ∅ ->
  FreeTree (length h') h' (allocated h') 0 = Ok ∅.
Proof.
  intros [-> | m nm tmp Hm Hfresh Hstop ->] H; [exact H |].
  apply FreeTree_attach; assumption.
Qed.

Lemma free_seed (c1 c2 : Z) :
  let h := [mk_dict_node 256 c2 c1 None None] in
  FreeTree (length h) h (allocated h) 0 = Ok ∅.
Proof.
  intros h.
  assert (H0 : (0%nat : nat) ∈ allocated h) by (unfold allocated; simpl; set_solver).
  replace (∅ : gset nat) with (allocated h ∖ {[0%nat]})
    by (unfold allocated; simpl; set_solver).
  apply FreeTree_intro with (n := mk_dict_node 256 c2 c1 None None)
                            (live1 := allocated h); auto.
Qed.

(* Lines 248-257 on the state in which a run ends: the dictionary is freed
   node by node, no node is left allocated, none is freed twice and none is
   read after it is freed. *)
Lemma free_dictionary_run (fpIn : list Byte.byte) :
  exists r st, LZWEncodeFile fpIn = Ok (r, st) /\ free_dictionary st = Ok ∅.
Proof.
  pose proof (prologue_spec fpIn) as Hpro. unfold LZWEncodeFile.
  destruct fpIn as [|b1 [|b2 rest]].
  - exists false, init_encoder. split; reflexivity.
  - rewrite prologue_one. simpl. eexists _, _. split; reflexivity.
  - rewrite prologue_two_more in *. destruct Hpro as (Hinv & Hroot & _).
    pose proof (byte_range b1) as H1. pose proof (byte_range b2) as H2.
    set (st0 := seed _ _) in *.
    destruct (run_invariant
                (fun _ st => FreeTree (length (heap st)) (heap st) (allocated (heap st)) 0 = Ok ∅))
      with (rest := rest) (st := st0)
      as (st & Hloop & Hinv' & HP & Hne & _); [| assumption | assumption | |].
    + intros b tl s s' _ _ _ _ _ Hstep Hold. exact (heap_step_free _ _ Hstep Hold).
    + subst st0. rewrite seed_first_two by assumption. apply free_seed.
    + rewrite Hloop. cbn [rbind]. eexists _, _. split; [reflexivity |].
      unfold free_dictionary, PutCodeWord. cbn [dictRoot heap].
      rewrite (inv_root st Hinv').
      assert (Hn : heap st <> []).
      { destruct Hne as [-> | Hn]; [| exact Hn].
        simpl in Hloop. injection Hloop as <-.
        destruct Hroot as [Hx | Hx]; [| exact Hx].
        subst st0. rewrite seed_first_two by assumption. discriminate. }
      assert (Hr : match heap st with [] => None | _ :: _ => Some 0%nat end = Some 0%nat)
        by (destruct (heap st); [contradiction | reflexivity]).
      rewrite Hr. exact HP.
Qed.

(** ** Statements *)

(** Losslessness of the code stream.  For every non-empty input the run
    writes the words [body] of the main loop and then one last word [v].
    Read from width 9 with the escapes dropped, the codes of [body]
    followed by [v] stand, through the dictionary the run has built, for
    strings whose concatenation is the input, byte for byte.  The reader's
    width after [body] is the width at which [v] is written.  On the empty
    input nothing is written. *)
Theorem code_stream_spells_input (fpIn : list Byte.byte) :
  exists r st, LZWEncodeFile fpIn = Ok (r, st) /\
    ((r = false /\ fpIn = [] /\ bfpOut st = []) \/
     (r = true /\ exists body v,
        bfpOut st = body ++ [(v, currentCodeLen st)] /\
        width_after 9 body = currentCodeLen st /\
        concat (map (expand (dictionary (heap st))) (data_words 9 body ++ [v])) =
          map byte_val fpIn)).
Proof.
  destruct fpIn as [|b fpIn].
  - exists false, init_encoder. split; [reflexivity |]. left. auto.
  - destruct (stream_final (b :: fpIn)) as (st & body & v & Hrun & _ & Hout & Hw & Ht & _);
      [discriminate |].
    exists true, st. split; [exact Hrun |]. right. split; [reflexivity |].
    exists body, v. auto.
Qed.

(** The stream describes its own dictionary.  For every input, read the
    codes of the stream from width 9 with the escapes dropped (the last
    word counts as a code).  The code at position [j] is below [256 + j]:
    a byte, the code of an entry that the codes before it describe, or the
    code of the very entry that it completes.  Entry number [i] of the
    dictionary (code [256 + i]) has as prefix code the code at position [i]
    and as suffix character the first byte of the string of the code at
    position [i + 1]: a reader can rebuild every entry from the codes
    alone, one code late. *)
Theorem dictionary_rebuilt_from_stream (fpIn : list Byte.byte) :
  exists r st body v, LZWEncodeFile fpIn = Ok (r, st) /\
    (fpIn <> [] -> bfpOut st = body ++ [(v, currentCodeLen st)]) /\
    (fpIn <> [] -> forall j d, (data_words 9 body ++ [v]) !! j = Some d ->
       0 <= d < FIRST_CODE + Z.of_nat j) /\
    forall i cw p s, dictionary (heap st) !! i = Some (cw, p, s) ->
      cw = FIRST_CODE + Z.of_nat i /\
      (data_words 9 body ++ [v]) !! i = Some p /\
      exists d, (data_words 9 body ++ [v]) !! S i = Some d /\
                head (expand (dictionary (heap st)) d) = Some s.
Proof.
  destruct fpIn as [|b fpIn].
  - exists false, init_encoder, [], 0. split; [reflexivity |].
    split; [intros H; contradiction |]. split; [intros H; contradiction |].
    intros i cw p s H. discriminate H.
  - destruct (stream_final (b :: fpIn))
      as (st & body & v & Hrun & Hinv & Hout & _ & _ & Hd & _ & _ & _ & Hk);
      [discriminate |].
    exists true, st, body, v. split; [exact Hrun |]. split; [intros _; exact Hout |].
    split; [intros _; exact Hk |].
    intros i cw p s Hi. destruct (Hd _ _ Hi) as [H1 H2].
    destruct (dict_inv_wf _ (inv_dict _ Hinv) _ _ Hi) as [Hc _]. auto.
Qed.

(** A reader that only sees the words can read the whole stream when the
    last word passes the test that the main loop applies to its own words:
    its value is below the all-ones value of its width, or the width is
    the maximum.  Then the codes of the output, escapes dropped, spell the
    input, and the reader's width ends as the encoder's. *)
Theorem stream_readable_when_last_word_fits (fpIn : list Byte.byte) (r : bool)
  (st : encoder) :
  LZWEncodeFile fpIn = Ok (r, st) ->
  (forall v w, last (bfpOut st) = Some (v, w) -> v < 2 ^ w - 1 \/ w = MAX_CODE_LEN) ->
  concat (map (expand (dictionary (heap st))) (data_words 9 (bfpOut st))) =
    map byte_val fpIn /\
  width_after 9 (bfpOut st) = currentCodeLen st.
Proof.
  intros Hrun Hfit. destruct fpIn as [|b fpIn].
  - injection Hrun as <- <-. split; reflexivity.
  - destruct (stream_final (b :: fpIn)) as (st' & body & v & Hrun' & _ & Hout & Hw & Ht & _);
      [discriminate |].
    rewrite Hrun in Hrun'. injection Hrun' as -> <-.
    specialize (Hfit v (currentCodeLen st)). rewrite Hout, last_snoc in Hfit.
    specialize (Hfit eq_refl).
    destruct (read_code _ v (currentCodeLen st) Hfit) as [E1 E2].
    rewrite Hout, data_words_app, width_after_app, Hw, E1, E2. auto.
Qed.

Lemma stream_readable_when_last_word_fits_witness :
  exists st, LZWEncodeFile input_AAAA = Ok (true, st) /\
    concat (map (expand (dictionary (heap st))) (data_words 9 (bfpOut st))) =
      map byte_val input_AAAA /\
    width_after 9 (bfpOut st) = currentCodeLen st.
Proof.
  eexists. split; [vm_compute; reflexivity |].
  apply (stream_readable_when_last_word_fits input_AAAA true); [vm_compute; reflexivity |].
  intros v w H. vm_compute in H. injection H as <- <-. left. reflexivity.
Defined.

(** The test on the last word cannot be dropped.  On [ramp_input] the last
    word is the code 511 at width 9; a reader takes it for the escape to
    width 10, and the codes it has read spell the input without its last
    two bytes. *)
Theorem unchecked_last_word_is_lost :
  exists st, LZWEncodeFile ramp_input = Ok (true, st) /\
    width_after 9 (bfpOut st) = 10 /\ currentCodeLen st = 9 /\
    concat (map (expand (dictionary (heap st))) (data_words 9 (bfpOut st))) ++ [255; 0] =
      map byte_val ramp_input.
Proof. vm_compute. eexists. repeat split. Qed.

(** Size of the output.  A run writes at most one code per input byte, and
    one escape per step of the width: the number of words written is at
    most the number of bytes read plus the growth of the width, which is at
    most 11. *)
Theorem output_size_bound (fpIn : list Byte.byte) :
  exists r st, LZWEncodeFile fpIn = Ok (r, st) /\
    9 <= currentCodeLen st <= MAX_CODE_LEN /\
    (length (bfpOut st) <= length fpIn + Z.to_nat (currentCodeLen st - 9))%nat /\
    (length (heap st) <= length fpIn - 1)%nat.
Proof.
  destruct fpIn as [|b fpIn].
  - exists false, init_encoder. split; [reflexivity |]. simpl.
    unfold MAX_CODE_LEN. repeat split; lia.
  - destruct (stream_final (b :: fpIn))
      as (st & body & v & Hrun & Hinv & Hout & Hw & _ & Hd & _ & Hlen & _); [discriminate |].
    exists true, st. split; [exact Hrun |]. pose proof (inv_len _ Hinv) as Hl.
    split; [exact Hl |].
    destruct (data_words_length 9 body) as [_ Hb]; [rewrite Hw; lia |].
    rewrite Hw in Hb. rewrite length_app in Hlen. simpl in Hlen.
    split; [rewrite Hout, length_app, Hb; simpl; lia |].
    destruct (decide (length (heap st) <= length (data_words 9 body))%nat) as [H | H].
    + simpl. lia.
    + exfalso.
      destruct (lookup_lt_is_Some_2 (dictionary (heap st)) (length (data_words 9 body)))
        as [e He]; [rewrite dictionary_length; lia |].
      destruct (Hd _ _ He) as [_ (d & Hd' & _)]. apply lookup_lt_Some in Hd'.
      rewrite length_app in Hd'. simpl in Hd'. lia.
Qed.

(** The diagnostic of a full dictionary is out of reach of small files: a
    run on fewer than [MAX_CODES - FIRST_CODE + 2] bytes (1,048,322) prints
    nothing to [stderr]. *)
Theorem no_diagnostic_below_capacity (fpIn : list Byte.byte) (r : bool) (st : encoder) :
  LZWEncodeFile fpIn = Ok (r, st) ->
  Z.of_nat (length fpIn) < MAX_CODES - FIRST_CODE + 2 ->
  stderr st = [].
Proof.
  intros Hrun Hsmall. destruct fpIn as [|b fpIn].
  - injection Hrun as <- <-. reflexivity.
  - destruct (stream_final (b :: fpIn))
      as (st' & body & v & Hrun' & _ & _ & _ & _ & _ & _ & _ & Hq & _); [discriminate |].
    rewrite Hrun in Hrun'. injection Hrun' as -> <-.
    destruct (stderr st) eqn:E; [reflexivity | exfalso].
    assert (H : MAX_CODES - FIRST_CODE + 2 <= Z.of_nat (length (b :: fpIn)))
      by (apply Hq; discriminate).
    lia.
Qed.

Lemma no_diagnostic_below_capacity_witness :
  exists st, LZWEncodeFile input_ABABABC = Ok (true, st) /\ stderr st = [].
Proof.
  eexists. split; [vm_compute; reflexivity |].
  apply (no_diagnostic_below_capacity input_ABABABC true);
    [vm_compute; reflexivity | vm_compute; reflexivity].
Defined.

(** No string is entered twice.  For every input, distinct codes below the
    next free code stand for distinct strings: the bytes and the entries of
    the dictionary all have different strings. *)
Theorem dictionary_strings_distinct (fpIn : list Byte.byte) :
  exists r st, LZWEncodeFile fpIn = Ok (r, st) /\
    nextCode st = FIRST_CODE + Z.of_nat (length (heap st)) /\
    forall a b, 0 <= a < nextCode st -> 0 <= b < nextCode st ->
      expand (dictionary (heap st)) a = expand (dictionary (heap st)) b -> a = b.
Proof.
  destruct fpIn as [|b fpIn].
  - exists false, init_encoder. split; [reflexivity |]. split; [reflexivity |].
    exact codes_distinct_bytes.
  - destruct (stream_final (b :: fpIn))
      as (st & body & v & Hrun & Hinv & _ & _ & _ & _ & Hinj & _); [discriminate |].
    exists true, st. split; [exact Hrun |]. split; [apply (inv_next _ Hinv) | exact Hinj].
Qed.

(** The main loop matches greedily.  In every turn, with [s] the string
    read so far followed by the character just read: if [s] is the string
    of a dictionary entry, nothing is written, the dictionary is left as it
    is and the code of that entry becomes the current code; if no entry has
    the string [s], the code of the string read so far is written (after
    the escapes of the width check) and the character starts the next
    string.  Every byte after the second is handled by one such turn. *)
Theorem longest_match_each_turn (fpIn : list Byte.byte) :
  (length fpIn <= length (lookups fpIn) + 2)%nat /\
  Forall (fun sc : encoder * Z =>
            exists st', loop_body sc.1 sc.2 = Ok st' /\ greedy_turn sc.1 sc.2 st')
         (lookups fpIn).
Proof.
  destruct (LZWEncodeFile_spec fpIn) as (_ & _ & _ & _ & _ & _ & _ & Hlen).
  split; [exact Hlen |].
  destruct fpIn as [|b0 fpIn]; [constructor |].
  destruct (stream_run (b0 :: fpIn)) as (_ & _ & _ & _ & Hall); [discriminate |].
  eapply Forall_impl; [exact Hall |]. simpl.
  intros [st c] (Hinv & Hne & b & tl & -> & Hsi). simpl in *.
  destruct (loop_body_spec st _ Hinv Hne (byte_range b)) as (st' & Hrun & _ & _ & Hspec).
  exists st'. split; [exact Hrun |].
  pose proof (inv_dict st Hinv) as Hd. pose proof (dict_inv_wf _ Hd) as Hwf.
  pose proof (inv_code st Hinv) as Hcode. pose proof (inv_next st Hinv) as Hnext.
  pose proof (dictionary_length (heap st)) as HDlen.
  destruct Hspec as [n Hin Hp Hs -> | k Hnone _ _ _ Hout _ _ Hc'].
  - left. apply list_elem_of_lookup in Hin. destruct Hin as [j Hj].
    assert (He : dictionary (heap st) !! j = Some (entry_of n)).
    { apply dictionary_lookup. eauto. }
    exists (entry_of n). split; [eapply list_elem_of_lookup_2; exact He |].
    pose proof (expand_entry _ _ _ Hwf He) as Ex. simpl in Ex. rewrite Hp, Hs in Ex.
    simpl. auto.
  - right. split; [| split; [exact Hc' | exists k; exact Hout]].
    intros e He E. apply list_elem_of_lookup in He. destruct He as [i Hi].
    assert (Hinj : codes_distinct (dictionary (heap st))
                     (FIRST_CODE + Z.of_nat (length (dictionary (heap st))))).
    { rewrite HDlen, <- Hnext. apply (si_inj _ _ _ Hsi). }
    assert (Hcd : 0 <= code st < FIRST_CODE + Z.of_nat (length (dictionary (heap st))))
      by (rewrite HDlen; lia).
    destruct (pair_of_string _ _ _ _ _ Hwf Hinj Hi Hcd E) as [E1 E2].
    destruct (entry_in_heap _ _ _ Hi) as (n & Hin & _ & Hn1 & Hn2).
    apply (Hnone n Hin). split; congruence.
Qed.

(** Teardown of the dictionary (lines 251-255 and [FreeTree]).  For every
    input, freeing the tree from the root in the state in which the run
    ends returns within a recursion depth of the number of nodes, reads no
    node after it is freed, frees no node twice, and leaves no node
    allocated: every node made by [MakeNode] is freed exactly once.  On an
    empty file no node was allocated. *)
Theorem free_dictionary_frees_all (fpIn : list Byte.byte) :
  exists r st, LZWEncodeFile fpIn = Ok (r, st) /\ free_dictionary st = Ok ∅.
Proof. exact (free_dictionary_run fpIn). Qed.

(** The search finds what was inserted, and only that.  In the state in
    which a run ends, the search for the pair of any node of the tree
    returns that node.  The search for a pair (prefix code below [2^20],
    byte) that no node carries returns NULL when the tree is empty, which
    is the case exactly when the file has fewer than two bytes; otherwise
    it returns a node that has no child on the side of the key of the
    pair, where the new node can be hung. *)
Theorem lookup_round_trip (fpIn : list Byte.byte) :
  exists r st, LZWEncodeFile fpIn = Ok (r, st) /\
    (heap st = [] <-> (length fpIn <= 1)%nat) /\
    (forall j n, heap st !! j = Some n ->
       FindDictionaryEntry (heap st) (dictRoot st) (prefixCode n) (suffixChar n)
         = Ok (Some j)) /\
    (forall p c, 0 <= p < MAX_CODES -> 0 <= c < 256 ->
       (forall n, n ∈ heap st -> ~ (prefixCode n = p /\ suffixChar n = c)) ->
       (heap st = [] /\
        FindDictionaryEntry (heap st) (dictRoot st) p c = Ok None) \/
       (exists m nm,
          FindDictionaryEntry (heap st) (dictRoot st) p c = Ok (Some m) /\
          heap st !! m = Some nm /\
          ((MakeKey p c < key_of nm /\ left nm = None) \/
           (key_of nm < MakeKey p c /\ right nm = None)))).
Proof.
  destruct (LZWEncodeFile_spec fpIn) as (r & st & Hrun & Hinv & _).
  exists r, st. split; [exact Hrun |].
  split; [apply (heap_empty_iff _ _ _ Hrun) |].
  pose proof (inv_dict st Hinv) as Hd. pose proof (inv_root st Hinv) as Hroot.
  pose proof MAX_CODES_val as HMC. pose proof UINT_MOD_val as HUM.
  pose proof UCHAR_MOD_val as HUC. pose proof FIRST_CODE_val as HFC.
  split.
  - intros j n Hj. destruct (dict_inv_prefix_bound _ _ _ Hd Hj) as (Hp & Hs & _).
    pose proof (di_size _ Hd) as Hsize.
    unfold FindDictionaryEntry. rewrite Hroot.
    destruct (heap st) as [|n0 h0] eqn:Eh; [discriminate Hj |]. rewrite <- Eh in *.
    rewrite HUM, HUC, (Z.mod_small (prefixCode n)), (Z.mod_small (suffixChar n)) by lia.
    pose proof (di_find _ Hd _ _ Hj) as Hf. unfold key_of in Hf. rewrite Hf. reflexivity.
  - intros p c Hp Hc Hnone.
    unfold FindDictionaryEntry. rewrite Hroot.
    destruct (heap st) as [|n0 h0] eqn:Eh; [left; split; reflexivity | right].
    rewrite <- Eh in *.
    rewrite HUM, HUC, (Z.mod_small p), (Z.mod_small c) by lia.
    destruct (find_loop_total (length (heap st)) (heap st) 0 (MakeKey p c))
      as [m Hm]; [apply (di_ptrs _ Hd) | rewrite Eh; simpl; lia | lia |].
    destruct (find_loop_stops _ _ _ _ _ Hm) as (nm & Hnm & Hst).
    exists m, nm. rewrite Hm. split; [reflexivity |]. split; [exact Hnm |].
    destruct Hst as [Heq | Hst]; [| exact Hst].
    exfalso. destruct (dict_inv_prefix_bound _ _ _ Hd Hnm) as (Hpm & Hsm & _).
    pose proof (di_size _ Hd). unfold key_of in Heq.
    apply MakeKey_inj in Heq; [| lia | lia | lia | lia].
    apply (Hnone nm); [eapply elem_of_lookup_node; exact Hnm | exact Heq].
Qed.

(** The layout of a key (comment of [MakeKey]: ms nibble of the character,
    then the prefix code, then the ls nibble).  For a prefix code below
    [2^20] and a byte, the key is below [2^28], so nothing is lost in the
    32-bit shifts, and its three fields give back the pair: bits 24-27 are
    the high nibble of the character, bits 4-23 the prefix code, bits 0-3
    the low nibble. *)
Theorem MakeKey_fields (p s : Z) :
  0 <= p < MAX_CODES -> 0 <= s < UCHAR_MOD ->
  0 <= MakeKey p s < 2 ^ 28 /\
  Z.shiftr (MakeKey p s) 24 = Z.shiftr s 4 /\
  Z.land (Z.shiftr (MakeKey p s) 4) (MAX_CODES - 1) = p /\
  Z.land (MakeKey p s) 0x0F = Z.land s 0x0F.
Proof.
  intros Hp Hs. rewrite UCHAR_MOD_val in Hs.
  rewrite MakeKey_value by assumption. rewrite MAX_CODES_val in *.
  change 1048575 with (Z.ones 20). change (1048576 - 1) with (Z.ones 20).
  change 0x0F with (Z.ones 4).
  rewrite !Z.land_ones, !Z.shiftr_div_pow2 by lia.
  change (2 ^ 24) with 16777216. change (2 ^ 28) with 268435456.
  change (2 ^ 4) with 16. change (2 ^ 20) with 1048576.
  pose proof (Z.div_mod s 16). pose proof (Z.mod_pos_bound s 16).
  assert (0 <= s / 16 < 16)
    by (split; [apply Z.div_pos | apply Z.div_lt_upper_bound]; lia).
  split; [lia |]. split; [| split].
  - symmetry. apply (Z.div_unique _ _ _ (p * 16 + s mod 16)); lia.
  - replace ((s / 16 * 16777216 + p * 16 + s mod 16) / 16) with (s / 16 * 1048576 + p)
      by (apply (Z.div_unique _ _ _ (s mod 16)); lia).
    symmetry. apply (Z.mod_unique _ _ (s / 16)); lia.
  - symmetry. apply (Z.mod_unique _ _ (s / 16 * 1048576 + p)); lia.
Qed.

Lemma MakeKey_fields_witness :
  0 <= MakeKey 300 0xA7 < 2 ^ 28 /\
  Z.shiftr (MakeKey 300 0xA7) 24 = Z.shiftr 0xA7 4 /\
  Z.land (Z.shiftr (MakeKey 300 0xA7) 4) (MAX_CODES - 1) = 300 /\
  Z.land (MakeKey 300 0xA7) 0x0F = Z.land 0xA7 0x0F.
Proof.
  apply (MakeKey_fields 300 0xA7); vm_compute; split; congruence.
Defined.

(** A file of one byte: whatever the byte, the run succeeds, writes the
    byte as the only word, at width 9, makes no dictionary entry, prints
    nothing, and has no tree to free. *)
Theorem single_byte_file (b : Byte.byte) :
  exists st, LZWEncodeFile [b] = Ok (true, st) /\
    bfpOut st = [(byte_val b, 9)] /\ heap st = [] /\ dictRoot st = None /\
    nextCode st = FIRST_CODE /\ stderr st = [].
Proof.
  unfold LZWEncodeFile. rewrite prologue_one. simpl.
  eexists. split; [reflexivity |]. repeat split.
Qed.

(** The encoder works on line: what it has written does not depend on the
    input still to come.  For every input [l1] and every continuation
    [l2], the words written for [l1], but for the last one (the code of the
    string still open at the end of [l1]), are the first words written for
    [l1 ++ l2], and the dictionary built for [l1] is the beginning of the
    dictionary built for [l1 ++ l2]. *)
Theorem encoder_is_online (l1 l2 : list Byte.byte) :
  exists r1 st1 r st,
    LZWEncodeFile l1 = Ok (r1, st1) /\ LZWEncodeFile (l1 ++ l2) = Ok (r, st) /\
    removelast (bfpOut st1) `prefix_of` bfpOut st /\
    dictionary (heap st1) `prefix_of` dictionary (heap st).
Proof.
  destruct (LZWEncodeFile_spec (l1 ++ l2)) as (r & st & Hrun & _).
  destruct l1 as [|b1 [|b2 l1]].
  - exists false, init_encoder, r, st. split; [reflexivity |]. split; [exact Hrun |].
    split; apply prefix_nil.
  - exists true, (PutCodeWord (set_code init_encoder (Z.of_N (Byte.to_N b1)))
                    (Z.of_N (Byte.to_N b1)) 9), r, st.
    split; [unfold LZWEncodeFile; rewrite prologue_one; reflexivity |].
    split; [exact Hrun |]. split; apply prefix_nil.
  - destruct (inv_seed _ _ (byte_range b1) (byte_range b2)) as (Hi & Hne & _).
    set (st0 := seed _ _) in *.
    destruct (encode_loop_spec l1 st0 Hi (or_intror Hne)) as (s1 & Hl1 & Hi1 & Hall & _).
    assert (Hne1 : heap s1 <> []).
    { destruct (encode_loop_appends _ _ _ Hi (or_intror Hne) Hl1) as [_ [k Hk]].
      intros E. rewrite E in Hk. destruct (heap st0); [contradiction | discriminate Hk]. }
    destruct (encode_loop_spec l2 s1 Hi1 (or_intror Hne1)) as (s2 & Hl2 & _).
    destruct (encode_loop_appends _ _ _ Hi1 (or_intror Hne1) Hl2) as [P1 P2].
    exists true, (PutCodeWord s1 (code s1) (currentCodeLen s1)),
           true, (PutCodeWord s2 (code s2) (currentCodeLen s2)).
    split; [apply LZWEncodeFile_two_more; exact Hl1 |].
    split.
    { change ((b1 :: b2 :: l1) ++ l2) with (b1 :: b2 :: (l1 ++ l2)).
      apply LZWEncodeFile_two_more. subst st0.
      rewrite (encode_loop_app _ _ _ _ Hl1). exact Hl2. }
    unfold PutCodeWord. cbn [bfpOut heap]. rewrite removelast_last.
    split; [| exact P2]. etrans; [exact P1 |]. apply prefix_app_r. reflexivity.
Qed.

(** The exit paths of [LZWEncodeFile].  Whatever the files, the call
    returns.  It returns TRUE exactly when the input file opens, the output
    opens and the input is not empty; it then has closed both files and
    freed every dictionary node.  When a file cannot be opened it returns
    FALSE with nothing left open and nothing written.  On an empty input
    file it returns FALSE without closing either file: both are left open,
    and nothing is written. *)
Theorem exit_paths_release_files (fs : file_system) (inFile : string)
  (outFile : option string) :
  exists r st calls live,
    LZWEncodeFile_named fs inFile outFile = Ok (r, st, calls, live) /\
    live = ∅ /\
    (r = true <->
     exists fpIn, fopen fs inFile = Some fpIn /\ fpIn <> [] /\
                  output_opens fs outFile = true) /\
    (r = false -> bfpOut st = []) /\
    left_open calls 0 =
      match fopen fs inFile with
      | Some [] => if output_opens fs outFile then 2%nat else 0%nat
      | _ => 0%nat
      end.
Proof.
  unfold LZWEncodeFile_named, output_opens.
  destruct (fopen fs inFile) as [fpIn|] eqn:Ein.
  2:{ eexists _, _, _, _. split; [reflexivity |]. split; [reflexivity |].
      split; [split; [discriminate | intros (x & Hx & _); discriminate] |].
      split; reflexivity. }
  assert (Hopen : forall calls,
            left_open calls 0 = 2%nat ->
            left_open (calls ++ [call_fclose; call_BitFileClose]) 0 = 0%nat ->
            exists r st calls' live,
              encode_opened fpIn calls = Ok (r, st, calls', live) /\ live = ∅ /\
              (r = true <-> fpIn <> []) /\ (r = false -> bfpOut st = []) /\
              left_open calls' 0 = match fpIn with [] => 2%nat | _ :: _ => 0%nat end).
  { intros calls H2 H0. unfold encode_opened.
    destruct (free_dictionary_run fpIn) as (r & st & Hrun & Hfree).
    destruct (LZWEncodeFile_spec fpIn) as (r' & st' & Hrun' & _ & Hr & Hst & _).
    rewrite Hrun in Hrun'. injection Hrun' as <- <-.
    rewrite Hrun. cbn [rbind fst snd]. destruct r.
    - rewrite Hfree. cbn [rbind]. eexists _, _, _, _. split; [reflexivity |].
      split; [reflexivity |].
      assert (Hne : fpIn <> []) by (intros E; apply Hr in E; discriminate).
      split; [tauto |]. split; [discriminate |].
      destruct fpIn; [contradiction | exact H0].
    - eexists _, _, _, _. split; [reflexivity |].
      rewrite (Hst eq_refl). split; [reflexivity |].
      assert (He : fpIn = []) by (apply Hr; reflexivity).
      split; [split; [discriminate | intros Hx; contradiction] |].
      split; [reflexivity |]. rewrite He. exact H2. }
  destruct outFile as [name|].
  - destruct (BitFileOpen fs name) eqn:Eout.
    + destruct (Hopen [call_fopen inFile true; call_BitFileOpen name true])
        as (r & st & calls & live & Hrun & Hl & Hr & Hst & Hc); [reflexivity.. |].
      exists r, st, calls, live. split; [exact Hrun |]. split; [exact Hl |].
      split; [| split; [exact Hst | exact Hc]].
      rewrite Hr. split; [intros H; exists fpIn; auto |].
      intros (x & Hx & Hn & _). injection Hx as <-. exact Hn.
    + eexists _, _, _, _. split; [reflexivity |]. split; [reflexivity |].
      split; [split; [discriminate | intros (x & _ & _ & Hx); discriminate] |].
      split; [reflexivity |]. destruct fpIn; reflexivity.
  - destruct (Hopen [call_fopen inFile true; call_MakeBitFile])
      as (r & st & calls & live & Hrun & Hl & Hr & Hst & Hc); [reflexivity.. |].
    exists r, st, calls, live. split; [exact Hrun |]. split; [exact Hl |].
    split; [| split; [exact Hst | exact Hc]].
    rewrite Hr. split; [intros H; exists fpIn; auto |].
    intros (x & Hx & Hn & _). injection Hx as <-. exact Hn.
Qed.
